(** * Tree queries over an entity store: compiler and executor

    A shallow embedding of [tree-query.ts]: the filter factory
    [createTreeQueryFilter], the plan compiler [createTreeQuery]
    (recursive builder, node store, flattening) and the executor closure
    it returns.

    Conventions of the embedding.
    - Entities and node ids are JavaScript numbers on which the code only
      ever tests equality; both are modelled by [nat].
    - [Math.random] is modelled by an arbitrary sequence [rnd] of draws; the
      n-th call of [genId] returns [rnd n].  (The collision set [prevIds] of
      the source is never written to, so [genId] is exactly one draw.)
    - The koota primitives [cacheQuery] and [world.query] are parameters.
      [createTreeQueryOn] is [createTreeQuery] over a [cacheQuery] that may
      throw, for component arrays it was not written for.
    - JavaScript objects that are mutated through several references (the
      query objects of the builder, the shared array [childQueryObjects],
      the evaluation nodes) live in explicit stores. *)

From Stdlib Require Import String List Arith Bool Lia Permutation.
Import ListNotations.

Set Warnings "-register-all".
Set Implicit Arguments.
Set Default Proof Using "Type".

Definition Entity := nat.
Definition Id := nat.

(** Values thrown by the code: [throw `...`] throws a string,
    [throw new Error(...)] an Error object. *)
Inductive Thrown :=
| ThrowString (msg : string)
| ThrowError (msg : string).

(** The messages of the four [throw] statements that can fire. *)
Definition msgSyntax : string :=
  "createTreeQueryFilter: Syntax error creating while creating a Tree Query. Component Arrays can only contain Components or Filter Functions."%string.
Definition msgEmpty : string := "createTreeQuery: Tree query empty"%string.
Definition msgNoFilter : string :=
  "createTreeQuery: Your Tree Query contains no filter - use a regular query instead."%string.
Definition msgUnexpected : string :=
  "createTreeQuery: Unexpected failure when creating Tree Query. Please report/investigate."%string.

Section TreeQuery.

Variable World : Type.
Variable Trait : Type.
Variable QueryHash : Type.

(** The sequence of [Math.random()] draws of one compilation. *)
Variable rnd : nat -> Id.

(** * The filter factory *)

(** The user condition handed to [createTreeQueryFilter]. *)
Definition Condition := Entity -> Entity -> World -> bool.

(** [QueryFilter]: parents, children, world, skipCollectingChildren
    to the pair [{parents, children}]. *)
Definition QueryFilter :=
  list Entity -> list Entity -> World -> bool -> list Entity * list Entity.

(** The inner [for (j ...)] loop of [queryFilter], from index j on:
    [children] is the rest of the child array, [someChildMatches] and
    [children2] are the loop-carried variables.  The [break] returns at
    once. *)
Fixpoint scanChildren (condition : Condition) (world : World)
    (skipCollectingChildren : bool) (parentEid : Entity)
    (children : list Entity) (someChildMatches : bool)
    (children2 : list Entity) : bool * list Entity :=
  match children with
  | [] => (someChildMatches, children2)
  | childEid :: rest =>
      let matched := condition parentEid childEid world in
      let someChildMatches' := someChildMatches || matched in
      if matched then
        let children2' := children2 ++ [childEid] in
        if skipCollectingChildren then (someChildMatches', children2')
        else scanChildren condition world skipCollectingChildren parentEid
               rest someChildMatches' children2'
      else scanChildren condition world skipCollectingChildren parentEid
             rest someChildMatches' children2
  end.

(** The outer [for (i ...)] loop of [queryFilter]. *)
Fixpoint scanParents (condition : Condition) (world : World)
    (skipCollectingChildren : bool) (parents children : list Entity)
    (parents2 children2 : list Entity) : list Entity * list Entity :=
  match parents with
  | [] => (parents2, children2)
  | parentEid :: rest =>
      let '(someChildMatches, children2') :=
        scanChildren condition world skipCollectingChildren parentEid
          children false children2 in
      scanParents condition world skipCollectingChildren rest children
        (if someChildMatches then parents2 ++ [parentEid] else parents2)
        children2'
  end.

Definition queryFilter (condition : Condition) : QueryFilter :=
  fun parents children world skipCollectingChildren =>
    scanParents condition world skipCollectingChildren parents children [] [].


(** A filter node, the object returned by a filter constructor:
    [{components, queryFilter, childQueries, isFilter: true}]. *)
Inductive QueryFilterNode :=
| FilterNode (components : list Trait) (filter : QueryFilter)
    (childQueries : list QueryFilterNode).

Definition components (n : QueryFilterNode) : list Trait :=
  match n with FilterNode c _ _ => c end.
Definition nodeFilter (n : QueryFilterNode) : QueryFilter :=
  match n with FilterNode _ f _ => f end.
Definition childQueries (n : QueryFilterNode) : list QueryFilterNode :=
  match n with FilterNode _ _ q => q end.

(** A run-time argument of [createTreeQuery] or of a filter constructor:
    a trait (or query modifier), a filter node ([isFilter] is set), or a raw
    array, which the TypeScript types exclude but JavaScript lets through. *)
Inductive Arg :=
| ATrait (t : Trait)
| AFilter (n : QueryFilterNode)
| AArray (elems : list Arg).

(** The [for (const trait of traits)] loop of a filter constructor. *)
Fixpoint sortTraits (traits : list Arg) (_components : list Trait)
    (childQueries : list QueryFilterNode)
  : Thrown + (list Trait * list QueryFilterNode) :=
  match traits with
  | [] => inr (_components, childQueries)
  | AArray _ :: _ =>
      inl (ThrowString msgSyntax)
  | AFilter n :: rest => sortTraits rest _components (childQueries ++ [n])
  | ATrait t :: rest => sortTraits rest (_components ++ [t]) childQueries
  end.

(** [createTreeQueryFilter(condition)(...traits)].  The rest parameter
    [traits] is always an array, so the first [throw] cannot fire. *)
Definition createTreeQueryFilter (condition : Condition) (traits : list Arg)
  : Thrown + QueryFilterNode :=
  match sortTraits traits [] [] with
  | inl e => inl e
  | inr (_components, childQueries) =>
      inr (FilterNode _components (queryFilter condition) childQueries)
  end.

(** * The plan compiler *)

(** [cacheQuery] of koota; its argument list is the component array as
    the builder left it (raw values included). *)
Variable cacheQuery : list Arg -> QueryHash.

(** [world.query(hash)].  [queryById.get(id)!] is not checked at run time,
    so a node may carry [undefined], here [None]; the answer of the store
    to it is the store's business. *)
Variable worldQuery : World -> option QueryHash -> list Entity.

(** A query object [{id, components}] of the builder.  These objects are
    shared (tuples, [finalQueries], [childQueryObjects]) and mutated
    ([id] is reassigned, [components] is pushed to), so they live in a heap
    and are referred to by position. *)
Record WipQuery := mkWipQuery { wq_id : Id; wq_components : list Arg }.

Definition Ref := nat.

Record QueryTuple := mkQueryTuple { parent : Ref; child : Ref }.

Record BuildState := mkBuildState {
  draws : nat;
  heap : list WipQuery;
  filterWithTuple : list (QueryFilter * QueryTuple);
  finalQueries : list Ref;
  childQueryObjects : list (list QueryFilterNode * Ref)
}.

Definition initialBuildState : BuildState := mkBuildState 0 [] [] [] [].

Definition deref (h : list WipQuery) (r : Ref) : WipQuery :=
  nth r h (mkWipQuery 0 []).

(** In-place update of the object at [r]. *)
Fixpoint modify (r : Ref) (f : WipQuery -> WipQuery) (h : list WipQuery)
  : list WipQuery :=
  match h, r with
  | [], _ => []
  | o :: h', 0 => f o :: h'
  | o :: h', S r' => o :: modify r' f h'
  end.

Definition genId (st : BuildState) : Id * BuildState :=
  (rnd (draws st),
   mkBuildState (S (draws st)) (heap st) (filterWithTuple st)
     (finalQueries st) (childQueryObjects st)).

(** Allocation of a fresh object; returns its reference. *)
Definition alloc (o : WipQuery) (st : BuildState) : Ref * BuildState :=
  (length (heap st),
   mkBuildState (draws st) (heap st ++ [o]) (filterWithTuple st)
     (finalQueries st) (childQueryObjects st)).

Definition setHeap (h : list WipQuery) (st : BuildState) : BuildState :=
  mkBuildState (draws st) h (filterWithTuple st) (finalQueries st)
    (childQueryObjects st).

Definition pushFilterWithTuple (x : QueryFilter * QueryTuple)
    (st : BuildState) : BuildState :=
  mkBuildState (draws st) (heap st) (filterWithTuple st ++ [x])
    (finalQueries st) (childQueryObjects st).

Definition pushFinalQueries (r : Ref) (st : BuildState) : BuildState :=
  mkBuildState (draws st) (heap st) (filterWithTuple st)
    (finalQueries st ++ [r]) (childQueryObjects st).

Definition setChildQueryObjects (l : list (list QueryFilterNode * Ref))
    (st : BuildState) : BuildState :=
  mkBuildState (draws st) (heap st) (filterWithTuple st) (finalQueries st) l.

(** The body of [for (let idx = 0; idx < queryLen; idx++)] in
    [buildQueryRecursive], from index idx on; [nextNodeFind] is the
    loop-carried flag. *)
Fixpoint forEachNode (query : list Arg) (nextParentQuery : Ref)
    (nextNodeFind : bool) (st : BuildState) : bool * BuildState :=
  match query with
  | [] => (nextNodeFind, st)
  | AFilter node :: rest =>
      let nextNodeFind' := nextNodeFind || (0 <? length (components node)) in
      let (newId, st) := genId st in
      let (nextChildQuery, st) :=
        alloc (mkWipQuery newId (map ATrait (components node))) st in
      let st := pushFinalQueries nextChildQuery st in
      let st :=
        if 0 <? length (childQueries node)
        then setChildQueryObjects
               (childQueryObjects st ++ [(childQueries node, nextChildQuery)])
               st
        else st in
      let st :=
        pushFilterWithTuple
          (nodeFilter node, mkQueryTuple nextParentQuery nextChildQuery) st in
      forEachNode rest nextParentQuery nextNodeFind' st
  | node :: rest =>
      let st :=
        setHeap
          (modify nextParentQuery
             (fun o => mkWipQuery (wq_id o) (wq_components o ++ [node]))
             (heap st)) st in
      forEachNode rest nextParentQuery nextNodeFind st
  end.

(** The two-armed [if] after the loop. *)
Definition registerParent (nextParentQuery : Ref) (queryLen : nat)
    (foundNodeComponents parentQueryPassed : bool) (st : BuildState)
  : BuildState :=
  let n := length (wq_components (deref (heap st) nextParentQuery)) in
  if (n =? 0) && (0 <? queryLen) && negb foundNodeComponents then
    let (newId, st) := genId st in
    let st :=
      setHeap
        (modify nextParentQuery
           (fun o => mkWipQuery newId (wq_components o)) (heap st)) st in
    pushFinalQueries nextParentQuery st
  else if (0 <? n) && negb parentQueryPassed then
    pushFinalQueries nextParentQuery st
  else st.

(** [buildQueryRecursive].  The recursion goes through the shared array
    [childQueryObjects], which every call empties on entry and which the
    caller's [for ... of] keeps reading by index afterwards; it is not
    structural, so the model carries fuel.  [continueChildren idx] is the
    [for ... of] loop from array index [idx] on. *)
Fixpoint buildQueryRecursive (fuel : nat) (query : list Arg)
    (foundNodeComponents : bool) (parentQueryObject : option Ref)
    (st : BuildState) : option BuildState :=
  match fuel with
  | 0 => None
  | S fuel' =>
      let st := setChildQueryObjects [] st in
      let parentQueryPassed :=
        match parentQueryObject with Some _ => true | None => false end in
      let (nextParentQuery, st) :=
        match parentQueryObject with
        | Some r => (r, st)
        | None => let (newId, st) := genId st in
                  alloc (mkWipQuery newId []) st
        end in
      let queryLen := length query in
      let (nextNodeFind, st) := forEachNode query nextParentQuery false st in
      let st :=
        registerParent nextParentQuery queryLen foundNodeComponents
          parentQueryPassed st in
      continueChildren fuel' nextNodeFind 0 st
  end
with continueChildren (fuel : nat) (nextNodeFind : bool) (idx : nat)
    (st : BuildState) : option BuildState :=
  match fuel with
  | 0 => None
  | S fuel' =>
      match nth_error (childQueryObjects st) idx with
      | None => Some st
      | Some (_children, queryObject) =>
          match buildQueryRecursive fuel' (map AFilter _children)
                  nextNodeFind (Some queryObject) st with
          | None => None
          | Some st' => continueChildren fuel' nextNodeFind (S idx) st'
          end
      end
  end.

(** Nesting depth of a specification, and the fuel that
    [createTreeQuery] gives the builder. *)
Fixpoint nodeDepth (n : QueryFilterNode) : nat :=
  match n with
  | FilterNode _ _ q => S (fold_right (fun c d => Nat.max (nodeDepth c) d) 0 q)
  end.

Definition argDepth (a : Arg) : nat :=
  match a with AFilter n => nodeDepth n | _ => 0 end.

Definition queryDepth (query : list Arg) : nat :=
  fold_right (fun a d => Nat.max (argDepth a) d) 0 query.

Definition buildFuel (query : list Arg) : nat := 2 * queryDepth query + 2.

(** Maps keyed by number ([queryById], and the mutable fields of nodes). *)
Definition setAt {A : Type} (m : Id -> A) (k : Id) (v : A) : Id -> A :=
  fun k' => if Nat.eqb k' k then v else m k'.

(** [for (const {id, components} of finalQueries) queryById.set(...)]. *)
Definition registerQueries (h : list WipQuery) (final : list Ref)
  : Id -> option QueryHash :=
  fold_left
    (fun m r => setAt m (wq_id (deref h r))
                  (Some (cacheQuery (wq_components (deref h r)))))
    final (fun _ => None).

(** An edge [{filter, parentNode, childNode}]; the two nodes are named by
    their ids (the node store holds one node object per id). *)
Record EvalEdge := mkEvalEdge {
  filter : QueryFilter;
  parentNode : Id;
  childNode : Id
}.

(** A node [{id, query, children, updateList}].  An entry
    [{edge, node}] of [children] always has [node = edge.childNode] and
    is represented by the edge; the mutable [updateList] lives in the
    evaluation state below. *)
Record EvalNode := mkEvalNode {
  nodeId : Id;
  query : option QueryHash;
  children : list EvalEdge
}.

(** [nodeStore], in insertion order. *)
Definition getNode (nodeStore : list EvalNode) (i : Id) : option EvalNode :=
  find (fun n => Nat.eqb (nodeId n) i) nodeStore.

(** [parentNode.children.push({edge, node})] on the node object of id [p]. *)
Definition pushChild (p : Id) (e : EvalEdge) (nodeStore : list EvalNode)
  : list EvalNode :=
  map (fun n => if Nat.eqb (nodeId n) p
                then mkEvalNode (nodeId n) (query n) (children n ++ [e])
                else n) nodeStore.

(** One iteration of [for (const [filter, tuple] of filterWithTuple)];
    the tuple's objects are read through the heap as they are now. *)
Definition addTuple (queryById : Id -> option QueryHash)
    (h : list WipQuery) (nodeStore : list EvalNode)
    (ft : QueryFilter * QueryTuple) : list EvalNode :=
  let (f, tuple) := ft in
  let parentId := wq_id (deref h (parent tuple)) in
  let childId := wq_id (deref h (child tuple)) in
  let nodeStore :=
    match getNode nodeStore parentId with
    | Some _ => nodeStore
    | None => nodeStore ++ [mkEvalNode parentId (queryById parentId) []]
    end in
  match getNode nodeStore childId with
  | Some _ => nodeStore
  | None =>
      pushChild parentId (mkEvalEdge f parentId childId)
        (nodeStore ++ [mkEvalNode childId (queryById childId) []])
  end.

Definition childrenOf (nodeStore : list EvalNode) (i : Id) : list EvalEdge :=
  match getNode nodeStore i with
  | Some n => children n
  | None => []
  end.

(** The [while (nodeStack.length > 0)] loop.  [nodeStack] has its top at
    the head (the array's last element); pushing the children in turn
    leaves the last child on top.  Fuel bounds the number of iterations. *)
Fixpoint flattenLoop (fuel : nat) (nodeStore : list EvalNode)
    (nodeStack : list Id) (edgesFlattened : list EvalEdge)
  : option (list EvalEdge) :=
  match fuel with
  | 0 => None
  | S fuel' =>
      match nodeStack with
      | [] => Some edgesFlattened
      | node :: nodeStack' =>
          let cs := childrenOf nodeStore node in
          flattenLoop fuel' nodeStore
            (rev (map childNode cs) ++ nodeStack') (edgesFlattened ++ cs)
      end
  end.

(** The compiled plan captured by the returned closure. *)
Record Plan := mkPlan {
  edgesFlattened : list EvalEdge;
  rootNode : Id;
  nodes : list EvalNode
}.

Inductive Outcome :=
| Returns (plan : Plan)
| Throws (t : Thrown)
| OutOfFuel.

(** [createTreeQuery(...queryTree)]. *)
Definition createTreeQuery (queryTree : list Arg) : Outcome :=
  if length queryTree =? 0 then
    Throws (ThrowString msgEmpty)
  else
    match buildQueryRecursive (buildFuel queryTree) queryTree false None
            initialBuildState with
    | None => OutOfFuel
    | Some st =>
        let queryById := registerQueries (heap st) (finalQueries st) in
        match filterWithTuple st with
        | [] =>
            Throws (ThrowError msgNoFilter)
        | (_, tuple0) :: _ =>
            let rootId := wq_id (deref (heap st) (parent tuple0)) in
            let nodeStore :=
              fold_left (addTuple queryById (heap st)) (filterWithTuple st)
                [] in
            match getNode nodeStore rootId with
            | None =>
                Throws (ThrowError msgUnexpected)
            | Some _ =>
                match flattenLoop (S (length nodeStore)) nodeStore [rootId]
                        [] with
                | None => OutOfFuel
                | Some edges => Returns (mkPlan (rev edges) rootId nodeStore)
                end
            end
        end
    end.

(** [cacheQuery] is koota's.  Handed a component array it was not written
    for (one that holds a raw list) it may throw; what it does there is
    not fixed by this repository.  [registerQueriesOn store] is the loop
    [for (const {id, components} of finalQueries)] over a [cacheQuery]
    that may throw: the first throw leaves the loop and
    [createTreeQuery]. *)
Fixpoint registerQueriesOn (store : list Arg -> Thrown + QueryHash)
    (h : list WipQuery) (final : list Ref)
    (queryById : Id -> option QueryHash)
  : Thrown + (Id -> option QueryHash) :=
  match final with
  | [] => inr queryById
  | r :: rest =>
      match store (wq_components (deref h r)) with
      | inl t => inl t
      | inr hash =>
          registerQueriesOn store h rest
            (setAt queryById (wq_id (deref h r)) (Some hash))
      end
  end.

(** [createTreeQuery(...queryTree)] over such a [cacheQuery]. *)
Definition createTreeQueryOn (store : list Arg -> Thrown + QueryHash)
    (queryTree : list Arg) : Outcome :=
  if length queryTree =? 0 then
    Throws (ThrowString msgEmpty)
  else
    match buildQueryRecursive (buildFuel queryTree) queryTree false None
            initialBuildState with
    | None => OutOfFuel
    | Some st =>
        match registerQueriesOn store (heap st) (finalQueries st)
                (fun _ => None) with
        | inl t => Throws t
        | inr queryById =>
            match filterWithTuple st with
            | [] =>
                Throws (ThrowError msgNoFilter)
            | (_, tuple0) :: _ =>
                let rootId := wq_id (deref (heap st) (parent tuple0)) in
                let nodeStore :=
                  fold_left (addTuple queryById (heap st))
                    (filterWithTuple st) [] in
                match getNode nodeStore rootId with
                | None =>
                    Throws (ThrowError msgUnexpected)
                | Some _ =>
                    match flattenLoop (S (length nodeStore)) nodeStore
                            [rootId] [] with
                    | None => OutOfFuel
                    | Some edges =>
                        Returns (mkPlan (rev edges) rootId nodeStore)
                    end
                end
            end
        end
    end.

(** * The executor *)

(** The state the closure keeps between calls: the [updateList] of every
    node object, the set [queriesComputed] and the array
    [emptyResultsArr]. *)
Record EvalState := mkEvalState {
  updateList : Id -> list Entity;
  queriesComputed : Id -> bool;
  emptyResultsArr : list Entity
}.

(** Right after compilation every node has [updateList: []]. *)
Definition initialEvalState : EvalState :=
  mkEvalState (fun _ => []) (fun _ => false) [].

Definition nodeQuery (plan : Plan) (i : Id) : option QueryHash :=
  match getNode (nodes plan) i with
  | Some n => query n
  | None => None
  end.

(** [node.children.length === 0]. *)
Definition hasNoChildren (plan : Plan) (i : Id) : bool :=
  length (childrenOf (nodes plan) i) =? 0.

(** [if (!queriesComputed.has(node)) {...}]. *)
Definition ensureComputed (plan : Plan) (world : World) (node : Id)
    (st : EvalState) : EvalState :=
  if queriesComputed st node then st
  else mkEvalState
         (setAt (updateList st) node (worldQuery world (nodeQuery plan node)))
         (setAt (queriesComputed st) node true)
         (emptyResultsArr st).

(** The call of the edge's filter on the two current lists. *)
Definition narrow (plan : Plan) (world : World) (e : EvalEdge)
    (st : EvalState) : list Entity * list Entity :=
  filter e (updateList st (parentNode e)) (updateList st (childNode e))
    world (hasNoChildren plan (childNode e)).

Inductive Step :=
| Return (result : list Entity) (st : EvalState)
| Continue (st : EvalState).

(** One iteration of the executor's [for] loop. *)
Definition evalEdge (plan : Plan) (world : World) (e : EvalEdge)
    (st : EvalState) : Step :=
  let st := ensureComputed plan world (parentNode e) st in
  let st := ensureComputed plan world (childNode e) st in
  let (parents, children) := narrow plan world e st in
  if (length parents =? 0) || (length children =? 0) then
    Return (emptyResultsArr st) st
  else
    Continue
      (mkEvalState
         (setAt (setAt (updateList st) (parentNode e) parents)
            (childNode e) children)
         (queriesComputed st) (emptyResultsArr st)).

Fixpoint runEdges (plan : Plan) (world : World) (edges : list EvalEdge)
    (st : EvalState) : list Entity * EvalState :=
  match edges with
  | [] => (updateList st (rootNode plan), st)
  | e :: rest =>
      match evalEdge plan world e st with
      | Return result st' => (result, st')
      | Continue st' => runEdges plan world rest st'
      end
  end.

(** The closure returned by [createTreeQuery]: [(world) => ...]. *)
Definition executor (plan : Plan) (world : World) (st : EvalState)
  : list Entity * EvalState :=
  runEdges plan world (edgesFlattened plan)
    (mkEvalState (updateList st) (fun _ => false) []).

(** The candidate list of a node as the executor sees it before an edge:
    the cached list when the node was already computed in this call, the
    answer of the store otherwise. *)
Definition candidateList (plan : Plan) (world : World) (st : EvalState)
    (node : Id) : list Entity :=
  if queriesComputed st node then updateList st node
  else worldQuery world (nodeQuery plan node).

Definition stateOf (s : Step) : EvalState :=
  match s with Return _ st => st | Continue st => st end.

(** The state in which the loop stands after [edges], when none of them
    made it return. *)
Fixpoint advance (plan : Plan) (world : World) (edges : list EvalEdge)
    (st : EvalState) : option EvalState :=
  match edges with
  | [] => Some st
  | e :: rest =>
      match evalEdge plan world e st with
      | Return _ _ => None
      | Continue st' => advance plan world rest st'
      end
  end.

(** The state of the closure after it was called on each of [worlds] in
    turn, starting right after compilation. *)
Definition history (plan : Plan) (worlds : list World) : EvalState :=
  fold_left (fun st w => snd (executor plan w st)) worlds initialEvalState.

(** * Vocabulary of the statements *)

(** What one parent contributes to the output child list. *)
Definition matchesOf (condition : Condition) (world : World)
    (skip : bool) (children : list Entity) (p : Entity) : list Entity :=
  if skip then
    match find (fun c => condition p c world) children with
    | Some c => [c]
    | None => []
    end
  else List.filter (fun c => condition p c world) children.

(** Two states of the closure look the same to a running call when they
    agree on what was computed in this call and on the lists of the
    computed nodes. *)
Definition similar (st1 st2 : EvalState) : Prop :=
  (forall n, queriesComputed st1 n = queriesComputed st2 n) /\
  (forall n, queriesComputed st1 n = true ->
             updateList st1 n = updateList st2 n) /\
  emptyResultsArr st1 = emptyResultsArr st2.

Definition endpoints (edges : list EvalEdge) : list Id :=
  flat_map (fun e => [parentNode e; childNode e]) edges.

(** Everything [buildQueryRecursive] does before its [for ... of]. *)
Definition enter (query : list Arg) (foundNodeComponents : bool)
    (parentQueryObject : option Ref) (st : BuildState) : bool * BuildState :=
  let st := setChildQueryObjects [] st in
  let parentQueryPassed :=
    match parentQueryObject with Some _ => true | None => false end in
  let (nextParentQuery, st) :=
    match parentQueryObject with
    | Some r => (r, st)
    | None => let (newId, st) := genId st in alloc (mkWipQuery newId []) st
    end in
  let (nextNodeFind, st) := forEachNode query nextParentQuery false st in
  (nextNodeFind,
   registerParent nextParentQuery (length query) foundNodeComponents
     parentQueryPassed st).

Definition isFilter (a : Arg) : bool :=
  match a with AFilter _ => true | _ => false end.

Definition storeIds (nodeStore : list EvalNode) : list Id :=
  map nodeId nodeStore.

Definition storeEdges (nodeStore : list EvalNode) : list EvalEdge :=
  flat_map children nodeStore.

(** [above E e1 e2]: in the edge list [E], [e1] lies on the root's side
    of [e2] on one path: the child node of [e1] is the parent node of
    [e2], or they are linked so through further edges of [E]. *)
Inductive above (E : list EvalEdge) : EvalEdge -> EvalEdge -> Prop :=
| above_next e1 e2 :
    In e1 E -> In e2 E -> childNode e1 = parentNode e2 -> above E e1 e2
| above_trans e1 e2 e3 : above E e1 e2 -> above E e2 e3 -> above E e1 e3.

Definition traitsIn (traits : list Arg) : list Trait :=
  flat_map (fun a => match a with ATrait t => [t] | _ => [] end) traits.

Definition filtersIn (traits : list Arg) : list QueryFilterNode :=
  flat_map (fun a => match a with AFilter n => [n] | _ => [] end) traits.

(** The entities the store reports for a list of plain requirements. *)
Definition entitiesWith (world : World) (ts : list Trait) : list Entity :=
  worldQuery world (Some (cacheQuery (map ATrait ts))).

(** The arguments that are no filter nodes: what the builder pushes to
    the components of the parent object. *)
Definition plainIn (query : list Arg) : list Arg :=
  List.filter (fun a => negb (isFilter a)) query.

(** [holdsBelow world condOf n x]: the entity [x], taken for the filter
    node [n], meets the child queries of [n] as the builder compiles them.
    For every child query [c] there is an entity [y] that the store
    reports for the components of [c] and that the condition of [c]
    relates to [x]; for the first child query that has child queries of
    its own, [y] moreover meets those.  The child queries of the later
    ones are left out: the builder does not descend into them. *)
Fixpoint holdsBelow (world : World) (condOf : QueryFilterNode -> Condition)
    (n : QueryFilterNode) (x : Entity) {struct n} : Prop :=
  match n with
  | FilterNode _ _ q =>
      (fix level (l : list QueryFilterNode) (first : bool) : Prop :=
         match l with
         | [] => True
         | c :: l' =>
             (exists y,
                In y (entitiesWith world (components c)) /\
                condOf c x y world = true /\
                (first && (0 <? length (childQueries c)) = true ->
                 holdsBelow world condOf c y)) /\
             level l' (first && negb (0 <? length (childQueries c)))
         end) q true
  end.

(** The same for a list of filter nodes; [first] tells whether no earlier
    filter node of the list had child queries. *)
Fixpoint holdsLevel (world : World) (condOf : QueryFilterNode -> Condition)
    (l : list QueryFilterNode) (first : bool) (x : Entity) : Prop :=
  match l with
  | [] => True
  | c :: l' =>
      (exists y,
         In y (entitiesWith world (components c)) /\
         condOf c x y world = true /\
         (first && (0 <? length (childQueries c)) = true ->
          holdsBelow world condOf c y)) /\
      holdsLevel world condOf l' (first && negb (0 <? length (childQueries c)))
        x
  end.

(** The condition a filter implements, read off what it does with one
    parent and one child. *)
Definition conditionOf (f : QueryFilter) : Condition :=
  fun p c world => negb (length (fst (f [p] [c] world false)) =? 0).

(** [meetsBelow world condOf n x]: the nested existential reading of the
    child queries of [n], every one of them at every depth. *)
Fixpoint meetsBelow (world : World) (condOf : QueryFilterNode -> Condition)
    (n : QueryFilterNode) (x : Entity) {struct n} : Prop :=
  match n with
  | FilterNode _ _ q =>
      (fix level (l : list QueryFilterNode) : Prop :=
         match l with
         | [] => True
         | c :: l' =>
             (exists y,
                In y (entitiesWith world (components c)) /\
                condOf c x y world = true /\
                meetsBelow world condOf c y) /\
             level l'
         end) q
  end.

Fixpoint meetsLevel (world : World) (condOf : QueryFilterNode -> Condition)
    (l : list QueryFilterNode) (x : Entity) : Prop :=
  match l with
  | [] => True
  | c :: l' =>
      (exists y,
         In y (entitiesWith world (components c)) /\
         condOf c x y world = true /\
         meetsBelow world condOf c y) /\
      meetsLevel world condOf l' x
  end.

(** At most one filter node of the list has child queries ([free] tells
    whether one may still have them), and its child queries are of that
    kind again. *)
Fixpoint singleSpine (n : QueryFilterNode) : bool :=
  match n with
  | FilterNode _ _ q =>
      (fix level (l : list QueryFilterNode) (free : bool) : bool :=
         match l with
         | [] => true
         | c :: l' =>
             (if 0 <? length (childQueries c)
              then free && singleSpine c else true) &&
             level l' (free && negb (0 <? length (childQueries c)))
         end) q true
  end.

Fixpoint singleSpineLevel (l : list QueryFilterNode) (free : bool) : bool :=
  match l with
  | [] => true
  | c :: l' =>
      (if 0 <? length (childQueries c)
       then free && singleSpine c else true) &&
      singleSpineLevel l' (free && negb (0 <? length (childQueries c)))
  end.

(** From here on the arguments of lemmas and of the invariants below are
    all written out. *)
Unset Implicit Arguments.

(** What the tuple loop maintains: one node object per id; every edge
    sits in the children of its parent node and leads to a stored node; no
    node is the child of two edges; the first node stored is nobody's
    child. *)
Record wellFormed (nodeStore : list EvalNode) : Prop := {
  wf_ids : NoDup (storeIds nodeStore);
  wf_edges : forall n e, In n nodeStore -> In e (children n) ->
             parentNode e = nodeId n /\ In (childNode e) (storeIds nodeStore);
  wf_children : NoDup (map childNode (storeEdges nodeStore));
  wf_first : forall r e, hd_error (storeIds nodeStore) = Some r ->
             In e (storeEdges nodeStore) -> childNode e <> r
}.

(** A list of edges is bottom-up when each edge comes before every edge
    of the store that leads to its parent node. *)
Inductive bottomUp (nodeStore : list EvalNode) : list EvalEdge -> Prop :=
| bottomUp_nil : bottomUp nodeStore []
| bottomUp_cons e l :
    bottomUp nodeStore l ->
    (forall e1, In e1 (storeEdges nodeStore) ->
                childNode e1 = parentNode e -> In e1 l) ->
    bottomUp nodeStore (e :: l).

(** The nodes that hang below [root]: those to which a path of edges of
    the store leads from it. *)
Inductive reached (nodeStore : list EvalNode) (root : Id) : Id -> Prop :=
| reached_root : reached nodeStore root root
| reached_step e :
    In e (storeEdges nodeStore) ->
    reached nodeStore root (parentNode e) ->
    reached nodeStore root (childNode e).

(** The loop invariant of the traversal; [seen] lists the nodes popped so
    far. *)
Record flattenInv (nodeStore : list EvalNode) (nodeStack seen : list Id)
    (acc : list EvalEdge) : Prop := {
  inv_stack_nodup : NoDup nodeStack;
  inv_seen_nodup : NoDup seen;
  inv_seen_ids : incl seen (storeIds nodeStore);
  inv_stack_ids : incl nodeStack (storeIds nodeStore);
  inv_stack_unseen : forall n, In n nodeStack -> ~ In n seen;
  inv_unseen : forall e, In e (storeEdges nodeStore) ->
               ~ In (parentNode e) seen ->
               ~ In (childNode e) seen /\ ~ In (childNode e) nodeStack;
  inv_recorded : forall n e, In n nodeStack ->
                 In e (storeEdges nodeStore) -> childNode e = n -> In e acc;
  inv_order : bottomUp nodeStore (rev acc);
  inv_acc_edges : forall e, In e acc ->
                  In e (storeEdges nodeStore) /\ In (parentNode e) seen;
  inv_acc_nodup : NoDup (map childNode acc)
}.

(** An edge of a plan, and what a plan computes. *)

(** An edge whose filter was made by a filter constructor. *)
Definition constructed (e : EvalEdge) : Prop :=
  exists condition, filter e = queryFilter condition.

(** [satisfies plan world condOf n x]: the store reports [x] for the query
    of node [n], and for every edge of the plan that leaves [n] some
    entity satisfying the edge's child node is related to [x] by the edge's
    condition. *)
Inductive satisfies (plan : Plan) (world : World)
    (condOf : EvalEdge -> Condition) : Id -> Entity -> Prop :=
| satisfies_node n x :
    In x (worldQuery world (nodeQuery plan n)) ->
    (forall e, In e (edgesFlattened plan) -> parentNode e = n ->
       exists y, satisfies plan world condOf (childNode e) y /\
                 condOf e x y world = true) ->
    satisfies plan world condOf n x.

(** The structure of a compiled plan, as the executor relies on it. *)
Record treeShaped (plan : Plan) : Prop := {
  tree_children : NoDup (map childNode (edgesFlattened plan));
  tree_root : forall e, In e (edgesFlattened plan) ->
              childNode e <> rootNode plan;
  tree_order : bottomUp (nodes plan) (edgesFlattened plan);
  tree_edges : forall e, In e (edgesFlattened plan) ->
               In e (storeEdges (nodes plan));
  tree_connected : forall e, In e (edgesFlattened plan) ->
    parentNode e = rootNode plan \/
    exists e', In e' (edgesFlattened plan) /\ childNode e' = parentNode e
}.

(** [NotItself] of [main.ts]: [(eid1, eid2, _world) => eid1 !== eid2]. *)
Definition NotItself : Condition :=
  fun eid1 eid2 _world => negb (Nat.eqb eid1 eid2).

(** The filter nodes compiled by the recursive call for the child queries
    of [n]: all of them, then what the call for the first among them that
    has child queries of its own compiles; the later ones are not descended
    into. *)
Fixpoint compiledBelow (n : QueryFilterNode) : list QueryFilterNode :=
  match n with
  | FilterNode _ _ q =>
      q ++ (fix first (l : list QueryFilterNode) : list QueryFilterNode :=
              match l with
              | [] => []
              | c :: l' =>
                  match c with
                  | FilterNode _ _ [] => first l'
                  | FilterNode _ _ (_ :: _) => compiledBelow c
                  end
              end) q
  end.

Fixpoint continueWith (l : list QueryFilterNode) : list QueryFilterNode :=
  match l with
  | [] => []
  | c :: l' =>
      match childQueries c with
      | [] => continueWith l'
      | _ :: _ => compiledBelow c
      end
  end.

(** The filter nodes of a specification that get a tuple. *)
Definition compiledNodes (query : list Arg) : list QueryFilterNode :=
  filtersIn query ++ continueWith (filtersIn query).

(** The child-query lists the loop of the builder leaves in
    [childQueryObjects]. *)
Definition pending (l : list QueryFilterNode) : list (list QueryFilterNode) :=
  List.filter (fun cs => 0 <? length cs) (map childQueries l).

(** The state of the builder. *)

(** The child reference of a recorded tuple. *)
Definition childRef (ft : QueryFilter * QueryTuple) : Ref := child (snd ft).

(** [growing root l n]: the tuples [l] were recorded in turn, each with a
    freshly allocated child object and with the root object or the child
    object of an earlier tuple as parent; all references lie below [n]. *)
Inductive growing (root : Ref)
  : list (QueryFilter * QueryTuple) -> nat -> Prop :=
| growing_nil n : root < n -> growing root [] n
| growing_snoc l n f p c m :
    growing root l n ->
    p = root \/ In p (map childRef l) ->
    n <= c -> c < m ->
    growing root (l ++ [(f, mkQueryTuple p c)]) m.

(** What the builder maintains: the ids in the heap stem from distinct
    draws made so far; the tuples grow; the objects waiting in
    [childQueryObjects] are child objects of tuples; the child object of
    every tuple is entered in [finalQueries], which holds allocated
    objects only. *)
Record built (root : Ref) (st : BuildState) : Prop := {
  built_ids : exists ks, map wq_id (heap st) = map rnd ks /\ NoDup ks /\
                         Forall (fun k => k < draws st) ks;
  built_tuples : growing root (filterWithTuple st) (length (heap st));
  built_pending : forall cs q, In (cs, q) (childQueryObjects st) ->
                  In q (map childRef (filterWithTuple st));
  built_final : forall ft, In ft (filterWithTuple st) ->
                In (childRef ft) (finalQueries st);
  built_final_bound : forall r, In r (finalQueries st) ->
                      r < length (heap st)
}.

(** The edge the tuple loop makes of a tuple, by the ids its objects
    have in the end. *)
Definition edgeOf (h : list WipQuery) (ft : QueryFilter * QueryTuple)
  : EvalEdge :=
  mkEvalEdge (fst ft) (wq_id (deref h (parent (snd ft))))
    (wq_id (deref h (child (snd ft)))).

(** The tuples the loop records for the filter nodes [l] under the parent
    object [p], when the first fresh reference is [base]. *)
Fixpoint levelTuples (p : Ref) (base : nat) (l : list QueryFilterNode)
  : list (QueryFilter * QueryTuple) :=
  match l with
  | [] => []
  | c :: l' => (nodeFilter c, mkQueryTuple p base) :: levelTuples p (S base) l'
  end.

(** What the loop leaves in [childQueryObjects]. *)
Fixpoint levelPending (base : nat) (l : list QueryFilterNode)
  : list (list QueryFilterNode * Ref) :=
  match l with
  | [] => []
  | c :: l' =>
      if 0 <? length (childQueries c)
      then (childQueries c, base) :: levelPending (S base) l'
      else levelPending (S base) l'
  end.

(** The components of the objects the loop allocates. *)
Definition levelObjects (l : list QueryFilterNode) : list (list Arg) :=
  map (fun c => map ATrait (components c)) l.

(** All tuples recorded from a level on: the level's own, then those of
    the level below its first filter node with child queries. *)
Fixpoint spineTuples (d : nat) (p : Ref) (base : nat)
    (l : list QueryFilterNode) : list (QueryFilter * QueryTuple) :=
  levelTuples p base l ++
  match d, levelPending base l with
  | S d', (cs, q) :: _ => spineTuples d' q (base + length l) cs
  | _, _ => []
  end.

Fixpoint levelComps (comps : Ref -> list Arg) (base : nat)
    (l : list QueryFilterNode) : Prop :=
  match l with
  | [] => True
  | c :: l' =>
      comps base = map ATrait (components c) /\ levelComps comps (S base) l'
  end.

(** The components of the objects of a level and of the levels below. *)
Fixpoint spineComps (comps : Ref -> list Arg) (d : nat) (base : nat)
    (l : list QueryFilterNode) : Prop :=
  levelComps comps base l /\
  match d, levelPending base l with
  | S d', (cs, q) :: _ => spineComps comps d' (base + length l) cs
  | _, _ => True
  end.

Definition compsOf (h : list WipQuery) (r : Ref) : list Arg :=
  wq_components (deref h r).

(** * Properties of the filter *)

(** Propositional automation treats the function parameters of the section
    as implications; [pure] removes those the goal does not mention. *)
Ltac pure := try clear rnd; try clear worldQuery; try clear cacheQuery.

Lemma scanChildren_spec condition world skip p children :
  forall some children2,
    scanChildren condition world skip p children some children2 =
    (some || existsb (fun c => condition p c world) children,
     children2 ++ matchesOf condition world skip children p).
Proof.
  unfold matchesOf.
  induction children as [|c rest IH]; intros some children2; simpl.
  - rewrite orb_false_r. destruct skip; now rewrite app_nil_r.
  - destruct (condition p c world) eqn:Hc; simpl.
    + destruct skip.
      * now rewrite orb_true_r.
      * rewrite IH, <- app_assoc. simpl. now rewrite !orb_true_r.
    + rewrite IH, orb_false_r. reflexivity.
Qed.

Lemma scanParents_spec condition world skip children parents :
  forall parents2 children2,
    scanParents condition world skip parents children parents2 children2 =
    (parents2 ++
       List.filter (fun p => existsb (fun c => condition p c world) children) parents,
     children2 ++ flat_map (matchesOf condition world skip children) parents).
Proof.
  induction parents as [|p rest IH]; intros parents2 children2; simpl.
  - now rewrite !app_nil_r.
  - rewrite scanChildren_spec. simpl.
    rewrite IH, <- app_assoc.
    destruct (existsb _ children); simpl; [rewrite <- app_assoc|]; reflexivity.
Qed.

Lemma queryFilter_parents condition parents children world skip :
  fst (queryFilter condition parents children world skip) =
  List.filter (fun p => existsb (fun c => condition p c world) children) parents.
Proof. unfold queryFilter. now rewrite scanParents_spec. Qed.

Lemma queryFilter_children condition parents children world skip :
  snd (queryFilter condition parents children world skip) =
  flat_map (matchesOf condition world skip children) parents.
Proof. unfold queryFilter. now rewrite scanParents_spec. Qed.

Lemma matchesOf_incl condition world skip children p c :
  In c (matchesOf condition world skip children p) ->
  In c children /\ condition p c world = true.
Proof.
  pure. unfold matchesOf. destruct skip.
  - destruct (find _ children) as [c'|] eqn:Hf; simpl; [|tauto].
    intros [<-|[]]. apply find_some in Hf. exact Hf.
  - rewrite filter_In. tauto.
Qed.

Lemma queryFilter_parents_incl condition parents children world skip p :
  In p (fst (queryFilter condition parents children world skip)) ->
  In p parents.
Proof. pure. rewrite queryFilter_parents, filter_In. tauto. Qed.

Lemma queryFilter_children_incl condition parents children world skip c :
  In c (snd (queryFilter condition parents children world skip)) ->
  In c children.
Proof.
  rewrite queryFilter_children, in_flat_map.
  intros (p & _ & Hc). now apply matchesOf_incl in Hc.
Qed.

(** ** The existential pairwise filter *)

(** C1. [queryFilter] keeps a parent exactly when some child of the input
    child list satisfies the condition with it (the kept parents are the
    input parents filtered by that test, in order); the output child list
    is the concatenation, parent by parent, of all matching children when
    [skipCollectingChildren] is false, and of the first matching child only
    (if there is one) when it is true. *)
Theorem queryFilter_existential condition parents children world :
  (forall skip p,
     In p (fst (queryFilter condition parents children world skip)) <->
     In p parents /\
     exists c, In c children /\ condition p c world = true) /\
  (forall skip,
     fst (queryFilter condition parents children world skip) =
     List.filter (fun p => existsb (fun c => condition p c world) children)
       parents) /\
  snd (queryFilter condition parents children world false) =
    flat_map (fun p => List.filter (fun c => condition p c world) children)
      parents /\
  snd (queryFilter condition parents children world true) =
    flat_map (fun p =>
                match find (fun c => condition p c world) children with
                | Some c => [c]
                | None => []
                end) parents.
Proof.
  pure. split; [|split; [|split]].
  - intros skip p.
    rewrite queryFilter_parents, filter_In, existsb_exists. tauto.
  - intros skip. apply queryFilter_parents.
  - apply queryFilter_children.
  - apply queryFilter_children.
Qed.

(** C6. The parents kept by [queryFilter] do not depend on
    [skipCollectingChildren]. *)
Theorem queryFilter_short_circuit_parents condition parents children world :
  fst (queryFilter condition parents children world true) =
  fst (queryFilter condition parents children world false).
Proof. now rewrite !queryFilter_parents. Qed.

(** * Properties of the executor *)

Lemma setAt_same (A : Type) (m : Id -> A) k v : setAt m k v k = v.
Proof. unfold setAt. now rewrite Nat.eqb_refl. Qed.

Lemma setAt_other (A : Type) (m : Id -> A) k v k' :
  k' <> k -> setAt m k v k' = m k'.
Proof.
  intros H. unfold setAt. apply Nat.eqb_neq in H. now rewrite H.
Qed.

Lemma ensureComputed_list plan world n st :
  updateList (ensureComputed plan world n st) n = candidateList plan world st n.
Proof.
  unfold ensureComputed, candidateList.
  destruct (queriesComputed st n); simpl; [reflexivity|apply setAt_same].
Qed.

Lemma ensureComputed_list_other plan world n st m :
  m <> n -> updateList (ensureComputed plan world n st) m = updateList st m.
Proof.
  intros H. unfold ensureComputed.
  destruct (queriesComputed st n); simpl; [reflexivity|now apply setAt_other].
Qed.

Lemma ensureComputed_computed plan world n st m :
  queriesComputed (ensureComputed plan world n st) m =
  (m =? n) || queriesComputed st m.
Proof.
  unfold ensureComputed.
  destruct (queriesComputed st n) eqn:Hn; simpl.
  - destruct (m =? n) eqn:E; [|reflexivity].
    apply Nat.eqb_eq in E. subst m. now rewrite Hn.
  - unfold setAt. now destruct (m =? n).
Qed.

Lemma ensureComputed_empty plan world n st :
  emptyResultsArr (ensureComputed plan world n st) = emptyResultsArr st.
Proof. unfold ensureComputed. now destruct (queriesComputed st n). Qed.

Lemma candidateList_ensure_other plan world st n m :
  m <> n ->
  candidateList plan world (ensureComputed plan world n st) m =
  candidateList plan world st m.
Proof.
  intros H. unfold candidateList.
  rewrite ensureComputed_computed, ensureComputed_list_other by exact H.
  apply Nat.eqb_neq in H. now rewrite H.
Qed.

(** The two lists handed to the filter are the candidate lists of the two
    endpoints. *)
Lemma ensured_parent plan world e st :
  updateList
    (ensureComputed plan world (childNode e)
       (ensureComputed plan world (parentNode e) st)) (parentNode e) =
  candidateList plan world st (parentNode e).
Proof.
  destruct (Nat.eq_dec (parentNode e) (childNode e)) as [E|E].
  - rewrite <- E. rewrite ensureComputed_list. unfold candidateList.
    rewrite ensureComputed_computed, Nat.eqb_refl. simpl.
    apply ensureComputed_list.
  - rewrite ensureComputed_list_other by exact E. apply ensureComputed_list.
Qed.

Lemma ensured_child plan world e st :
  updateList
    (ensureComputed plan world (childNode e)
       (ensureComputed plan world (parentNode e) st)) (childNode e) =
  candidateList plan world st (childNode e).
Proof.
  rewrite ensureComputed_list.
  destruct (Nat.eq_dec (childNode e) (parentNode e)) as [E|E].
  - rewrite E. unfold candidateList at 1.
    rewrite ensureComputed_computed, Nat.eqb_refl. simpl.
    apply ensureComputed_list.
  - now apply candidateList_ensure_other.
Qed.

Lemma length_zero_nil (A : Type) (l : list A) :
  (length l =? 0) = true <-> l = [].
Proof.
  destruct l; simpl; split; intros H; try reflexivity; discriminate.
Qed.

(** C7. Processing an edge whose filter comes from a filter constructor
    leaves, at the edge's parent node and at its child node, a list that
    holds only entities of that node's candidate list before the edge (the
    cached list, or the answer of the store when the node is first
    touched); the lists of all other nodes are untouched.  This holds
    whether the loop goes on or returns at this edge. *)
Theorem narrowing_monotonic condition parentId childId plan world st :
  let e := mkEvalEdge (queryFilter condition) parentId childId in
  let st' := stateOf (evalEdge plan world e st) in
  (forall x, In x (updateList st' parentId) ->
             In x (candidateList plan world st parentId)) /\
  (forall x, In x (updateList st' childId) ->
             In x (candidateList plan world st childId)) /\
  (forall n, n <> parentId -> n <> childId ->
             updateList st' n = updateList st n).
Proof.
  intros e st'. subst st'. unfold evalEdge.
  pose proof (ensured_parent plan world e st) as Hp.
  pose proof (ensured_child plan world e st) as Hc.
  set (st2 := ensureComputed plan world (childNode e)
                (ensureComputed plan world (parentNode e) st)) in *.
  assert (Hother : forall n, n <> parentId -> n <> childId ->
                             updateList st2 n = updateList st n).
  { intros n H1 H2. subst st2. simpl.
    now rewrite !ensureComputed_list_other. }
  unfold narrow. simpl filter. simpl parentNode in *. simpl childNode in *.
  destruct (queryFilter condition (updateList st2 parentId)
              (updateList st2 childId) world
              (hasNoChildren plan childId)) as [ps cs] eqn:Hq.
  assert (Hps : forall x, In x ps -> In x (updateList st2 parentId)).
  { intros x Hx. apply queryFilter_parents_incl
      with (condition := condition) (children := updateList st2 childId)
           (world := world) (skip := hasNoChildren plan childId).
    now rewrite Hq. }
  assert (Hcs : forall x, In x cs -> In x (updateList st2 childId)).
  { intros x Hx. apply queryFilter_children_incl
      with (condition := condition) (parents := updateList st2 parentId)
           (world := world) (skip := hasNoChildren plan childId).
    now rewrite Hq. }
  destruct ((length ps =? 0) || (length cs =? 0)); simpl.
  - rewrite Hp, Hc. repeat split; auto.
  - repeat split.
    + intros x. destruct (Nat.eq_dec parentId childId) as [E|E].
      * rewrite E, setAt_same. rewrite <- Hc. apply Hcs.
      * rewrite setAt_other, setAt_same by exact E. rewrite <- Hp. apply Hps.
    + intros x. rewrite setAt_same, <- Hc. apply Hcs.
    + intros n H1 H2. rewrite !setAt_other by assumption. now apply Hother.
Qed.

Lemma runEdges_app plan world pre rest st st1 :
  advance plan world pre st = Some st1 ->
  runEdges plan world (pre ++ rest) st = runEdges plan world rest st1.
Proof.
  revert st. induction pre as [|e pre IH]; intros st H; simpl in *.
  - now inversion H.
  - destruct (evalEdge plan world e st); [discriminate|]. now apply IH.
Qed.

Lemma evalEdge_empty plan world e st s :
  evalEdge plan world e st = s ->
  emptyResultsArr (stateOf s) = emptyResultsArr st.
Proof.
  intros <-. unfold evalEdge.
  destruct (narrow _ _ _ _) as [ps cs].
  destruct (_ || _); simpl; now rewrite !ensureComputed_empty.
Qed.

Lemma advance_empty plan world pre :
  forall st st1, advance plan world pre st = Some st1 ->
                 emptyResultsArr st1 = emptyResultsArr st.
Proof.
  induction pre as [|e pre IH]; intros st st1 H; simpl in H.
  - now inversion H.
  - destruct (evalEdge plan world e st) as [|st'] eqn:E; [discriminate|].
    apply IH in H. rewrite H.
    now apply evalEdge_empty in E.
Qed.

(** C5. When the executor has gone through the edges [pre] without
    returning and the filter of the next edge [e] yields an empty parent
    list or an empty child list, the call returns the empty list at once:
    the closure's state is the one in which the filter of [e] was called,
    whatever edges [rest] follow. *)
Theorem executor_early_exit plan world st pre e rest st1 :
  edgesFlattened plan = pre ++ e :: rest ->
  advance plan world pre (mkEvalState (updateList st) (fun _ => false) [])
    = Some st1 ->
  let st2 := ensureComputed plan world (childNode e)
               (ensureComputed plan world (parentNode e) st1) in
  fst (narrow plan world e st2) = [] \/ snd (narrow plan world e st2) = [] ->
  executor plan world st = ([], st2) /\
  evalEdge plan world e st1 = Return [] st2.
Proof.
  intros Hsplit Hadv st2 Hempty.
  assert (Hnil : emptyResultsArr st2 = []).
  { subst st2. rewrite !ensureComputed_empty.
    now rewrite (advance_empty _ _ _ _ _ Hadv). }
  assert (Hstep : evalEdge plan world e st1 = Return [] st2).
  { unfold evalEdge. fold st2.
    destruct (narrow plan world e st2) as [ps cs]. simpl in Hempty.
    assert (H : (length ps =? 0) || (length cs =? 0) = true).
    { apply orb_true_iff.
      destruct Hempty as [H|H]; [left|right]; now apply length_zero_nil. }
    now rewrite H, Hnil. }
  split; [|exact Hstep].
  unfold executor. rewrite Hsplit.
  rewrite (runEdges_app _ _ _ (e :: rest) _ _ Hadv). simpl. now rewrite Hstep.
Qed.

(** ** Reuse of a compiled query *)

Lemma similar_ensure plan world n st1 st2 :
  similar st1 st2 ->
  similar (ensureComputed plan world n st1) (ensureComputed plan world n st2).
Proof.
  intros (Hc & Hl & He). unfold similar.
  repeat split.
  - intros m. now rewrite !ensureComputed_computed, Hc.
  - intros m. rewrite ensureComputed_computed.
    destruct (Nat.eq_dec m n) as [->|Hm].
    + intros _. rewrite !ensureComputed_list. unfold candidateList.
      rewrite <- Hc. destruct (queriesComputed st1 n) eqn:E; auto.
    + rewrite !ensureComputed_list_other by exact Hm.
      apply Nat.eqb_neq in Hm. rewrite Hm. simpl. apply Hl.
  - now rewrite !ensureComputed_empty.
Qed.

Lemma ensure_computed_self plan world n st :
  queriesComputed (ensureComputed plan world n st) n = true.
Proof. now rewrite ensureComputed_computed, Nat.eqb_refl. Qed.

Lemma ensure_computed_mono plan world n st m :
  queriesComputed st m = true ->
  queriesComputed (ensureComputed plan world n st) m = true.
Proof. intros H. rewrite ensureComputed_computed, H. apply orb_true_r. Qed.

Lemma similar_evalEdge plan world e st1 st2 :
  similar st1 st2 ->
  match evalEdge plan world e st1, evalEdge plan world e st2 with
  | Return r1 s1, Return r2 s2 => r1 = r2 /\ similar s1 s2
  | Continue s1, Continue s2 =>
      similar s1 s2 /\
      queriesComputed s1 (parentNode e) = true /\
      queriesComputed s1 (childNode e) = true
  | _, _ => False
  end.
Proof.
  intros Hsim. unfold evalEdge.
  pose proof (similar_ensure plan world (childNode e) _ _
                (similar_ensure plan world (parentNode e) _ _ Hsim)) as H2.
  set (a := ensureComputed plan world (childNode e)
              (ensureComputed plan world (parentNode e) st1)) in *.
  set (b := ensureComputed plan world (childNode e)
              (ensureComputed plan world (parentNode e) st2)) in *.
  assert (Hpa : queriesComputed a (parentNode e) = true).
  { subst a. apply ensure_computed_mono, ensure_computed_self. }
  assert (Hca : queriesComputed a (childNode e) = true).
  { subst a. apply ensure_computed_self. }
  destruct H2 as (Hc & Hl & He).
  unfold narrow. rewrite <- (Hl _ Hpa), <- (Hl _ Hca).
  destruct (filter e (updateList a (parentNode e))
              (updateList a (childNode e)) world
              (hasNoChildren plan (childNode e))) as [ps cs].
  destruct ((length ps =? 0) || (length cs =? 0)).
  - split; [exact He|]. repeat split; assumption.
  - simpl. repeat split; simpl; try assumption.
    intros n Hn. unfold setAt.
    destruct (n =? childNode e); [reflexivity|].
    destruct (n =? parentNode e); [reflexivity|]. now apply Hl.
Qed.

Lemma evalEdge_list_other plan world e st n :
  n <> parentNode e -> n <> childNode e ->
  updateList (stateOf (evalEdge plan world e st)) n = updateList st n.
Proof.
  intros H1 H2. unfold evalEdge.
  destruct (narrow _ _ _ _) as [ps cs].
  destruct (_ || _); simpl;
    rewrite ?setAt_other by assumption;
    now rewrite !ensureComputed_list_other.
Qed.

Lemma evalEdge_computed_mono plan world e st n :
  queriesComputed st n = true ->
  queriesComputed (stateOf (evalEdge plan world e st)) n = true.
Proof.
  intros H. unfold evalEdge.
  destruct (narrow _ _ _ _) as [ps cs].
  destruct (_ || _); simpl; now apply ensure_computed_mono, ensure_computed_mono.
Qed.

Lemma runEdges_list_other plan world edges n :
  ~ In n (endpoints edges) ->
  forall st, updateList (snd (runEdges plan world edges st)) n = updateList st n.
Proof.
  induction edges as [|e edges IH]; intros Hn st; simpl; [reflexivity|].
  simpl in Hn.
  assert (H1 : n <> parentNode e) by (intros ->; apply Hn; now left).
  assert (H2 : n <> childNode e) by (intros ->; apply Hn; right; now left).
  assert (H3 : ~ In n (endpoints edges)) by (intros H; apply Hn; now do 2 right).
  pose proof (evalEdge_list_other plan world e st n H1 H2) as Hstep.
  destruct (evalEdge plan world e st) as [r st'|st']; simpl in *.
  - exact Hstep.
  - now rewrite IH.
Qed.

(** A call reads the lists of earlier calls only at a root that none of
    its edges touches; there nothing ever writes. *)
Lemma runEdges_similar plan world edges :
  forall st1 st2,
    similar st1 st2 ->
    (In (rootNode plan) (endpoints edges) \/
     queriesComputed st1 (rootNode plan) = true \/
     updateList st1 (rootNode plan) = updateList st2 (rootNode plan)) ->
    fst (runEdges plan world edges st1) = fst (runEdges plan world edges st2).
Proof.
  induction edges as [|e edges IH]; intros st1 st2 Hsim Hroot; simpl.
  - destruct Hroot as [[]|[H|H]]; [|exact H].
    destruct Hsim as (_ & Hl & _). now apply Hl.
  - pose proof (similar_evalEdge plan world e _ _ Hsim) as Hstep.
    pose proof (evalEdge_list_other plan world e st1 (rootNode plan)) as Ho1.
    pose proof (evalEdge_list_other plan world e st2 (rootNode plan)) as Ho2.
    pose proof (evalEdge_computed_mono plan world e st1 (rootNode plan)) as Hm.
    destruct (evalEdge plan world e st1) as [r1 s1|s1],
             (evalEdge plan world e st2) as [r2 s2|s2];
      simpl in *; try contradiction.
    + now destruct Hstep.
    + destruct Hstep as (Hs & Hp & Hc). apply IH; [exact Hs|].
      destruct Hroot as [[E|[E|Hin]]|[H|H]].
      * right; left. now rewrite <- E.
      * right; left. now rewrite <- E.
      * now left.
      * right; left. now apply Hm.
      * destruct (Nat.eq_dec (rootNode plan) (parentNode e)) as [E|E1];
          [right; left; now rewrite E|].
        destruct (Nat.eq_dec (rootNode plan) (childNode e)) as [E|E2];
          [right; left; now rewrite E|].
        right; right. now rewrite Ho1, Ho2.
Qed.

Lemma history_snoc plan worlds w :
  history plan (worlds ++ [w]) = snd (executor plan w (history plan worlds)).
Proof. unfold history. now rewrite fold_left_app. Qed.

Lemma history_untouched_root plan :
  ~ In (rootNode plan) (endpoints (edgesFlattened plan)) ->
  forall worlds, updateList (history plan worlds) (rootNode plan) = [].
Proof.
  intros Hroot worlds.
  induction worlds as [|w worlds IH] using rev_ind; [reflexivity|].
  rewrite history_snoc. unfold executor.
  now rewrite runEdges_list_other.
Qed.

Lemma executor_any_state plan world st1 st2 :
  (In (rootNode plan) (endpoints (edgesFlattened plan)) \/
   updateList st1 (rootNode plan) = updateList st2 (rootNode plan)) ->
  fst (executor plan world st1) = fst (executor plan world st2).
Proof.
  intros H. unfold executor. apply runEdges_similar.
  - repeat split; simpl; auto. discriminate.
  - simpl. destruct H; auto.
Qed.

(** C10. The result of calling a compiled query depends on the world it
    is given and on nothing the closure kept from earlier calls: after any
    two sequences of earlier calls (on any worlds, ended early or not) the
    call returns the same list; in particular calling it twice in
    succession on one world returns the same list twice. *)
Theorem executor_reusable plan world :
  (forall worlds1 worlds2,
     fst (executor plan world (history plan worlds1)) =
     fst (executor plan world (history plan worlds2))) /\
  (forall worlds,
     let st := history plan worlds in
     fst (executor plan world (snd (executor plan world st))) =
     fst (executor plan world st)).
Proof.
  assert (H : forall worlds1 worlds2,
             fst (executor plan world (history plan worlds1)) =
             fst (executor plan world (history plan worlds2))).
  { intros worlds1 worlds2. apply executor_any_state.
    destruct (in_dec Nat.eq_dec (rootNode plan)
                (endpoints (edgesFlattened plan))) as [Hin|Hout].
    - now left.
    - right. now rewrite !history_untouched_root. }
  split; [exact H|].
  intros worlds st. subst st. rewrite <- history_snoc. apply H.
Qed.

(** * Properties of the compiler *)

(** ** Filter constructors reject raw lists *)

Lemma sortTraits_array traits :
  (exists elems, In (AArray elems) traits) ->
  forall _components childQueries,
    sortTraits traits _components childQueries = inl (ThrowString msgSyntax).
Proof.
  pure. intros (elems & Hin).
  induction traits as [|a rest IH]; [destruct Hin|].
  intros c q. destruct Hin as [->|Hin]; [reflexivity|].
  destruct a; simpl; auto.
Qed.

Lemma sortTraits_no_array traits :
  (forall elems, ~ In (AArray elems) traits) ->
  forall _components childQueries,
    exists c q, sortTraits traits _components childQueries = inr (c, q).
Proof.
  pure. induction traits as [|a rest IH]; intros Hno c q; simpl.
  - now exists c, q.
  - assert (Hrest : forall elems, ~ In (AArray elems) rest).
    { intros elems H. apply (Hno elems). now right. }
    destruct a; auto.
    exfalso. apply (Hno elems). now left.
Qed.

(** Whatever the arguments, the filter of a constructed node is
    [queryFilter] of the constructor's condition. *)
Lemma createTreeQueryFilter_filter condition traits node :
  createTreeQueryFilter condition traits = inr node ->
  nodeFilter node = queryFilter condition.
Proof.
  pure. unfold createTreeQueryFilter.
  destruct (sortTraits traits [] []) as [e|[c q]]; [discriminate|].
  intros H. inversion H. reflexivity.
Qed.

(** ** The builder *)

Lemma buildQueryRecursive_unfold fuel query found po st :
  buildQueryRecursive (S fuel) query found po st =
  continueChildren fuel (fst (enter query found po st)) 0
    (snd (enter query found po st)).
Proof.
  simpl. unfold enter.
  destruct po as [r|]; simpl.
  - destruct (forEachNode query r false _); reflexivity.
  - destruct (forEachNode query _ false _); reflexivity.
Qed.

Lemma continueChildren_unfold fuel nextNodeFind idx st :
  continueChildren (S fuel) nextNodeFind idx st =
  match nth_error (childQueryObjects st) idx with
  | None => Some st
  | Some (_children, queryObject) =>
      match buildQueryRecursive fuel (map AFilter _children) nextNodeFind
              (Some queryObject) st with
      | None => None
      | Some st' => continueChildren fuel nextNodeFind (S idx) st'
      end
  end.
Proof. destruct fuel; reflexivity. Qed.

Lemma registerParent_tuples r len found passed st :
  filterWithTuple (registerParent r len found passed st) = filterWithTuple st.
Proof.
  unfold registerParent.
  destruct (_ && negb found); [reflexivity|].
  destruct (_ && negb passed); reflexivity.
Qed.

Lemma registerParent_children r len found passed st :
  childQueryObjects (registerParent r len found passed st) =
  childQueryObjects st.
Proof.
  unfold registerParent.
  destruct (_ && negb found); [reflexivity|].
  destruct (_ && negb passed); reflexivity.
Qed.

Lemma forEachNode_plain query :
  forallb (fun a => negb (isFilter a)) query = true ->
  forall r nextNodeFind st,
    fst (forEachNode query r nextNodeFind st) = nextNodeFind /\
    filterWithTuple (snd (forEachNode query r nextNodeFind st)) =
      filterWithTuple st /\
    childQueryObjects (snd (forEachNode query r nextNodeFind st)) =
      childQueryObjects st.
Proof.
  induction query as [|a rest IH]; intros Hplain r nnf st; simpl.
  - auto.
  - simpl in Hplain. apply andb_true_iff in Hplain as [Ha Hrest].
    destruct a; try discriminate; simpl;
      match goal with |- context [forEachNode rest r nnf ?s] =>
        destruct (IH Hrest r nnf s) as (H1 & H2 & H3); rewrite H1, H2, H3
      end; auto.
Qed.

Lemma no_filter_plain (query : list Arg) :
  (forall n, ~ In (AFilter n) query) ->
  forallb (fun a => negb (isFilter a)) query = true.
Proof.
  pure. intros H. apply forallb_forall. intros a Ha.
  destruct a; try reflexivity. now apply H in Ha.
Qed.

Lemma enter_plain query found po st :
  forallb (fun a => negb (isFilter a)) query = true ->
  filterWithTuple (snd (enter query found po st)) = filterWithTuple st /\
  childQueryObjects (snd (enter query found po st)) = [].
Proof.
  intros Hplain. unfold enter.
  destruct po as [r|]; simpl.
  - destruct (forEachNode_plain query Hplain r false
                (setChildQueryObjects [] st)) as (_ & Ht & Hc).
    destruct (forEachNode query r false _) as [b st1]; simpl in *.
    now rewrite registerParent_tuples, registerParent_children, Ht, Hc.
  - match goal with |- context [forEachNode query ?r false ?s] =>
      destruct (forEachNode_plain query Hplain r false s) as (_ & Ht & Hc);
      destruct (forEachNode query r false s) as [b st1] end; simpl in *.
    now rewrite registerParent_tuples, registerParent_children, Ht, Hc.
Qed.

(** C8. [createTreeQuery] throws while compiling, and so returns no
    callable query, when its argument list is empty and when no element of
    the list is a filter node (so that no filter edge would be compiled). *)
Theorem createTreeQuery_specification_errors :
  createTreeQuery [] = Throws (ThrowString msgEmpty) /\
  forall queryTree,
    queryTree <> [] ->
    (forall n, ~ In (AFilter n) queryTree) ->
    createTreeQuery queryTree = Throws (ThrowError msgNoFilter).
Proof.
  split; [reflexivity|].
  intros queryTree Hne Hno. unfold createTreeQuery.
  destruct queryTree as [|a rest]; [contradiction|].
  change (length (a :: rest) =? 0) with false. cbv iota.
  unfold buildFuel.
  replace (2 * queryDepth (a :: rest) + 2)
    with (S (S (2 * queryDepth (a :: rest)))) by lia.
  rewrite buildQueryRecursive_unfold, continueChildren_unfold.
  destruct (enter_plain (a :: rest) false None initialBuildState
              (no_filter_plain _ Hno)) as (Ht & Hc).
  rewrite Hc. simpl nth_error. cbv iota. now rewrite Ht.
Qed.

(** ** The node store *)

Lemma getNode_some nodeStore i n :
  getNode nodeStore i = Some n -> In n nodeStore /\ nodeId n = i.
Proof.
  pure. unfold getNode. intros H. apply find_some in H as [H1 H2].
  split; [exact H1|]. now apply Nat.eqb_eq.
Qed.

Lemma getNode_none nodeStore i :
  getNode nodeStore i = None <-> ~ In i (storeIds nodeStore).
Proof.
  pure. unfold getNode, storeIds. split.
  - intros H Hin. apply in_map_iff in Hin as (n & Hn & Hin).
    apply (find_none _ _ H) in Hin. rewrite Hn, Nat.eqb_refl in Hin.
    discriminate.
  - intros H. destruct (find _ nodeStore) as [n|] eqn:E; [|reflexivity].
    apply find_some in E as [E1 E2]. apply Nat.eqb_eq in E2.
    exfalso. apply H. rewrite <- E2. now apply in_map.
Qed.

Lemma getNode_in nodeStore i :
  In i (storeIds nodeStore) -> exists n, getNode nodeStore i = Some n.
Proof.
  pure. intros H. destruct (getNode nodeStore i) as [n|] eqn:E.
  - now exists n.
  - apply getNode_none in E. contradiction.
Qed.

Lemma childrenOf_in nodeStore i e :
  In e (childrenOf nodeStore i) -> In e (storeEdges nodeStore).
Proof.
  pure. unfold childrenOf, storeEdges.
  destruct (getNode nodeStore i) as [n|] eqn:E; [|intros []].
  apply getNode_some in E as [E _]. intros H.
  apply in_flat_map. now exists n.
Qed.

Lemma childrenOf_parent nodeStore i e :
  wellFormed nodeStore -> In e (childrenOf nodeStore i) -> parentNode e = i.
Proof.
  pure. intros W. unfold childrenOf.
  destruct (getNode nodeStore i) as [n|] eqn:E; [|intros []].
  apply getNode_some in E as [E1 E2]. intros H.
  destruct (wf_edges _ W _ _ E1 H) as [Hp _]. congruence.
Qed.

Lemma storeEdges_child_in nodeStore e :
  wellFormed nodeStore -> In e (storeEdges nodeStore) ->
  In (childNode e) (storeIds nodeStore).
Proof.
  pure. intros W H. apply in_flat_map in H as (n & Hn & He).
  now destruct (wf_edges _ W _ _ Hn He).
Qed.

Lemma NoDup_map_inj (A B : Type) (f : A -> B) (l : list A) x y :
  NoDup (map f l) -> In x l -> In y l -> f x = f y -> x = y.
Proof.
  pure. induction l as [|a l IH]; simpl; intros Hnd Hx Hy Hf; [destruct Hx|].
  inversion Hnd as [|? ? Hnotin Hnd']; subst.
  destruct Hx as [->|Hx], Hy as [->|Hy]; auto.
  - exfalso. apply Hnotin. rewrite Hf. now apply in_map.
  - exfalso. apply Hnotin. rewrite <- Hf. now apply in_map.
Qed.

(** Appending a fresh node without children. *)
Lemma wellFormed_append nodeStore i q :
  wellFormed nodeStore -> ~ In i (storeIds nodeStore) ->
  wellFormed (nodeStore ++ [mkEvalNode i q []]).
Proof.
  pure. intros W Hfresh. constructor.
  - unfold storeIds. rewrite map_app. simpl.
    apply NoDup_app; [exact (wf_ids _ W)|repeat constructor; intros []|].
    intros x Hx [<-|[]]. contradiction.
  - intros n e Hn He. apply in_app_iff in Hn as [Hn|[<-|[]]]; [|destruct He].
    destruct (wf_edges _ W _ _ Hn He) as [H1 H2]. split; [exact H1|].
    unfold storeIds. rewrite map_app. apply in_app_iff. now left.
  - unfold storeEdges. rewrite flat_map_app. simpl. rewrite app_nil_r.
    exact (wf_children _ W).
  - intros r e Hr He. unfold storeEdges in He.
    rewrite flat_map_app in He. simpl in He. rewrite app_nil_r in He.
    destruct nodeStore as [|n0 rest].
    + destruct He.
    + simpl in Hr. apply (wf_first _ W); [exact Hr|exact He].
Qed.

Lemma pushChild_ids p e nodeStore :
  storeIds (pushChild p e nodeStore) = storeIds nodeStore.
Proof.
  pure. unfold storeIds, pushChild. rewrite map_map. apply map_ext.
  intros n. now destruct (nodeId n =? p).
Qed.

Lemma pushChild_absent p e nodeStore :
  ~ In p (storeIds nodeStore) -> pushChild p e nodeStore = nodeStore.
Proof.
  pure. induction nodeStore as [|n rest IH]; simpl; intros H; [reflexivity|].
  destruct (nodeId n =? p) eqn:E.
  - apply Nat.eqb_eq in E. exfalso. apply H. now left.
  - f_equal. apply IH. intros Hin. apply H. now right.
Qed.

Lemma pushChild_edges p e nodeStore :
  NoDup (storeIds nodeStore) -> In p (storeIds nodeStore) ->
  Permutation (storeEdges (pushChild p e nodeStore))
    (e :: storeEdges nodeStore).
Proof.
  pure. induction nodeStore as [|n rest IH]; simpl; intros Hnd Hin;
    [destruct Hin|].
  inversion Hnd as [|? ? Hnotin Hnd']; subst.
  destruct (nodeId n =? p) eqn:E.
  - apply Nat.eqb_eq in E. subst p. simpl.
    fold (pushChild (nodeId n) e rest).
    rewrite pushChild_absent by exact Hnotin.
    fold (storeEdges rest).
    rewrite <- app_assoc. simpl.
    apply Permutation_sym, Permutation_middle.
  - apply Nat.eqb_neq in E. destruct Hin as [Hin|Hin]; [contradiction|].
    fold (pushChild p e rest). fold (storeEdges (pushChild p e rest)).
    fold (storeEdges rest).
    apply Permutation_trans with (children n ++ e :: storeEdges rest).
    + apply Permutation_app_head, IH; assumption.
    + apply Permutation_sym, Permutation_middle.
Qed.

Lemma pushChild_node p e nodeStore n :
  In n (pushChild p e nodeStore) ->
  exists n0, In n0 nodeStore /\ nodeId n = nodeId n0 /\
             forall x, In x (children n) ->
                       In x (children n0) \/ (x = e /\ nodeId n0 = p).
Proof.
  pure. unfold pushChild. intros H. apply in_map_iff in H as (n0 & Hn & Hin).
  exists n0. split; [exact Hin|].
  destruct (nodeId n0 =? p) eqn:E; subst n; simpl.
  - apply Nat.eqb_eq in E. split; [reflexivity|].
    intros x Hx. apply in_app_iff in Hx as [Hx|[<-|[]]]; auto.
  - split; auto.
Qed.

(** Recording the edge to a node that was just appended. *)
Lemma wellFormed_pushChild nodeStore f p c q :
  wellFormed nodeStore -> In p (storeIds nodeStore) ->
  ~ In c (storeIds nodeStore) ->
  wellFormed
    (pushChild p (mkEvalEdge f p c) (nodeStore ++ [mkEvalNode c q []])).
Proof.
  pure. intros W Hp Hc.
  pose proof (wellFormed_append _ c q W Hc) as W1.
  set (store1 := nodeStore ++ [mkEvalNode c q []]) in *.
  set (e := mkEvalEdge f p c).
  assert (Hp1 : In p (storeIds store1)).
  { subst store1. unfold storeIds. rewrite map_app. apply in_app_iff. now left. }
  assert (Hc1 : In c (storeIds store1)).
  { subst store1. unfold storeIds. rewrite map_app. apply in_app_iff.
    right. now left. }
  pose proof (pushChild_edges p e store1 (wf_ids _ W1) Hp1) as Hperm.
  assert (Hold : forall x, In x (storeEdges store1) -> childNode x <> c).
  { intros x Hx Heq. apply Hc. rewrite <- Heq.
    apply storeEdges_child_in; [exact W|].
    subst store1. unfold storeEdges in *. rewrite flat_map_app in Hx.
    simpl in Hx. now rewrite app_nil_r in Hx. }
  constructor.
  - rewrite pushChild_ids. exact (wf_ids _ W1).
  - intros n x Hn Hx. rewrite pushChild_ids.
    apply pushChild_node in Hn as (n0 & Hn0 & Hid & Hch).
    rewrite Hid. destruct (Hch x Hx) as [Hx0|[-> Hid0]].
    + exact (wf_edges _ W1 _ _ Hn0 Hx0).
    + simpl. split; [now symmetry|exact Hc1].
  - apply (Permutation_NoDup (l := map childNode (e :: storeEdges store1))).
    + apply Permutation_map, Permutation_sym, Hperm.
    + simpl. constructor; [|exact (wf_children _ W1)].
      intros Hin. apply in_map_iff in Hin as (x & Hx1 & Hx2).
      now apply (Hold x).
  - intros r x Hr Hx. rewrite pushChild_ids in Hr.
    apply (Permutation_in _ Hperm) in Hx. destruct Hx as [<-|Hx].
    + simpl. intros ->. apply Hc.
      destruct nodeStore as [|n0 rest]; [destruct Hp|].
      simpl in Hr. inversion Hr. now left.
    + exact (wf_first _ W1 _ _ Hr Hx).
Qed.

Lemma wellFormed_addTuple queryById h nodeStore ft :
  wellFormed nodeStore -> wellFormed (addTuple queryById h nodeStore ft).
Proof.
  intros W. unfold addTuple. destruct ft as [f tuple].
  set (p := wq_id (deref h (parent tuple))).
  set (c := wq_id (deref h (child tuple))).
  assert (H1 : exists store1,
             (match getNode nodeStore p with
              | Some _ => nodeStore
              | None => nodeStore ++ [mkEvalNode p (queryById p) []]
              end) = store1 /\ wellFormed store1 /\ In p (storeIds store1)).
  { destruct (getNode nodeStore p) as [n|] eqn:E.
    - exists nodeStore. split; [reflexivity|]. split; [exact W|].
      apply getNode_some in E as [E1 E2]. rewrite <- E2.
      now apply in_map.
    - eexists. split; [reflexivity|]. apply getNode_none in E. split.
      + now apply wellFormed_append.
      + unfold storeIds. rewrite map_app. apply in_app_iff. right. now left. }
  destruct H1 as (store1 & -> & W1 & Hp).
  destruct (getNode store1 c) as [n|] eqn:E; [exact W1|].
  apply getNode_none in E. now apply wellFormed_pushChild.
Qed.

Lemma wellFormed_nil : wellFormed [].
Proof.
  pure. constructor; simpl; try constructor; try contradiction.
Qed.

Lemma wellFormed_tuples queryById h tuples :
  forall nodeStore,
    wellFormed nodeStore ->
    wellFormed (fold_left (addTuple queryById h) tuples nodeStore).
Proof.
  induction tuples as [|ft rest IH]; intros nodeStore W; simpl; [exact W|].
  apply IH. now apply wellFormed_addTuple.
Qed.

(** ** Flattening *)

Lemma bottomUp_app nodeStore l cs :
  bottomUp nodeStore l ->
  (forall e e1, In e cs -> In e1 (storeEdges nodeStore) ->
                childNode e1 = parentNode e -> In e1 l) ->
  bottomUp nodeStore (cs ++ l).
Proof.
  pure. intros Hl. induction cs as [|c cs IH]; intros H; simpl; [exact Hl|].
  constructor.
  - apply IH. intros e e1 He. apply H. now right.
  - intros e1 H1 H2. apply in_app_iff. right. apply (H c e1); auto. now left.
Qed.

Lemma bottomUp_after nodeStore E :
  bottomUp nodeStore E ->
  forall l1 e2 l2, E = l1 ++ e2 :: l2 ->
  forall e1, In e1 (storeEdges nodeStore) ->
             childNode e1 = parentNode e2 -> In e1 l2.
Proof.
  pure. induction 1 as [|e l Hl IH He]; intros l1 e2 l2 Hsplit e1 H1 H2.
  - destruct l1; discriminate.
  - destruct l1 as [|x l1]; simpl in Hsplit; inversion Hsplit; subst.
    + now apply He.
    + now apply (IH l1 e2 l2).
Qed.

Lemma flattenInv_init nodeStore root :
  wellFormed nodeStore ->
  hd_error (storeIds nodeStore) = Some root ->
  flattenInv nodeStore [root] [] [].
Proof.
  pure. intros W Hroot.
  assert (Hin : In root (storeIds nodeStore)).
  { destruct (storeIds nodeStore); inversion Hroot. now left. }
  constructor.
  - repeat constructor. intros [].
  - constructor.
  - intros x [].
  - intros x [<-|[]]. exact Hin.
  - intros n _ [].
  - intros e He _. split; [intros []|]. intros [H|[]].
    apply (wf_first _ W _ _ Hroot He). now symmetry.
  - intros n e [<-|[]] He Hc. exfalso. exact (wf_first _ W _ _ Hroot He Hc).
  - constructor.
  - intros e [].
  - constructor.
Qed.

Lemma children_nodup nodeStore n :
  NoDup (map childNode (storeEdges nodeStore)) -> In n nodeStore ->
  NoDup (map childNode (children n)).
Proof.
  pure. induction nodeStore as [|m rest IH]; intros Hnd Hin; [destruct Hin|].
  unfold storeEdges in Hnd. simpl in Hnd. rewrite map_app in Hnd.
  destruct Hin as [->|Hin].
  - now apply NoDup_app_remove_r in Hnd.
  - apply IH; [|exact Hin]. now apply NoDup_app_remove_l in Hnd.
Qed.

Lemma childrenOf_nodup nodeStore i :
  wellFormed nodeStore -> NoDup (map childNode (childrenOf nodeStore i)).
Proof.
  pure. intros W. unfold childrenOf.
  destruct (getNode nodeStore i) as [n|] eqn:E; [|constructor].
  apply getNode_some in E as [E _].
  exact (children_nodup _ _ (wf_children _ W) E).
Qed.

Lemma flattenInv_step nodeStore n rest seen acc :
  wellFormed nodeStore ->
  flattenInv nodeStore (n :: rest) seen acc ->
  flattenInv nodeStore
    (rev (map childNode (childrenOf nodeStore n)) ++ rest) (n :: seen)
    (acc ++ childrenOf nodeStore n).
Proof.
  pure. intros W I.
  set (cs := childrenOf nodeStore n).
  assert (Hn_stack : In n (n :: rest)) by now left.
  assert (Hn_unseen : ~ In n seen) by exact (inv_stack_unseen _ _ _ _ I _ Hn_stack).
  assert (Hcs_edge : forall e, In e cs -> In e (storeEdges nodeStore)).
  { intros e He. exact (childrenOf_in _ _ _ He). }
  assert (Hcs_parent : forall e, In e cs -> parentNode e = n).
  { intros e He. exact (childrenOf_parent _ _ _ W He). }
  assert (Hcs_fresh : forall e, In e cs ->
            ~ In (childNode e) seen /\ ~ In (childNode e) (n :: rest)).
  { intros e He. apply (inv_unseen _ _ _ _ I); [now apply Hcs_edge|].
    now rewrite (Hcs_parent _ He). }
  assert (Hinj : forall e e', In e (storeEdges nodeStore) -> In e' cs ->
                              childNode e = childNode e' -> parentNode e = n).
  { intros e e' He He' Heq.
    rewrite (NoDup_map_inj _ _ childNode _ e e' (wf_children _ W) He
               (Hcs_edge _ He') Heq).
    now apply Hcs_parent. }
  pose proof (inv_stack_nodup _ _ _ _ I) as Hstack_nd.
  inversion Hstack_nd as [|? ? Hn_rest Hrest_nd]; subst.
  constructor.
  - apply NoDup_app.
    + apply NoDup_rev. apply childrenOf_nodup, W.
    + exact Hrest_nd.
    + intros x Hx Hx'. apply in_rev, in_map_iff in Hx as (e & <- & He).
      destruct (Hcs_fresh _ He) as [_ H]. apply H. now right.
  - constructor; [exact Hn_unseen|exact (inv_seen_nodup _ _ _ _ I)].
  - intros x [<-|Hx].
    + exact (inv_stack_ids _ _ _ _ I _ Hn_stack).
    + exact (inv_seen_ids _ _ _ _ I _ Hx).
  - intros x Hx. apply in_app_iff in Hx as [Hx|Hx].
    + apply in_rev, in_map_iff in Hx as (e & <- & He).
      apply storeEdges_child_in; [exact W|now apply Hcs_edge].
    + apply (inv_stack_ids _ _ _ _ I). now right.
  - intros x Hx [<-|Hseen].
    + apply in_app_iff in Hx as [Hx|Hx]; [|contradiction].
      apply in_rev, in_map_iff in Hx as (e & Heq & He).
      destruct (Hcs_fresh _ He) as [_ H]. apply H. rewrite Heq. now left.
    + apply in_app_iff in Hx as [Hx|Hx].
      * apply in_rev, in_map_iff in Hx as (e & <- & He).
        now destruct (Hcs_fresh _ He) as [H _].
      * apply (inv_stack_unseen _ _ _ _ I x); [now right|exact Hseen].
  - intros e He Hp.
    assert (Hp1 : parentNode e <> n) by (intros E; apply Hp; now left).
    assert (Hp2 : ~ In (parentNode e) seen) by (intros E; apply Hp; now right).
    destruct (inv_unseen _ _ _ _ I e He Hp2) as [H1 H2]. split.
    + intros [E|E]; [|contradiction]. apply H2. rewrite <- E. now left.
    + intros Hx. apply in_app_iff in Hx as [Hx|Hx].
      * apply in_rev, in_map_iff in Hx as (e' & Heq & He').
        apply Hp1. apply (Hinj e e' He He'). now symmetry.
      * apply H2. now right.
  - intros x e Hx He Hc. apply in_app_iff. apply in_app_iff in Hx as [Hx|Hx].
    + apply in_rev, in_map_iff in Hx as (e' & Heq & He').
      right.
      rewrite (NoDup_map_inj _ _ childNode _ e e' (wf_children _ W) He
                 (Hcs_edge _ He')); [exact He'|congruence].
    + left. apply (inv_recorded _ _ _ _ I x); auto. now right.
  - rewrite rev_app_distr. apply bottomUp_app; [exact (inv_order _ _ _ _ I)|].
    intros e e1 He He1 Hc. apply in_rev in He. apply -> in_rev.
    apply (inv_recorded _ _ _ _ I n); auto.
    now rewrite Hc, (Hcs_parent _ He).
  - intros e He. apply in_app_iff in He as [He|He].
    + destruct (inv_acc_edges _ _ _ _ I e He) as [H1 H2].
      split; [exact H1|now right].
    + split; [now apply Hcs_edge|]. left. symmetry. now apply Hcs_parent.
  - rewrite map_app. apply NoDup_app.
    + exact (inv_acc_nodup _ _ _ _ I).
    + apply childrenOf_nodup, W.
    + intros x Hx Hx'. apply in_map_iff in Hx as (e & <- & He).
      apply in_map_iff in Hx' as (e' & Heq & He').
      destruct (inv_acc_edges _ _ _ _ I e He) as [H1 H2].
      apply Hn_unseen. rewrite <- (Hinj e e' H1 He'); [exact H2|congruence].
Qed.

(** The traversal ends within the fuel [createTreeQuery] gives it, and
    what it returns satisfies the invariant. *)
Lemma flattenLoop_spec nodeStore :
  wellFormed nodeStore ->
  forall fuel nodeStack seen acc,
    flattenInv nodeStore nodeStack seen acc ->
    length (storeIds nodeStore) < fuel + length seen ->
    exists result seen',
      flattenLoop fuel nodeStore nodeStack acc = Some result /\
      flattenInv nodeStore [] seen' result.
Proof.
  pure. intros W. induction fuel as [|fuel IH]; intros nodeStack seen acc I Hfuel.
  - exfalso.
    pose proof (NoDup_incl_length (inv_seen_nodup _ _ _ _ I)
                  (inv_seen_ids _ _ _ _ I)).
    simpl in Hfuel. lia.
  - destruct nodeStack as [|n rest]; simpl.
    + now exists acc, seen.
    + apply (IH _ (n :: seen)).
      * now apply flattenInv_step.
      * simpl. lia.
Qed.

(** ** The compiled plan *)

Lemma addTuple_hd queryById h nodeStore ft r :
  hd_error (storeIds nodeStore) = Some r ->
  hd_error (storeIds (addTuple queryById h nodeStore ft)) = Some r.
Proof.
  intros H. unfold addTuple. destruct ft as [f tuple].
  destruct nodeStore as [|n0 rest]; [discriminate|].
  destruct (getNode (n0 :: rest) _); destruct (getNode _ _);
    rewrite ?pushChild_ids; unfold storeIds in *;
    rewrite ?map_app; simpl in *; exact H.
Qed.

Lemma addTuple_first queryById h f tuple :
  hd_error (storeIds (addTuple queryById h [] (f, tuple))) =
  Some (wq_id (deref h (parent tuple))).
Proof.
  unfold addTuple. simpl.
  destruct (_ =? _); [reflexivity|]. simpl.
  now rewrite Nat.eqb_refl.
Qed.

Lemma tuples_hd queryById h tuples :
  forall nodeStore r,
    hd_error (storeIds nodeStore) = Some r ->
    hd_error (storeIds (fold_left (addTuple queryById h) tuples nodeStore))
    = Some r.
Proof.
  induction tuples as [|ft rest IH]; intros nodeStore r H; simpl; [exact H|].
  apply IH. now apply addTuple_hd.
Qed.

(** What a returned plan is made of. *)
Lemma createTreeQuery_returns queryTree plan :
  createTreeQuery queryTree = Returns plan ->
  wellFormed (nodes plan) /\
  hd_error (storeIds (nodes plan)) = Some (rootNode plan) /\
  exists recorded,
    flattenLoop (S (length (nodes plan))) (nodes plan) [rootNode plan] []
    = Some recorded /\
    edgesFlattened plan = rev recorded.
Proof.
  unfold createTreeQuery.
  destruct (length queryTree =? 0); [discriminate|].
  destruct (buildQueryRecursive _ _ _ _ _) as [st|]; [|discriminate].
  destruct (filterWithTuple st) as [|[f0 tuple0] tuples] eqn:Et; [discriminate|].
  set (queryById := registerQueries (heap st) (finalQueries st)).
  set (nodeStore := fold_left (addTuple queryById (heap st))
                      ((f0, tuple0) :: tuples) []).
  destruct (getNode nodeStore _); [|discriminate].
  destruct (flattenLoop _ _ _ _) as [edges|] eqn:Ef; [|discriminate].
  intros H. inversion H; subst plan; clear H. simpl.
  split; [|split].
  - apply wellFormed_tuples, wellFormed_nil.
  - subst nodeStore. simpl. apply tuples_hd, addTuple_first.
  - exists edges. split; [exact Ef|reflexivity].
Qed.

Lemma above_in E e1 e2 : above E e1 e2 -> In e1 E /\ In e2 E.
Proof. pure. induction 1; [auto|]. tauto. Qed.

Lemma above_after nodeStore E :
  bottomUp nodeStore E ->
  (forall e, In e E -> In e (storeEdges nodeStore)) ->
  forall e1 e2, above E e1 e2 ->
  forall l1 l2, E = l1 ++ e2 :: l2 -> In e1 l2.
Proof.
  pure. intros HE Hsub e1 e2 Habove.
  induction Habove as [e1 e2 H1 H2 Hc|e1 e2 e3 _ IH1 _ IH2]; intros l1 l2 Hsplit.
  - apply (bottomUp_after _ _ HE l1 e2 l2 Hsplit); auto.
  - pose proof (IH2 l1 l2 Hsplit) as Hin.
    apply in_split in Hin as (a & b & ->).
    apply in_app_iff. right. right.
    apply (IH1 (l1 ++ e3 :: a) b). rewrite Hsplit, <- app_assoc. reflexivity.
Qed.

(** The edge list of a compiled plan is the reversal of the list recorded
    by the stack traversal from the root node, it holds no edge twice, and
    among its own edges it is bottom-up. *)
Lemma edgesFlattened_ordered queryTree plan :
  createTreeQuery queryTree = Returns plan ->
  (exists recorded,
     flattenLoop (S (length (nodes plan))) (nodes plan) [rootNode plan] []
     = Some recorded /\
     edgesFlattened plan = rev recorded) /\
  NoDup (edgesFlattened plan) /\
  forall e1 e2,
    above (edgesFlattened plan) e1 e2 ->
    exists l1 l2 l3, edgesFlattened plan = l1 ++ e2 :: l2 ++ e1 :: l3.
Proof.
  intros H. apply createTreeQuery_returns in H as (W & Hroot & recorded & Hf & HE).
  pose proof (flattenInv_init _ _ W Hroot) as I0.
  destruct (flattenLoop_spec _ W (S (length (nodes plan))) _ _ _ I0)
    as (result & seen & Hf' & I).
  { unfold storeIds. rewrite length_map. simpl. lia. }
  rewrite Hf in Hf'. inversion Hf'; subst result; clear Hf'.
  split; [|split].
  - now exists recorded.
  - rewrite HE. apply NoDup_rev.
    exact (NoDup_map_inv _ _ (inv_acc_nodup _ _ _ _ I)).
  - intros e1 e2 Habove.
    destruct (above_in _ _ _ Habove) as [_ H2].
    apply in_split in H2 as (l1 & l2 & Hsplit).
    assert (Hin : In e1 l2).
    { apply (above_after (nodes plan) (edgesFlattened plan)) with (e2 := e2) (l1 := l1);
        auto.
      - rewrite HE. exact (inv_order _ _ _ _ I).
      - intros e He. rewrite HE in He. apply in_rev in He.
        now destruct (inv_acc_edges _ _ _ _ I e He). }
    apply in_split in Hin as (a & b & ->).
    now exists l1, a, b.
Qed.

(** ** Termination of the compiler *)

Lemma queryDepth_children (cs : list QueryFilterNode) :
  queryDepth (map AFilter cs) =
  fold_right (fun c d => Nat.max (nodeDepth c) d) 0 cs.
Proof.
  pure. induction cs as [|c cs IH]; [reflexivity|].
  unfold queryDepth in *. cbn [fold_right map argDepth]. now rewrite IH.
Qed.

Lemma nodeDepth_children n :
  nodeDepth n = S (queryDepth (map AFilter (childQueries n))).
Proof. pure. destruct n. simpl. now rewrite queryDepth_children. Qed.

Lemma forEachNode_children_depth query :
  forall r nextNodeFind st cs q,
    In (cs, q) (childQueryObjects (snd (forEachNode query r nextNodeFind st))) ->
    In (cs, q) (childQueryObjects st) \/
    queryDepth (map AFilter cs) < queryDepth query.
Proof.
  induction query as [|a rest IH]; intros r nnf st cs q; simpl; [auto|].
  destruct a as [t|n|elems]; simpl; intros H.
  - apply IH in H as [H|H]; [now left|right]. unfold queryDepth in *. lia.
  - apply IH in H as [H|H].
    + destruct (0 <? length (childQueries n)); simpl in H; [|now left].
      apply in_app_iff in H as [H|[H|[]]]; [now left|].
      inversion H; subst. right.
      change (queryDepth (AFilter n :: rest))
        with (Nat.max (nodeDepth n) (queryDepth rest)).
      rewrite nodeDepth_children. lia.
    + right.
      change (queryDepth (AFilter n :: rest))
        with (Nat.max (nodeDepth n) (queryDepth rest)).
      lia.
  - apply IH in H as [H|H]; [now left|right]. unfold queryDepth in *. lia.
Qed.

Lemma enter_children_depth query found po st cs q :
  In (cs, q) (childQueryObjects (snd (enter query found po st))) ->
  queryDepth (map AFilter cs) < queryDepth query.
Proof.
  unfold enter. destruct po as [r|]; simpl.
  - destruct (forEachNode query r false _) as [b st1] eqn:E. simpl.
    rewrite registerParent_children. intros H.
    replace st1 with (snd (forEachNode query r false
                             (setChildQueryObjects [] st))) in H
      by now rewrite E.
    apply forEachNode_children_depth in H as [[]|H]. exact H.
  - match goal with |- context [forEachNode query ?r false ?s] =>
      destruct (forEachNode query r false s) as [b st1] eqn:E;
      simpl; rewrite registerParent_children; intros H;
      replace st1 with (snd (forEachNode query r false s)) in H
        by now rewrite E
    end.
    apply forEachNode_children_depth in H as [[]|H]. exact H.
Qed.

(** With fuel for twice the nesting depth the builder returns, and it
    leaves the shared array empty: the caller's [for ... of] therefore
    stops after the first entry it took. *)
Lemma buildQueryRecursive_total :
  forall d query, queryDepth query <= d ->
  forall fuel, 2 * d + 2 <= fuel ->
  forall found po st,
    exists st', buildQueryRecursive fuel query found po st = Some st' /\
                childQueryObjects st' = [].
Proof.
  induction d as [|d IH]; intros query Hd fuel Hfuel found po st.
  - destruct fuel as [|[|fuel]]; try lia.
    rewrite buildQueryRecursive_unfold, continueChildren_unfold.
    destruct (childQueryObjects (snd (enter query found po st)))
      as [|[cs q] l] eqn:E.
    + simpl. eauto.
    + exfalso.
      assert (H : In (cs, q) (childQueryObjects (snd (enter query found po st))))
        by (rewrite E; now left).
      apply enter_children_depth in H. lia.
  - destruct fuel as [|[|fuel]]; try lia.
    rewrite buildQueryRecursive_unfold, continueChildren_unfold.
    destruct (childQueryObjects (snd (enter query found po st)))
      as [|[cs q] l] eqn:E.
    + simpl. eauto.
    + assert (H : In (cs, q) (childQueryObjects (snd (enter query found po st))))
        by (rewrite E; now left).
      apply enter_children_depth in H. simpl nth_error. cbv iota.
      destruct (IH (map AFilter cs) ltac:(lia) fuel ltac:(lia)
                  (fst (enter query found po st)) (Some q)
                  (snd (enter query found po st))) as (st' & Hb & Hc).
      rewrite Hb. destruct fuel as [|fuel]; [lia|].
      rewrite continueChildren_unfold, Hc. simpl. eauto.
Qed.

(** The model never runs out of fuel: [createTreeQuery] throws or
    returns a plan. *)
Theorem createTreeQuery_total queryTree :
  createTreeQuery queryTree <> OutOfFuel.
Proof.
  unfold createTreeQuery.
  destruct (length queryTree =? 0); [discriminate|].
  destruct (buildQueryRecursive_total (queryDepth queryTree) queryTree
              (le_n _) (buildFuel queryTree) (le_n _) false None
              initialBuildState) as (st & -> & _).
  destruct (filterWithTuple st) as [|[f0 tuple0] tuples] eqn:Et; [discriminate|].
  set (queryById := registerQueries (heap st) (finalQueries st)).
  set (rootId := wq_id (deref (heap st) (parent tuple0))).
  set (nodeStore := fold_left (addTuple queryById (heap st))
                      ((f0, tuple0) :: tuples) []).
  assert (W : wellFormed nodeStore)
    by apply wellFormed_tuples, wellFormed_nil.
  assert (Hroot : hd_error (storeIds nodeStore) = Some rootId)
    by (subst nodeStore; simpl; apply tuples_hd, addTuple_first).
  destruct (getNode nodeStore rootId); [|discriminate].
  destruct (flattenLoop_spec _ W (S (length nodeStore)) _ _ _
              (flattenInv_init _ _ W Hroot)) as (result & seen & -> & _).
  { unfold storeIds. rewrite length_map. simpl. lia. }
  discriminate.
Qed.

(** ** Chains *)

Lemma sortTraits_spec traits :
  (forall elems, ~ In (AArray elems) traits) ->
  forall _components childQueries,
    sortTraits traits _components childQueries =
    inr (_components ++ traitsIn traits, childQueries ++ filtersIn traits).
Proof.
  pure. induction traits as [|a rest IH]; intros Hno c q; simpl.
  - now rewrite !app_nil_r.
  - assert (Hrest : forall elems, ~ In (AArray elems) rest).
    { intros elems H. apply (Hno elems). now right. }
    destruct a as [t|n|elems]; simpl.
    + rewrite (IH Hrest), <- app_assoc. reflexivity.
    + rewrite (IH Hrest), <- app_assoc. reflexivity.
    + exfalso. apply (Hno elems). now left.
Qed.

Lemma traitsIn_traits (ts : list Trait) : traitsIn (map ATrait ts) = ts.
Proof. pure. induction ts; simpl; congruence. Qed.

Lemma filtersIn_traits (ts : list Trait) : filtersIn (map ATrait ts) = [].
Proof. pure. induction ts; simpl; congruence. Qed.

Lemma no_array_traits (ts : list Trait) elems :
  ~ In (AArray elems) (map ATrait ts).
Proof.
  pure. intros H. apply in_map_iff in H as (t & Ht & _). discriminate.
Qed.

(** A filter constructor called with traits and one filter node. *)
Lemma createTreeQueryFilter_one condition ts1 n ts2 :
  createTreeQueryFilter condition (map ATrait ts1 ++ AFilter n :: map ATrait ts2)
  = inr (FilterNode (ts1 ++ ts2) (queryFilter condition) [n]).
Proof.
  pure. unfold createTreeQueryFilter. rewrite sortTraits_spec.
  - unfold traitsIn, filtersIn. rewrite !flat_map_app. simpl.
    fold (traitsIn (map ATrait ts1)). fold (traitsIn (map ATrait ts2)).
    fold (filtersIn (map ATrait ts1)). fold (filtersIn (map ATrait ts2)).
    now rewrite !traitsIn_traits, !filtersIn_traits.
  - intros elems H. apply in_app_iff in H as [H|[H|H]];
      try discriminate; now apply no_array_traits in H.
Qed.

Lemma createTreeQueryFilter_leaf condition ts :
  createTreeQueryFilter condition (map ATrait ts)
  = inr (FilterNode ts (queryFilter condition) []).
Proof.
  pure. unfold createTreeQueryFilter. rewrite sortTraits_spec.
  - now rewrite traitsIn_traits, filtersIn_traits.
  - intros elems. apply no_array_traits.
Qed.

Lemma forEachNode_app l1 l2 :
  forall r nextNodeFind st,
    forEachNode (l1 ++ l2) r nextNodeFind st =
    forEachNode l2 r (fst (forEachNode l1 r nextNodeFind st))
      (snd (forEachNode l1 r nextNodeFind st)).
Proof.
  induction l1 as [|a l1 IH]; intros r nnf st; simpl; [reflexivity|].
  destruct a; apply IH.
Qed.

(** Plain requirements accumulate on the root object. *)
Lemma forEachNode_root_traits ts :
  forall nextNodeFind d i c h tuples final cqo,
    forEachNode (map ATrait ts) 0 nextNodeFind
      (mkBuildState d (mkWipQuery i c :: h) tuples final cqo) =
    (nextNodeFind,
     mkBuildState d (mkWipQuery i (c ++ map ATrait ts) :: h) tuples final cqo).
Proof.
  induction ts as [|t ts IH]; intros nnf d i c h tuples final cqo; simpl.
  - now rewrite app_nil_r.
  - unfold setHeap. simpl. rewrite IH, <- app_assoc. reflexivity.
Qed.

Lemma queryDepth_app l1 l2 :
  queryDepth (l1 ++ l2) = Nat.max (queryDepth l1) (queryDepth l2).
Proof.
  pure. unfold queryDepth. induction l1 as [|a l1 IH]; simpl; [reflexivity|].
  rewrite IH. lia.
Qed.

Lemma queryDepth_traits (ts : list Trait) : queryDepth (map ATrait ts) = 0.
Proof. pure. unfold queryDepth. induction ts; simpl; auto. Qed.

Lemma chain_build (R1 R2 M L : list Trait) (f1 f2 : QueryFilter) :
  (forall i j, rnd i = rnd j -> i = j) ->
  exists a b c d final,
    a <> b /\ b <> c /\ a <> c /\
    buildQueryRecursive 6
      (map ATrait R1 ++ AFilter (FilterNode M f1 [FilterNode L f2 []])
         :: map ATrait R2) false None initialBuildState =
    Some (mkBuildState d
            [mkWipQuery a (map ATrait (R1 ++ R2));
             mkWipQuery b (map ATrait M);
             mkWipQuery c (map ATrait L)]
            [(f1, mkQueryTuple 0 1); (f2, mkQueryTuple 1 2)]
            final []) /\
    (final = [1; 0; 2] \/ final = [1; 0; 2; 1]).
Proof.
  intros Hinj.
  assert (Hne : forall i j, i <> j -> rnd i <> rnd j).
  { intros i j Hij E. apply Hij, Hinj, E. }
  rewrite buildQueryRecursive_unfold.
  unfold enter. cbn [genId alloc initialBuildState setChildQueryObjects draws heap filterWithTuple finalQueries childQueryObjects length app].
  rewrite forEachNode_app, forEachNode_root_traits.
  cbn [fst snd forEachNode].
  cbv beta iota zeta delta [genId alloc pushFinalQueries pushFilterWithTuple setChildQueryObjects draws heap filterWithTuple finalQueries childQueryObjects components childQueries nodeFilter].
  cbn [length app Nat.ltb Nat.leb orb].
  rewrite forEachNode_root_traits.
  cbn [fst snd]. rewrite map_app.
  assert (Hlen : (0 <? length (map ATrait R1 ++ AFilter (FilterNode M f1 [FilterNode L f2 []]) :: map ATrait R2)) = true).
  { apply Nat.ltb_lt. rewrite length_app. simpl. lia. }
  unfold registerParent. cbn [heap deref nth wq_components]. rewrite Hlen.
  clear Hlen. generalize (map ATrait R1 ++ map ATrait R2). intros Rc.
  destruct Rc as [|x Rc]; destruct M as [|m M]; simpl;
    do 5 eexists; (split; [|split; [|split; [|split; [reflexivity|]]]]);
    simpl; try (apply Hne; lia); auto.
Qed.

Lemma chain_plan (R1 R2 M L : list Trait) (f1 f2 : QueryFilter) :
  (forall i j, rnd i = rnd j -> i = j) ->
  exists a b c,
    a <> b /\ b <> c /\ a <> c /\
    createTreeQuery
      (map ATrait R1 ++ AFilter (FilterNode M f1 [FilterNode L f2 []])
         :: map ATrait R2) =
    Returns
      (mkPlan [mkEvalEdge f2 b c; mkEvalEdge f1 a b] a
         [mkEvalNode a (Some (cacheQuery (map ATrait (R1 ++ R2))))
            [mkEvalEdge f1 a b];
          mkEvalNode b (Some (cacheQuery (map ATrait M))) [mkEvalEdge f2 b c];
          mkEvalNode c (Some (cacheQuery (map ATrait L))) []]).
Proof.
  intros Hinj.
  destruct (chain_build R1 R2 M L f1 f2 Hinj)
    as (a & b & c & d & final & Hab & Hbc & Hac & Hbuild & Hfinal).
  exists a, b, c. repeat (split; [assumption|]).
  unfold createTreeQuery.
  set (spec := map ATrait R1 ++ _ :: _) in *.
  assert (Hlen : (length spec =? 0) = false).
  { apply Nat.eqb_neq. subst spec. rewrite length_app. simpl. lia. }
  assert (Hfuel : buildFuel spec = 6).
  { unfold buildFuel. subst spec. rewrite queryDepth_app, queryDepth_traits.
    change (queryDepth (AFilter (FilterNode M f1 [FilterNode L f2 []])
                          :: map ATrait R2))
      with (Nat.max (nodeDepth (FilterNode M f1 [FilterNode L f2 []]))
              (queryDepth (map ATrait R2))).
    rewrite queryDepth_traits. reflexivity. }
  rewrite Hlen, Hfuel, Hbuild.
  cbn [filterWithTuple heap finalQueries].
  assert (E1 : (a =? b) = false) by now apply Nat.eqb_neq.
  assert (E2 : (b =? a) = false) by (apply Nat.eqb_neq; congruence).
  assert (E3 : (b =? c) = false) by now apply Nat.eqb_neq.
  assert (E4 : (c =? b) = false) by (apply Nat.eqb_neq; congruence).
  assert (E5 : (a =? c) = false) by now apply Nat.eqb_neq.
  assert (E6 : (c =? a) = false) by (apply Nat.eqb_neq; congruence).
  destruct Hfinal as [-> | ->];
    repeat (progress (cbn -[Nat.eqb]; unfold setAt, childrenOf, getNode;
                      rewrite ?E1, ?E2, ?E3, ?E4, ?E5, ?E6, ?Nat.eqb_refl));
    reflexivity.
Qed.

Lemma matchesOf_nil condition world skip children p :
  matchesOf condition world skip children p = [] ->
  existsb (fun c => condition p c world) children = false.
Proof.
  pure. unfold matchesOf. destruct skip.
  - destruct (find _ children) as [c|] eqn:E; [discriminate|]. intros _.
    destruct (existsb _ children) eqn:Ex; [|reflexivity].
    apply existsb_exists in Ex as (c & Hc & Hm).
    apply (find_none _ _ E) in Hc. congruence.
  - induction children as [|c rest IH]; simpl; [reflexivity|].
    destruct (condition p c world); [discriminate|]. exact IH.
Qed.

Lemma queryFilter_children_nil condition parents children world skip :
  snd (queryFilter condition parents children world skip) = [] ->
  fst (queryFilter condition parents children world skip) = [].
Proof.
  pure. rewrite queryFilter_children, queryFilter_parents.
  induction parents as [|p rest IH]; simpl; [reflexivity|].
  intros H. apply app_eq_nil in H as [H1 H2].
  rewrite (matchesOf_nil _ _ _ _ _ H1). now apply IH.
Qed.

Lemma chain_execute (P1 P2 : Condition) a b c hR hM hL world st :
  a <> b -> b <> c -> a <> c ->
  let e1 := mkEvalEdge (queryFilter P1) a b in
  let e2 := mkEvalEdge (queryFilter P2) b c in
  let plan := mkPlan [e2; e1] a
                [mkEvalNode a hR [e1]; mkEvalNode b hM [e2];
                 mkEvalNode c hL []] in
  fst (executor plan world st) =
  List.filter
    (fun r => existsb (fun m => P1 r m world)
                (List.filter
                   (fun m => existsb (fun l => P2 m l world)
                               (worldQuery world hL))
                   (worldQuery world hM)))
    (worldQuery world hR).
Proof.
  intros Hab Hbc Hac e1 e2 plan.
  assert (E1 : (a =? b) = false) by now apply Nat.eqb_neq.
  assert (E2 : (b =? a) = false) by (apply Nat.eqb_neq; congruence).
  assert (E3 : (b =? c) = false) by now apply Nat.eqb_neq.
  assert (E4 : (c =? b) = false) by (apply Nat.eqb_neq; congruence).
  assert (E5 : (a =? c) = false) by now apply Nat.eqb_neq.
  assert (E6 : (c =? a) = false) by (apply Nat.eqb_neq; congruence).
  unfold executor.
  set (st0 := mkEvalState (updateList st) (fun _ => false) []).
  set (Rc := worldQuery world hR). set (Mc := worldQuery world hM).
  set (Lc := worldQuery world hL).
  assert (Hb : nodeQuery plan b = hM).
  { unfold nodeQuery, getNode. simpl. now rewrite E1, Nat.eqb_refl. }
  assert (Hc : nodeQuery plan c = hL).
  { unfold nodeQuery, getNode. simpl. now rewrite E5, E3, Nat.eqb_refl. }
  assert (Ha : nodeQuery plan a = hR).
  { unfold nodeQuery, getNode. simpl. now rewrite Nat.eqb_refl. }
  assert (Hlc : hasNoChildren plan c = true).
  { unfold hasNoChildren, childrenOf, getNode. simpl.
    now rewrite E5, E3, Nat.eqb_refl. }
  assert (Hlb : hasNoChildren plan b = false).
  { unfold hasNoChildren, childrenOf, getNode. simpl.
    now rewrite E1, Nat.eqb_refl. }
  cbn [edgesFlattened plan runEdges].
  unfold evalEdge at 1. unfold narrow.
  rewrite ensured_parent, ensured_child.
  cbn [filter parentNode childNode e2].
  unfold candidateList at 1 2. cbn [queriesComputed st0].
  rewrite Hb, Hc, Hlc. fold Mc Lc.
  pose proof (queryFilter_parents P2 Mc Lc world true) as Hps.
  pose proof (queryFilter_children_nil P2 Mc Lc world true) as Hcs.
  destruct (queryFilter P2 Mc Lc world true) as [ps cs].
  simpl in Hps, Hcs. rewrite <- Hps.
  set (st2 := ensureComputed plan world c (ensureComputed plan world b st0)).
  assert (Hnil : emptyResultsArr st2 = []).
  { subst st2. now rewrite !ensureComputed_empty. }
  assert (Hca : queriesComputed st2 a = false).
  { subst st2. rewrite !ensureComputed_computed. now rewrite E5, E1. }
  assert (Hcb : queriesComputed st2 b = true).
  { subst st2. rewrite !ensureComputed_computed.
    now rewrite Nat.eqb_refl, orb_true_r. }
  destruct ((length ps =? 0) || (length cs =? 0)) eqn:Eempty.
  - simpl. rewrite Hnil.
    assert (ps = []) as ->.
    { apply orb_true_iff in Eempty as [H|H]; apply length_zero_nil in H;
        auto. }
    simpl. induction Rc; simpl; auto.
  - unfold evalEdge. unfold narrow.
    rewrite ensured_parent, ensured_child.
    cbn [filter parentNode childNode e1].
    unfold candidateList. cbn [queriesComputed updateList].
    rewrite Hca, Hcb, Ha, Hlb. fold Rc.
    rewrite setAt_other, setAt_same by congruence.
    pose proof (queryFilter_parents P1 Rc ps world false) as Hps1.
    pose proof (queryFilter_children_nil P1 Rc ps world false) as Hcs1.
    destruct (queryFilter P1 Rc ps world false) as [ps1 cs1].
    simpl in Hps1, Hcs1. rewrite <- Hps1.
    destruct ((length ps1 =? 0) || (length cs1 =? 0)) eqn:Eempty1.
    + simpl. rewrite !ensureComputed_empty. simpl. rewrite Hnil.
      apply orb_true_iff in Eempty1 as [H|H]; apply length_zero_nil in H;
        symmetry; auto.
    + simpl. now rewrite setAt_other, setAt_same by congruence.
Qed.

(** X22. A three-level chain: root requirements [R1 ++ R2] around one filter
    node built from condition [P1], whose arguments are the requirements
    [M1 ++ M2] around one filter node built from [P2] over the requirements
    [L].  When the [Math.random] draws of the compilation are pairwise
    distinct, the specification compiles, and calling the compiled query on
    any world, from any state of the closure, returns [r] exactly when the
    store reports [r] for the root requirements and there are [m], reported
    for the mid requirements with [P1 r m], and [l], reported for the leaf
    requirements with [P2 m l]. *)
Theorem chain_composition (R1 R2 M1 M2 L : list Trait) (P1 P2 : Condition) :
  (forall i j, rnd i = rnd j -> i = j) ->
  exists leaf mid plan,
    createTreeQueryFilter P2 (map ATrait L) = inr leaf /\
    createTreeQueryFilter P1 (map ATrait M1 ++ AFilter leaf :: map ATrait M2)
      = inr mid /\
    createTreeQuery (map ATrait R1 ++ AFilter mid :: map ATrait R2)
      = Returns plan /\
    forall world st r,
      In r (fst (executor plan world st)) <->
      In r (entitiesWith world (R1 ++ R2)) /\
      exists m, In m (entitiesWith world (M1 ++ M2)) /\
                P1 r m world = true /\
                exists l, In l (entitiesWith world L) /\
                          P2 m l world = true.
Proof.
  intros Hinj.
  destruct (chain_plan R1 R2 (M1 ++ M2) L (queryFilter P1) (queryFilter P2)
              Hinj) as (a & b & c & Hab & Hbc & Hac & Hplan).
  do 3 eexists.
  split; [apply createTreeQueryFilter_leaf|].
  split; [apply createTreeQueryFilter_one|].
  split; [exact Hplan|].
  intros world st r.
  rewrite (chain_execute P1 P2 a b c _ _ _ world st Hab Hbc Hac).
  unfold entitiesWith. rewrite filter_In, existsb_exists.
  split.
  - intros (Hr & m & Hm & HP1). apply filter_In in Hm as (Hm & Hl).
    apply existsb_exists in Hl as (l & Hl & HP2).
    split; [exact Hr|]. exists m. repeat split; auto. now exists l.
  - intros (Hr & m & Hm & HP1 & l & Hl & HP2).
    split; [exact Hr|]. exists m. split; [|exact HP1].
    apply filter_In. split; [exact Hm|]. apply existsb_exists. now exists l.
Qed.

(** ** Sibling subtrees *)

(** C3. Two sibling filter nodes that each carry a nested filter node:
    [createTreeQuery(A, F(B, F(C)), F(D, F(E)))].  The recursive call for
    the first sibling empties the shared array [childQueryObjects], so the
    caller's [for ... of] ends before it reaches the second sibling: the
    builder records three filter tuples (root to B, root to D, B to C) and
    four query objects; the nested filter node [F(E)] gets neither a query
    object nor a tuple. *)
Theorem sibling_subtree_not_compiled (A B C D E : Trait) (f : QueryFilter) :
  let spec :=
    [ATrait A;
     AFilter (FilterNode [B] f [FilterNode [C] f []]);
     AFilter (FilterNode [D] f [FilterNode [E] f []])] in
  exists st,
    buildQueryRecursive (buildFuel spec) spec false None initialBuildState
    = Some st /\
    map snd (filterWithTuple st) =
      [mkQueryTuple 0 1; mkQueryTuple 0 2; mkQueryTuple 1 3] /\
    map wq_components (heap st) =
      [[ATrait A]; [ATrait B]; [ATrait D]; [ATrait C]].
Proof.
  intros spec. subst spec. eexists.
  split; [lazy; reflexivity|]. split; reflexivity.
Qed.

(** ** Raw lists *)


(** * Further properties of the filter *)

Lemma matchesOf_none condition world skip children p :
  existsb (fun c => condition p c world) children = false ->
  matchesOf condition world skip children p = [].
Proof.
  pure. intros H. unfold matchesOf. destruct skip.
  - destruct (find _ children) as [c|] eqn:E; [|reflexivity].
    apply find_some in E as [E1 E2].
    assert (Hex : existsb (fun c => condition p c world) children = true)
      by (apply existsb_exists; now exists c).
    congruence.
  - induction children as [|c rest IH]; simpl in *; [reflexivity|].
    apply orb_false_iff in H as [H1 H2]. rewrite H1. now apply IH.
Qed.

Lemma matchesOf_first_length condition world children p :
  length (matchesOf condition world true children p) =
  if existsb (fun c => condition p c world) children then 1 else 0.
Proof.
  pure. destruct (existsb _ children) eqn:E.
  - unfold matchesOf. destruct (find _ children) as [c|] eqn:F; [reflexivity|].
    apply existsb_exists in E as (c & Hc & Hm).
    apply (find_none _ _ F) in Hc. congruence.
  - now rewrite matchesOf_none.
Qed.

Lemma filter_all (A : Type) (f : A -> bool) (l : list A) :
  (forall x, In x l -> f x = true) -> List.filter f l = l.
Proof.
  pure. induction l as [|a l IH]; intros H; simpl; [reflexivity|].
  rewrite (H a) by now left. f_equal. apply IH. intros x Hx. apply H. now right.
Qed.

Lemma filter_filter (A : Type) (f g : A -> bool) (l : list A) :
  List.filter g (List.filter f l) = List.filter (fun x => f x && g x) l.
Proof.
  pure. induction l as [|a l IH]; simpl; [reflexivity|].
  destruct (f a); simpl; [destruct (g a)|]; now rewrite IH.
Qed.

Lemma count_occ_filter (f : Entity -> bool) (l : list Entity) c :
  count_occ Nat.eq_dec (List.filter f l) c =
  if f c then count_occ Nat.eq_dec l c else 0.
Proof.
  pure. induction l as [|a l IH]; simpl.
  - now destruct (f c).
  - destruct (Nat.eq_dec a c) as [->|Hne].
    + destruct (f c) eqn:E; simpl.
      * destruct (Nat.eq_dec c c); [|contradiction]. now rewrite IH.
      * exact IH.
    + destruct (f a); simpl; [destruct (Nat.eq_dec a c); [contradiction|]|];
        exact IH.
Qed.

(** X1. The two lists [queryFilter] returns are empty together; in
    particular both are empty when the parent list or the child list is
    empty. *)
Theorem queryFilter_empty_together condition parents children world skip :
  (fst (queryFilter condition parents children world skip) = [] <->
   snd (queryFilter condition parents children world skip) = []) /\
  queryFilter condition [] children world skip = ([], []) /\
  queryFilter condition parents [] world skip = ([], []).
Proof.
  pure. split; [split|split].
  - rewrite queryFilter_parents, queryFilter_children.
    induction parents as [|p rest IH]; simpl; [reflexivity|].
    destruct (existsb _ children) eqn:E; [discriminate|].
    intros H. rewrite (matchesOf_none _ _ _ _ _ E). now apply IH.
  - apply queryFilter_children_nil.
  - reflexivity.
  - apply injective_projections.
    + rewrite queryFilter_parents. simpl. induction parents; simpl; auto.
    + rewrite queryFilter_children. simpl.
      induction parents as [|p rest IH]; simpl; [reflexivity|].
      rewrite IH, app_nil_r. now destruct skip.
Qed.

(** X2. With [skipCollectingChildren] set, [queryFilter] records exactly
    one child for every parent it keeps. *)
Theorem queryFilter_short_circuit_one_child condition parents children world :
  length (snd (queryFilter condition parents children world true)) =
  length (fst (queryFilter condition parents children world true)).
Proof.
  pure. rewrite queryFilter_parents, queryFilter_children.
  induction parents as [|p rest IH]; [reflexivity|].
  cbn [flat_map List.filter].
  rewrite length_app, matchesOf_first_length, IH.
  now destruct (existsb _ children).
Qed.

(** X3. Without [skipCollectingChildren] a child is recorded once for
    every kept parent it matches: its number of occurrences in the output
    child list is the number of input parents it matches times its number
    of occurrences in the input child list. *)
Theorem queryFilter_child_multiplicity condition parents children world c :
  count_occ Nat.eq_dec
    (snd (queryFilter condition parents children world false)) c =
  length (List.filter (fun p => condition p c world) parents) *
  count_occ Nat.eq_dec children c.
Proof.
  pure. rewrite queryFilter_children.
  unfold Entity in *.
  induction parents as [|p rest IH]; [reflexivity|].
  cbn [flat_map List.filter].
  rewrite count_occ_app, IH. unfold matchesOf.
  rewrite count_occ_filter.
  destruct (condition p c world); simpl; lia.
Qed.

(** X4. Narrowing is idempotent on the parent side: filtering the two
    output lists again, with either flag, keeps every parent. *)
Theorem queryFilter_parents_idempotent condition parents children world
    skip skip' :
  let out := queryFilter condition parents children world skip in
  fst (queryFilter condition (fst out) (snd out) world skip') = fst out.
Proof.
  pure. intros out. subst out.
  rewrite (queryFilter_parents condition _ _ world skip').
  apply filter_all. intros p Hp.
  rewrite queryFilter_parents in Hp. apply filter_In in Hp as [Hp Hex].
  destruct (matchesOf condition world skip children p) as [|c l] eqn:E.
  - apply matchesOf_nil in E. congruence.
  - assert (Hc : In c (matchesOf condition world skip children p))
      by (rewrite E; now left).
    apply existsb_exists. exists c. split.
    + rewrite queryFilter_children. apply in_flat_map. now exists p.
    + now apply matchesOf_incl in Hc.
Qed.

(** * Further properties of the filter constructors *)

(** X5. A filter constructor throws the syntax error exactly when one of
    its arguments is a raw list; otherwise it returns the node whose
    components are the non-filter arguments and whose child queries are the
    filter-node arguments, each in argument order, with the [queryFilter]
    of the constructor's condition. *)
Theorem createTreeQueryFilter_partition condition traits :
  match createTreeQueryFilter condition traits with
  | inl t => t = ThrowString msgSyntax /\ exists elems, In (AArray elems) traits
  | inr node =>
      node = FilterNode (traitsIn traits) (queryFilter condition)
               (filtersIn traits) /\
      forall elems, ~ In (AArray elems) traits
  end.
Proof.
  pure.
  assert (Hdec : (exists elems, In (AArray elems) traits) \/
                 (forall elems, ~ In (AArray elems) traits)).
  { induction traits as [|a rest IH].
    - right. intros elems [].
    - destruct a as [t|n|elems].
      + destruct IH as [(e & He)|IH]; [left; exists e; now right|right].
        intros e [H|H]; [discriminate|now apply (IH e)].
      + destruct IH as [(e & He)|IH]; [left; exists e; now right|right].
        intros e [H|H]; [discriminate|now apply (IH e)].
      + left. exists elems. now left. }
  unfold createTreeQueryFilter. destruct Hdec as [Harr|Hno].
  - rewrite (sortTraits_array traits Harr). auto.
  - rewrite (sortTraits_spec traits Hno). simpl. auto.
Qed.

(** * Further properties of the compiler *)

Lemma filtersIn_in (query : list Arg) n :
  In n (filtersIn query) <-> In (AFilter n) query.
Proof.
  pure. unfold filtersIn. rewrite in_flat_map. split.
  - intros (a & Ha & Hn). destruct a; simpl in Hn; try contradiction.
    destruct Hn as [<-|[]]. exact Ha.
  - intros H. exists (AFilter n). split; [exact H|now left].
Qed.

(** The loop of the builder appends one tuple per filter node. *)
Lemma forEachNode_tuples query :
  forall r nextNodeFind st,
    exists l,
      filterWithTuple (snd (forEachNode query r nextNodeFind st)) =
      filterWithTuple st ++ l /\
      length l = length (filtersIn query).
Proof.
  induction query as [|a rest IH]; intros r nnf st.
  - exists []. simpl. now rewrite app_nil_r.
  - destruct a as [t|n|elems]; simpl.
    + match goal with |- context [forEachNode rest r nnf ?s] =>
        destruct (IH r nnf s) as (l & Hl & Hlen) end.
      exists l. split; [exact Hl|exact Hlen].
    + match goal with |- context [forEachNode rest r ?b ?s] =>
        destruct (IH r b s) as (l & Hl & Hlen) end.
      exists ((nodeFilter n, mkQueryTuple r (length (heap st))) :: l).
      split; [|simpl; now rewrite Hlen].
      rewrite Hl. simpl.
      destruct (0 <? length (childQueries n)); simpl;
        now rewrite <- app_assoc.
    + match goal with |- context [forEachNode rest r nnf ?s] =>
        destruct (IH r nnf s) as (l & Hl & Hlen) end.
      exists l. split; [exact Hl|exact Hlen].
Qed.

Lemma enter_tuples query found po st :
  exists l,
    filterWithTuple (snd (enter query found po st)) = filterWithTuple st ++ l /\
    length l = length (filtersIn query).
Proof.
  unfold enter. destruct po as [r|]; simpl.
  - destruct (forEachNode_tuples query r false (setChildQueryObjects [] st))
      as (l & Hl & Hlen).
    destruct (forEachNode query r false _) as [b st1]. simpl in *.
    exists l. now rewrite registerParent_tuples.
  - match goal with |- context [forEachNode query ?r false ?s] =>
      destruct (forEachNode_tuples query r false s) as (l & Hl & Hlen);
      destruct (forEachNode query r false s) as [b st1] end.
    simpl in *. exists l. now rewrite registerParent_tuples.
Qed.

(** The builder only ever appends to [filterWithTuple]. *)
Lemma build_tuples_prefix fuel :
  (forall query found po st st',
     buildQueryRecursive fuel query found po st = Some st' ->
     exists l, filterWithTuple st' = filterWithTuple st ++ l /\
               length (filtersIn query) <= length l) /\
  (forall nextNodeFind idx st st',
     continueChildren fuel nextNodeFind idx st = Some st' ->
     exists l, filterWithTuple st' = filterWithTuple st ++ l).
Proof.
  induction fuel as [|fuel [IHb IHc]].
  - split; intros; discriminate.
  - split.
    + intros query found po st st' H.
      rewrite buildQueryRecursive_unfold in H.
      apply IHc in H as (l2 & H2).
      destruct (enter_tuples query found po st) as (l1 & H1 & Hlen).
      exists (l1 ++ l2). rewrite H2, H1, <- app_assoc. split; [reflexivity|].
      rewrite length_app. lia.
    + intros nnf idx st st' H. rewrite continueChildren_unfold in H.
      destruct (nth_error (childQueryObjects st) idx) as [[cs q]|].
      * destruct (buildQueryRecursive fuel _ _ _ _) as [st1|] eqn:E;
          [|discriminate].
        apply IHb in E as (l1 & H1 & _). apply IHc in H as (l2 & H2).
        exists (l1 ++ l2). now rewrite H2, H1, <- app_assoc.
      * inversion H. exists []. now rewrite app_nil_r.
Qed.

(** X6. What [createTreeQuery] does with a specification is decided by
    its top level: it returns a callable query exactly when some element is
    a filter node; it throws the string "Tree query empty" on the empty
    list and the Error "contains no filter" on a non-empty list without
    filter node.  The Error "Unexpected failure" is never thrown, and the
    recursion of the builder and the stack traversal always terminate. *)
Theorem createTreeQuery_outcome queryTree :
  match createTreeQuery queryTree with
  | Returns plan => exists n, In (AFilter n) queryTree
  | Throws t =>
      (queryTree = [] /\ t = ThrowString msgEmpty) \/
      (queryTree <> [] /\ (forall n, ~ In (AFilter n) queryTree) /\
       t = ThrowError msgNoFilter)
  | OutOfFuel => False
  end.
Proof.
  unfold createTreeQuery.
  destruct queryTree as [|a rest]; [simpl; now left|].
  set (queryTree := a :: rest).
  change (length queryTree =? 0) with false. cbv iota.
  destruct (buildQueryRecursive_total (queryDepth queryTree) queryTree
              (le_n _) (buildFuel queryTree) (le_n _) false None
              initialBuildState) as (st & Hb & _).
  rewrite Hb.
  destruct (proj1 (build_tuples_prefix _) _ _ _ _ _ Hb) as (l & Hl & Hlen).
  simpl in Hl.
  destruct (filterWithTuple st) as [|[f0 tuple0] tuples] eqn:Et.
  - right. split; [discriminate|]. split; [|reflexivity].
    intros n Hn. apply filtersIn_in in Hn.
    subst l. destruct (filtersIn queryTree); [destruct Hn|simpl in Hlen; lia].
  - set (queryById := registerQueries (heap st) (finalQueries st)).
    set (rootId := wq_id (deref (heap st) (parent tuple0))).
    set (nodeStore := fold_left (addTuple queryById (heap st))
                        ((f0, tuple0) :: tuples) []).
    assert (W : wellFormed nodeStore)
      by apply wellFormed_tuples, wellFormed_nil.
    assert (Hroot : hd_error (storeIds nodeStore) = Some rootId)
      by (subst nodeStore; simpl; apply tuples_hd, addTuple_first).
    assert (Hin : In rootId (storeIds nodeStore)).
    { destruct (storeIds nodeStore); inversion Hroot. now left. }
    destruct (getNode_in _ _ Hin) as (n0 & ->).
    destruct (flattenLoop_spec _ W (S (length nodeStore)) _ _ _
                (flattenInv_init _ _ W Hroot)) as (result & seen & -> & _).
    { unfold storeIds. rewrite length_map. simpl. lia. }
    destruct (filtersIn queryTree) as [|n ns] eqn:Ef.
    + exfalso.
      assert (Hplain : forallb (fun a => negb (isFilter a)) queryTree = true).
      { apply no_filter_plain. intros n Hn. apply filtersIn_in in Hn.
        now rewrite Ef in Hn. }
      unfold buildFuel in Hb.
      replace (2 * queryDepth queryTree + 2)
        with (S (S (2 * queryDepth queryTree))) in Hb by lia.
      rewrite buildQueryRecursive_unfold, continueChildren_unfold in Hb.
      destruct (enter_plain queryTree false None initialBuildState Hplain)
        as (Ht & Hc).
      rewrite Hc in Hb. simpl in Hb. inversion Hb; subst st.
      rewrite Ht in Et. discriminate.
    + exists n. apply filtersIn_in. rewrite Ef. now left.
Qed.

(** * Further properties of the plan and of the executor *)


Lemma flattenLoop_connected nodeStore root :
  wellFormed nodeStore ->
  forall fuel nodeStack seen acc result,
    flattenInv nodeStore nodeStack seen acc ->
    (forall n, In n nodeStack ->
               n = root \/ exists e, In e acc /\ childNode e = n) ->
    (forall e, In e acc ->
               parentNode e <> childNode e /\
               (parentNode e = root \/
                exists e', In e' acc /\ childNode e' = parentNode e)) ->
    flattenLoop fuel nodeStore nodeStack acc = Some result ->
    forall e, In e result ->
              parentNode e <> childNode e /\
              (parentNode e = root \/
               exists e', In e' result /\ childNode e' = parentNode e).
Proof.
  pure. intros W. induction fuel as [|fuel IH];
    intros nodeStack seen acc result I Hstack Hacc H; [discriminate|].
  destruct nodeStack as [|n rest]; simpl in H.
  - inversion H; subst. exact Hacc.
  - refine (IH _ (n :: seen) _ _ (flattenInv_step _ _ _ _ _ W I) _ _ H).
    + intros m Hm. apply in_app_iff in Hm as [Hm|Hm].
      * apply in_rev, in_map_iff in Hm as (e & <- & He).
        right. exists e. split; [|reflexivity]. apply in_app_iff. now right.
      * destruct (Hstack m) as [->|(e & He & Hc)]; [now right|now left|].
        right. exists e. split; [|exact Hc]. apply in_app_iff. now left.
    + intros e He. apply in_app_iff in He as [He|He].
      * destruct (Hacc e He) as [H1 [H2|(e' & He' & Hc)]].
        -- split; auto.
        -- split; [exact H1|]. right. exists e'. split; [|exact Hc].
           apply in_app_iff. now left.
      * pose proof (childrenOf_parent _ _ _ W He) as Hp.
        assert (Hn : In n (n :: rest)) by now left.
        split.
        -- rewrite Hp. intros E.
           destruct (inv_unseen _ _ _ _ I e (childrenOf_in _ _ _ He))
             as [_ Hout].
           ++ rewrite Hp. exact (inv_stack_unseen _ _ _ _ I n Hn).
           ++ apply Hout. rewrite <- E. exact Hn.
        -- rewrite Hp. destruct (Hstack n Hn) as [->|(e' & He' & Hc)];
             [now left|].
           right. exists e'. split; [|exact Hc]. apply in_app_iff. now left.
Qed.

(** X7. The edges of a compiled plan form a tree hanging from the root
    node: no node is the child of two edges, the root node is the child of
    none, no edge leads from a node to itself, and the parent node of every
    edge is the root node or the child node of another edge of the plan. *)
Theorem compiled_plan_is_tree queryTree plan :
  createTreeQuery queryTree = Returns plan ->
  NoDup (map childNode (edgesFlattened plan)) /\
  forall e, In e (edgesFlattened plan) ->
    childNode e <> rootNode plan /\
    parentNode e <> childNode e /\
    (parentNode e = rootNode plan \/
     exists e', In e' (edgesFlattened plan) /\ childNode e' = parentNode e).
Proof.
  intros H. apply createTreeQuery_returns in H as (W & Hroot & recorded & Hf & HE).
  pose proof (flattenInv_init _ _ W Hroot) as I0.
  destruct (flattenLoop_spec _ W (S (length (nodes plan))) _ _ _ I0)
    as (result & seen & Hf' & I).
  { unfold storeIds. rewrite length_map. simpl. lia. }
  rewrite Hf in Hf'. inversion Hf'; subst result; clear Hf'.
  split.
  - rewrite HE, map_rev. apply NoDup_rev. exact (inv_acc_nodup _ _ _ _ I).
  - intros e He. rewrite HE in He. apply in_rev in He.
    split.
    + destruct (inv_acc_edges _ _ _ _ I e He) as [Hs _].
      exact (wf_first _ W _ _ Hroot Hs).
    + assert (Hstack : forall n, In n [rootNode plan] ->
                n = rootNode plan \/
                exists e0 : EvalEdge, In e0 [] /\ childNode e0 = n).
      { intros n [<-|[]]. now left. }
      assert (Hacc : forall e0 : EvalEdge, In e0 [] ->
                parentNode e0 <> childNode e0 /\
                (parentNode e0 = rootNode plan \/
                 exists e', In e' [] /\ childNode e' = parentNode e0)).
      { intros e0 []. }
      destruct (flattenLoop_connected _ (rootNode plan) W _ _ _ _ _ I0
                  Hstack Hacc Hf e He) as [H1 H2].
      split; [exact H1|]. destruct H2 as [H2|(e' & He' & Hc)]; [now left|].
      right. exists e'. split; [|exact Hc]. rewrite HE. now apply -> in_rev.
Qed.

Lemma filter_none (A : Type) (l : list A) :
  List.filter (fun _ => false) l = [].
Proof. pure. induction l; simpl; auto. Qed.

Lemma runEdges_result plan world edges :
  forall st, emptyResultsArr st = [] ->
    fst (runEdges plan world edges st) = [] \/
    fst (runEdges plan world edges st) =
    updateList (snd (runEdges plan world edges st)) (rootNode plan).
Proof.
  induction edges as [|e edges IH]; intros st Hnil; simpl; [now right|].
  pose proof (evalEdge_empty plan world e st _ eq_refl) as Hempty.
  destruct (evalEdge plan world e st) as [r st'|st'] eqn:E; simpl in *.
  - left. unfold evalEdge in E. destruct (narrow _ _ _ _) as [ps cs].
    destruct (_ || _); inversion E; subst.
    now rewrite !ensureComputed_empty.
  - apply IH. now rewrite Hempty.
Qed.

(** When the root node is no edge's child, its list stays a filtered copy
    of the store's answer throughout a call. *)
Lemma runEdges_root_filter plan world edges :
  forall st,
    Forall constructed edges ->
    (forall e, In e edges -> childNode e <> rootNode plan) ->
    emptyResultsArr st = [] ->
    (queriesComputed st (rootNode plan) = true ->
     exists keep, updateList st (rootNode plan) =
                  List.filter keep
                    (worldQuery world (nodeQuery plan (rootNode plan)))) ->
    (In (rootNode plan) (endpoints edges) \/
     queriesComputed st (rootNode plan) = true) ->
    exists keep, fst (runEdges plan world edges st) =
                 List.filter keep
                   (worldQuery world (nodeQuery plan (rootNode plan))).
Proof.
  set (root := rootNode plan).
  set (R := worldQuery world (nodeQuery plan root)).
  induction edges as [|e edges IH]; intros st Hcons Hchild Hnil Hinv Hroot.
  - simpl. destruct Hroot as [[]|Hc]. now apply Hinv.
  - inversion Hcons as [|? ? (condition & Hf) Hcons']; subst.
    destruct e as [f p c]. simpl in Hf. subst f.
    assert (Hc_root : c <> root).
    { apply (Hchild (mkEvalEdge (queryFilter condition) p c)). now left. }
    assert (Hcand : p = root ->
              exists keep, candidateList plan world st p = List.filter keep R).
    { intros ->. unfold candidateList.
      destruct (queriesComputed st root) eqn:E; [now apply Hinv|].
      exists (fun _ => true). symmetry. now apply filter_all. }
    simpl. unfold evalEdge.
    pose proof (ensured_parent plan world
                  (mkEvalEdge (queryFilter condition) p c) st) as Hp.
    pose proof (ensured_child plan world
                  (mkEvalEdge (queryFilter condition) p c) st) as Hc.
    unfold narrow. simpl parentNode in *. simpl childNode in *.
    simpl filter.
    set (st2 := ensureComputed plan world c (ensureComputed plan world p st))
      in *.
    rewrite Hp, Hc.
    pose proof (queryFilter_parents condition
                  (candidateList plan world st p)
                  (candidateList plan world st c) world
                  (hasNoChildren plan c)) as Hps.
    destruct (queryFilter condition _ _ world (hasNoChildren plan c))
      as [ps cs].
    simpl in Hps.
    assert (Hnil2 : emptyResultsArr st2 = []).
    { subst st2. now rewrite !ensureComputed_empty. }
    destruct ((length ps =? 0) || (length cs =? 0)).
    + simpl. rewrite Hnil2. exists (fun _ => false). symmetry.
      apply filter_none.
    + apply IH; auto.
      * intros e He. apply Hchild. now right.
      * simpl. intros Hcomp.
        destruct (Nat.eq_dec p root) as [E|E].
        -- rewrite setAt_other by (intros E'; apply Hc_root; congruence).
           rewrite E, setAt_same. destruct (Hcand E) as (keep & Hk).
           rewrite Hps, Hk, filter_filter. eauto.
        -- rewrite !setAt_other by congruence.
           subst st2. rewrite !ensureComputed_list_other by congruence.
           apply Hinv.
           rewrite !ensureComputed_computed in Hcomp.
           apply Nat.eqb_neq in E.
           assert (E' : (root =? p) = false)
             by (apply Nat.eqb_neq; apply Nat.eqb_neq in E; congruence).
           assert (E'' : (root =? c) = false)
             by (apply Nat.eqb_neq; congruence).
           now rewrite E', E'' in Hcomp.
      * simpl. destruct Hroot as [[E|[E|Hin]]|Hcomp].
        -- right. subst st2. rewrite <- E.
           apply ensure_computed_mono, ensure_computed_self.
        -- exfalso. apply Hc_root. exact E.
        -- now left.
        -- right. subst st2. now apply ensure_computed_mono, ensure_computed_mono.
Qed.

(** X8. A compiled query whose filters were made by filter constructors
    returns a filtered copy of the store's answer to the root node's
    query: only entities of that answer, in the store's order, none more
    often than there. *)
Theorem executor_result_filter queryTree plan :
  createTreeQuery queryTree = Returns plan ->
  Forall constructed (edgesFlattened plan) ->
  forall world worlds,
    exists keep,
      fst (executor plan world (history plan worlds)) =
      List.filter keep (worldQuery world (nodeQuery plan (rootNode plan))).
Proof.
  intros H Hcons world worlds.
  apply createTreeQuery_returns in H as (W & Hroot & recorded & Hf & HE).
  pose proof (flattenInv_init _ _ W Hroot) as I0.
  destruct (flattenLoop_spec _ W (S (length (nodes plan))) _ _ _ I0)
    as (result & seen & Hf' & I).
  { unfold storeIds. rewrite length_map. simpl. lia. }
  rewrite Hf in Hf'. inversion Hf'; subst result; clear Hf'.
  assert (Hchild : forall e, In e (edgesFlattened plan) ->
                             childNode e <> rootNode plan).
  { intros e He. rewrite HE in He. apply in_rev in He.
    destruct (inv_acc_edges _ _ _ _ I e He) as [Hs _].
    exact (wf_first _ W _ _ Hroot Hs). }
  unfold executor.
  destruct (in_dec Nat.eq_dec (rootNode plan)
              (endpoints (edgesFlattened plan))) as [Hin|Hout].
  - apply runEdges_root_filter; auto. simpl. discriminate.
  - exists (fun _ => false). rewrite filter_none.
    match goal with |- fst (runEdges _ _ _ ?s) = _ =>
      destruct (runEdges_result plan world (edgesFlattened plan) s eq_refl)
        as [Hr|Hr]; [exact Hr|] end.
    rewrite Hr, runEdges_list_other by exact Hout.
    simpl. now apply history_untouched_root.
Qed.

(** X9. On a world for which the store reports no entity, whatever the
    query, a compiled query whose filters were made by filter constructors
    returns the empty list. *)
Theorem executor_empty_world plan world worlds :
  Forall constructed (edgesFlattened plan) ->
  (forall hash, worldQuery world hash = []) ->
  fst (executor plan world (history plan worlds)) = [].
Proof.
  intros Hcons Hworld. unfold executor.
  destruct (edgesFlattened plan) as [|e rest] eqn:HE.
  - simpl. apply history_untouched_root. rewrite HE. intros [].
  - inversion Hcons as [|? ? (condition & Hf) _]; subst.
    simpl. unfold evalEdge, narrow.
    rewrite ensured_parent, ensured_child, Hf.
    unfold candidateList at 1. simpl queriesComputed. cbv iota.
    rewrite Hworld. simpl. now rewrite !ensureComputed_empty.
Qed.

(** * What a compiled query computes *)


Lemma createTreeQuery_treeShaped queryTree plan :
  createTreeQuery queryTree = Returns plan -> treeShaped plan.
Proof.
  intros H. apply createTreeQuery_returns in H as (W & Hroot & recorded & Hf & HE).
  pose proof (flattenInv_init _ _ W Hroot) as I0.
  destruct (flattenLoop_spec _ W (S (length (nodes plan))) _ _ _ I0)
    as (result & seen & Hf' & I).
  { unfold storeIds. rewrite length_map. simpl. lia. }
  rewrite Hf in Hf'. inversion Hf'; subst result; clear Hf'.
  assert (Hedges : forall e, In e (edgesFlattened plan) ->
                             In e (storeEdges (nodes plan))).
  { intros e He. rewrite HE in He. apply in_rev in He.
    now destruct (inv_acc_edges _ _ _ _ I e He). }
  constructor.
  - rewrite HE, map_rev. apply NoDup_rev. exact (inv_acc_nodup _ _ _ _ I).
  - intros e He. exact (wf_first _ W _ _ Hroot (Hedges e He)).
  - rewrite HE. exact (inv_order _ _ _ _ I).
  - exact Hedges.
  - intros e He. rewrite HE in He. apply in_rev in He.
    assert (Hstack : forall n, In n [rootNode plan] ->
              n = rootNode plan \/
              exists e0 : EvalEdge, In e0 [] /\ childNode e0 = n).
    { intros n [<-|[]]. now left. }
    assert (Hacc : forall e0 : EvalEdge, In e0 [] ->
              parentNode e0 <> childNode e0 /\
              (parentNode e0 = rootNode plan \/
               exists e', In e' [] /\ childNode e' = parentNode e0)).
    { intros e0 []. }
    destruct (flattenLoop_connected _ (rootNode plan) W _ _ _ _ _ I0
                Hstack Hacc Hf e He) as [_ [H2|(e' & He' & Hc)]]; [now left|].
    right. exists e'. split; [|exact Hc]. rewrite HE. now apply -> in_rev.
Qed.

Lemma NoDup_app_disjoint (A : Type) (l l' : list A) a :
  NoDup (l ++ l') -> In a l -> In a l' -> False.
Proof.
  pure. induction l as [|x l IH]; simpl; intros Hnd Hl Hl'; [destruct Hl|].
  inversion Hnd as [|? ? Hx Hnd']; subst. destruct Hl as [->|Hl].
  - apply Hx, in_app_iff. now right.
  - now apply IH.
Qed.

Lemma bottomUp_suffix nodeStore a l :
  bottomUp nodeStore (a ++ l) -> bottomUp nodeStore l.
Proof.
  pure. induction a as [|x a IH]; simpl; intros H; [exact H|].
  inversion H; subst. now apply IH.
Qed.

Section Semantics.

Variable plan : Plan.
Variable world : World.
Variable condOf : EvalEdge -> Condition.

Hypothesis shape : treeShaped plan.
Hypothesis conds :
  forall e, In e (edgesFlattened plan) ->
    forall parents children skip,
      filter e parents children world skip =
      queryFilter (condOf e) parents children world skip.

Let store (n : Id) : list Entity := worldQuery world (nodeQuery plan n).

(** The list the executor holds or would fetch for [n] describes [n] with
    respect to the edges processed so far. *)
Definition described (done : list EvalEdge) (st : EvalState) (n : Id) : Prop :=
  forall x,
    In x (candidateList plan world st n) <->
    In x (store n) /\
    forall e, In e done -> parentNode e = n ->
      exists y, satisfies plan world condOf (childNode e) y /\
                condOf e x y world = true.

Lemma unsatisfied_upwards todo :
  bottomUp (nodes plan) todo ->
  (forall e, In e todo -> In e (edgesFlattened plan)) ->
  forall e, In e todo ->
    (forall x, ~ satisfies plan world condOf (parentNode e) x) ->
    forall r, ~ satisfies plan world condOf (rootNode plan) r.
Proof using shape.
  induction 1 as [|e0 l Hl IH Hup]; intros Hsub e He Hnone r; [destruct He|].
  assert (Hsub' : forall e, In e l -> In e (edgesFlattened plan))
    by (intros e' He'; apply Hsub; now right).
  destruct He as [<-|He]; [|exact (IH Hsub' e He Hnone r)].
  destruct (tree_connected _ shape e0 (Hsub e0 (or_introl eq_refl)))
    as [Hroot|(e' & He' & Hc)].
  - rewrite <- Hroot. apply Hnone.
  - assert (Hin : In e' l)
      by (apply Hup; [exact (tree_edges _ shape e' He')|exact Hc]).
    apply (IH Hsub' e' Hin). intros x Hx.
    inversion Hx as [n x' _ Hall]; subst.
    destruct (Hall e' He' eq_refl) as (y & Hy & _).
    rewrite Hc in Hy. exact (Hnone y Hy).
Qed.

Lemma last_edge_from_root todo :
  bottomUp (nodes plan) todo ->
  (forall e, In e todo -> In e (edgesFlattened plan)) ->
  todo <> [] ->
  exists e, In e todo /\ parentNode e = rootNode plan.
Proof using shape.
  induction 1 as [|e0 l Hl IH Hup]; intros Hsub Hne; [contradiction|].
  destruct l as [|e1 l].
  - exists e0. split; [now left|].
    destruct (tree_connected _ shape e0 (Hsub e0 (or_introl eq_refl)))
      as [Hroot|(e' & He' & Hc)]; [exact Hroot|].
    destruct (Hup e' (tree_edges _ shape e' He') Hc).
  - destruct IH as (e & He & Hr); [|discriminate|].
    + intros e He. apply Hsub. now right.
    + exists e. split; [now right|exact Hr].
Qed.

Lemma runEdges_semantics todo :
  forall done st,
    edgesFlattened plan = done ++ todo ->
    bottomUp (nodes plan) todo ->
    emptyResultsArr st = [] ->
    (forall e, In e done -> queriesComputed st (parentNode e) = true) ->
    (forall n, (forall e, In e done -> childNode e <> n) ->
               described done st n) ->
    edgesFlattened plan <> [] ->
    forall r,
      In r (fst (runEdges plan world todo st)) <->
      satisfies plan world condOf (rootNode plan) r.
Proof using shape conds.
  induction todo as [|e todo IH];
    intros done st HE Hbu Hnil Hcomp Hdesc Hne r.
  - rewrite app_nil_r in HE. subst done. simpl.
    destruct (last_edge_from_root _ (tree_order _ shape) (fun e H => H) Hne)
      as (e & He & Hroot).
    pose proof (Hcomp e He) as Hc. rewrite Hroot in Hc.
    assert (Hd : described (edgesFlattened plan) st (rootNode plan)).
    { apply Hdesc. intros e' He'. now apply (tree_root _ shape). }
    unfold described, candidateList in Hd. rewrite Hc in Hd.
    rewrite (Hd r). split.
    + intros [H1 H2]. constructor; [exact H1|exact H2].
    + intros Hs. inversion Hs as [n x H1 H2]; subst. split; [exact H1|exact H2].
  - assert (HinE : In e (edgesFlattened plan))
      by (rewrite HE; apply in_app_iff; right; now left).
    pose proof (tree_children _ shape) as Hnd.
    rewrite HE, map_app in Hnd. simpl in Hnd.
    pose proof (NoDup_remove_2 _ _ _ Hnd) as Hfresh.
    inversion Hbu as [|? ? Hbu' Hup]; subst.
    set (p := parentNode e) in *. set (c := childNode e) in *.
    assert (Hc_todo : ~ In e todo).
    { intros H. apply Hfresh, in_app_iff. right. now apply in_map. }
    assert (Hc_done : forall e', In e' done -> childNode e' <> c).
    { intros e' He' E. apply Hfresh, in_app_iff. left. rewrite <- E.
      now apply in_map. }
    assert (Hpc : p <> c).
    { intros E. apply Hc_todo. apply Hup; [now apply (tree_edges _ shape)|].
      now symmetry. }
    assert (Hp_done : forall e', In e' done -> childNode e' <> p).
    { intros e' He' E.
      assert (Hin : In e' todo).
      { apply Hup; [|exact E]. apply (tree_edges _ shape).
        rewrite HE. apply in_app_iff. now left. }
      apply (NoDup_remove_1 _ _ _) in Hnd.
      apply (NoDup_app_disjoint _ _ _ (childNode e') Hnd); now apply in_map. }
    assert (Hc_out : forall e', In e' (edgesFlattened plan) ->
                                parentNode e' = c -> In e' done).
    { intros e' He' Hp'. rewrite HE in He'.
      apply in_app_iff in He' as [He'|[<-|He']]; [exact He'| |].
      - exfalso. now apply Hpc.
      - exfalso. apply in_split in He' as (a & b & ->).
        apply bottomUp_suffix in Hbu'. inversion Hbu' as [|? ? _ Hup']; subst.
        apply Hc_todo. apply in_app_iff. right. right.
        apply Hup'; [now apply (tree_edges _ shape)|now symmetry]. }
    assert (HLc : forall y, In y (candidateList plan world st c) <->
                            satisfies plan world condOf c y).
    { intros y. rewrite (Hdesc c Hc_done y). split.
      - intros [H1 H2]. constructor; [exact H1|].
        intros e' He' Hp'. apply H2; [now apply Hc_out|exact Hp'].
      - intros Hs. inversion Hs as [n x H1 H2]; subst. split; [exact H1|].
        intros e' He' Hp'. apply H2; [|exact Hp'].
        rewrite HE. apply in_app_iff. now left. }
    pose proof (Hdesc p Hp_done) as HLp.
    simpl. unfold evalEdge, narrow.
    rewrite ensured_parent, ensured_child, (conds e HinE).
    fold p c.
    set (st2 := ensureComputed plan world c (ensureComputed plan world p st)).
    pose proof (queryFilter_parents (condOf e)
                  (candidateList plan world st p)
                  (candidateList plan world st c) world
                  (hasNoChildren plan c)) as Hps.
    pose proof (queryFilter_children_nil (condOf e)
                  (candidateList plan world st p)
                  (candidateList plan world st c) world
                  (hasNoChildren plan c)) as Hcs.
    destruct (queryFilter (condOf e) _ _ world (hasNoChildren plan c))
      as [ps cs].
    simpl in Hps, Hcs.
    assert (Hps_in : forall x, In x ps <->
              In x (store p) /\
              forall e', In e' (done ++ [e]) -> parentNode e' = p ->
                exists y, satisfies plan world condOf (childNode e') y /\
                          condOf e' x y world = true).
    { intros x. rewrite Hps, filter_In, existsb_exists, (HLp x). split.
      - intros [[H1 H2] (y & Hy & Hcond)]. split; [exact H1|].
        intros e' He' Hp'. apply in_app_iff in He' as [He'|[<-|[]]].
        + now apply H2.
        + exists y. split; [now apply HLc|exact Hcond].
      - intros [H1 H2]. split.
        + split; [exact H1|]. intros e' He' Hp'. apply H2; [|exact Hp'].
          apply in_app_iff. now left.
        + destruct (H2 e) as (y & Hy & Hcond);
            [apply in_app_iff; right; now left|reflexivity|].
          exists y. split; [now apply HLc|exact Hcond]. }
    assert (Hnil2 : emptyResultsArr st2 = []).
    { subst st2. now rewrite !ensureComputed_empty. }
    destruct ((length ps =? 0) || (length cs =? 0)) eqn:Eempty.
    + simpl. rewrite Hnil2. split; [intros []|]. intros Hs. exfalso.
      assert (Hps_nil : ps = []).
      { apply orb_true_iff in Eempty as [H|H]; apply length_zero_nil in H;
          auto. }
      refine (unsatisfied_upwards (e :: todo) Hbu _ e (or_introl eq_refl) _ r Hs).
      * intros e' He'. rewrite HE. apply in_app_iff. now right.
      * intros x Hx. fold p in Hx.
        assert (Hx' : In x ps).
        { apply Hps_in. inversion Hx as [n x' H1 H2]; subst.
          split; [exact H1|]. intros e' He' Hp'. apply H2; [|exact Hp'].
          rewrite HE. apply in_app_iff in He' as [He'|[<-|[]]];
            apply in_app_iff; [now left|right; now left]. }
        rewrite Hps_nil in Hx'. destruct Hx'.
    + apply (IH (done ++ [e])).
      * rewrite <- app_assoc. exact HE.
      * exact Hbu'.
      * exact Hnil2.
      * simpl. intros e' He'. apply in_app_iff in He' as [He'|[<-|[]]].
        -- subst st2. now apply ensure_computed_mono, ensure_computed_mono, Hcomp.
        -- subst st2. fold p. apply ensure_computed_mono, ensure_computed_self.
      * intros n Hn x.
        assert (Hnc : n <> c).
        { intros ->. apply (Hn e); [apply in_app_iff; right; now left|].
          reflexivity. }
        destruct (Nat.eq_dec n p) as [->|Hnp].
        -- unfold candidateList. simpl.
           replace (queriesComputed st2 p) with true
             by (subst st2; symmetry;
                 apply ensure_computed_mono, ensure_computed_self).
           rewrite setAt_other by exact Hnc. rewrite setAt_same.
           apply Hps_in.
        -- assert (Hsame : candidateList plan world
                     (mkEvalState
                        (setAt (setAt (updateList st2) p ps) c cs)
                        (queriesComputed st2) (emptyResultsArr st2)) n =
                   candidateList plan world st n).
           { unfold candidateList. simpl.
             rewrite !setAt_other by assumption.
             subst st2. rewrite !ensureComputed_computed.
             rewrite !ensureComputed_list_other by assumption.
             apply Nat.eqb_neq in Hnc, Hnp. now rewrite Hnc, Hnp. }
           rewrite Hsame.
           assert (Hn' : forall e', In e' done -> childNode e' <> n).
           { intros e' He'. apply Hn. apply in_app_iff. now left. }
           rewrite (Hdesc n Hn' x). split.
           ++ intros [H1 H2]. split; [exact H1|].
              intros e' He' Hp'. apply in_app_iff in He' as [He'|[<-|[]]].
              ** now apply H2.
              ** exfalso. now apply Hnp.
           ++ intros [H1 H2]. split; [exact H1|].
              intros e' He' Hp'. apply H2; [|exact Hp'].
              apply in_app_iff. now left.
      * exact Hne.
Qed.

End Semantics.

(** X10. What a compiled query returns, for every plan [createTreeQuery]
    returns that has at least one edge and whose filters were made by
    filter constructors: on any world and from any state of the closure,
    the call returns exactly the entities that satisfy the root node.  An
    entity satisfies a node when the store reports it for the node's query
    and, for each edge leaving the node, it is related by the edge's
    condition to some entity satisfying the edge's child node. *)
Theorem executor_semantics queryTree plan condOf :
  createTreeQuery queryTree = Returns plan ->
  edgesFlattened plan <> [] ->
  (forall e, In e (edgesFlattened plan) ->
             filter e = queryFilter (condOf e)) ->
  forall world st r,
    In r (fst (executor plan world st)) <->
    satisfies plan world condOf (rootNode plan) r.
Proof.
  intros H Hne Hconds world st r.
  pose proof (createTreeQuery_treeShaped _ _ H) as Hshape.
  unfold executor.
  apply (runEdges_semantics plan world condOf Hshape
           (fun e He parents children skip =>
              f_equal (fun f => f parents children world skip) (Hconds e He))
           (edgesFlattened plan) []).
  - reflexivity.
  - exact (tree_order _ Hshape).
  - reflexivity.
  - intros e [].
  - intros n _ x. unfold candidateList. simpl. split.
    + intros Hx. split; [exact Hx|]. intros e [].
    + now intros [Hx _].
  - exact Hne.
Qed.

(** * Flat queries *)

Ltac decide_ids :=
  repeat match goal with
         | H : ?a <> ?b |- _ =>
             lazymatch goal with
             | _ : (a =? b) = false |- _ => fail
             | _ => let E1 := fresh "Eid" in
                    let E2 := fresh "Eid" in
                    assert (E1 : (a =? b) = false)
                      by (apply Nat.eqb_neq; exact H);
                    assert (E2 : (b =? a) = false)
                      by (apply Nat.eqb_neq; intros E; apply H; now symmetry)
             end
         end.

Ltac compute_ids :=
  repeat (progress (cbn -[Nat.eqb queryFilter];
                    unfold setAt, childrenOf, getNode;
                    repeat match goal with
                           | H : (_ =? _) = false |- _ => rewrite H
                           end;
                    rewrite ?Nat.eqb_refl)).

Lemma pair_build (R1 R2 M : list Trait) (f : QueryFilter) :
  (forall i j, rnd i = rnd j -> i = j) ->
  exists a b d,
    a <> b /\
    buildQueryRecursive 4
      (map ATrait R1 ++ AFilter (FilterNode M f []) :: map ATrait R2)
      false None initialBuildState =
    Some (mkBuildState d
            [mkWipQuery a (map ATrait (R1 ++ R2)); mkWipQuery b (map ATrait M)]
            [(f, mkQueryTuple 0 1)] [1; 0] []).
Proof.
  intros Hinj.
  assert (Hne : forall i j, i <> j -> rnd i <> rnd j).
  { intros i j Hij E. apply Hij, Hinj, E. }
  rewrite buildQueryRecursive_unfold.
  unfold enter. cbn [genId alloc initialBuildState setChildQueryObjects draws heap filterWithTuple finalQueries childQueryObjects length app].
  rewrite forEachNode_app, forEachNode_root_traits.
  cbn [fst snd forEachNode].
  cbv beta iota zeta delta [genId alloc pushFinalQueries pushFilterWithTuple setChildQueryObjects draws heap filterWithTuple finalQueries childQueryObjects components childQueries nodeFilter].
  cbn [length app Nat.ltb Nat.leb orb].
  rewrite forEachNode_root_traits.
  cbn [fst snd]. rewrite map_app.
  assert (Hlen : (0 <? length (map ATrait R1 ++ AFilter (FilterNode M f []) :: map ATrait R2)) = true).
  { apply Nat.ltb_lt. rewrite length_app. simpl. lia. }
  unfold registerParent. cbn [heap deref nth wq_components]. rewrite Hlen.
  clear Hlen. generalize (map ATrait R1 ++ map ATrait R2). intros Rc.
  destruct Rc as [|x Rc]; simpl;
    do 3 eexists; (split; [|reflexivity]); apply Hne; lia.
Qed.

Lemma pair_plan (R1 R2 M : list Trait) (f : QueryFilter) :
  (forall i j, rnd i = rnd j -> i = j) ->
  exists a b,
    a <> b /\
    createTreeQuery
      (map ATrait R1 ++ AFilter (FilterNode M f []) :: map ATrait R2) =
    Returns
      (mkPlan [mkEvalEdge f a b] a
         [mkEvalNode a (Some (cacheQuery (map ATrait (R1 ++ R2))))
            [mkEvalEdge f a b];
          mkEvalNode b (Some (cacheQuery (map ATrait M))) []]).
Proof.
  intros Hinj.
  destruct (pair_build R1 R2 M f Hinj) as (a & b & d & Hab & Hbuild).
  exists a, b. split; [assumption|].
  unfold createTreeQuery.
  set (spec := map ATrait R1 ++ _ :: _) in *.
  assert (Hlen : (length spec =? 0) = false).
  { apply Nat.eqb_neq. subst spec. rewrite length_app. simpl. lia. }
  assert (Hfuel : buildFuel spec = 4).
  { unfold buildFuel. subst spec. rewrite queryDepth_app, queryDepth_traits.
    change (queryDepth (AFilter (FilterNode M f []) :: map ATrait R2))
      with (Nat.max (nodeDepth (FilterNode M f []))
              (queryDepth (map ATrait R2))).
    rewrite queryDepth_traits. reflexivity. }
  rewrite Hlen, Hfuel, Hbuild.
  cbn [filterWithTuple heap finalQueries].
  decide_ids. compute_ids. reflexivity.
Qed.

Lemma pair_execute (P : Condition) a b hR hM world st :
  a <> b ->
  let e := mkEvalEdge (queryFilter P) a b in
  let plan := mkPlan [e] a [mkEvalNode a hR [e]; mkEvalNode b hM []] in
  fst (executor plan world st) =
  List.filter (fun r => existsb (fun m => P r m world) (worldQuery world hM))
    (worldQuery world hR).
Proof.
  intros Hab e plan. decide_ids.
  unfold executor.
  set (st0 := mkEvalState (updateList st) (fun _ => false) []).
  set (Rc := worldQuery world hR). set (Mc := worldQuery world hM).
  assert (Hb : nodeQuery plan b = hM).
  { unfold nodeQuery. compute_ids. reflexivity. }
  assert (Ha : nodeQuery plan a = hR).
  { unfold nodeQuery. compute_ids. reflexivity. }
  cbn [edgesFlattened plan runEdges].
  unfold evalEdge, narrow.
  rewrite ensured_parent, ensured_child.
  cbn [filter parentNode childNode e].
  unfold candidateList. cbn [queriesComputed st0].
  rewrite Ha, Hb. fold Rc Mc.
  pose proof (queryFilter_parents P Rc Mc world (hasNoChildren plan b)) as Hps.
  pose proof (queryFilter_children_nil P Rc Mc world (hasNoChildren plan b))
    as Hcs.
  destruct (queryFilter P Rc Mc world (hasNoChildren plan b)) as [ps cs].
  simpl in Hps, Hcs. rewrite <- Hps.
  destruct ((length ps =? 0) || (length cs =? 0)) eqn:Eempty.
  - simpl. rewrite !ensureComputed_empty. simpl.
    apply orb_true_iff in Eempty as [H|H]; apply length_zero_nil in H;
      symmetry; auto.
  - simpl. rewrite setAt_other, setAt_same by congruence. reflexivity.
Qed.

(** X11. A query with one filter: root requirements [R1 ++ R2] around one
    filter node built from condition [P] over the requirements [M].  When
    the [Math.random] draws of the compilation are pairwise distinct, the
    compiled query returns the store's answer for the root requirements
    filtered, in order, by "[P] relates the entity to some entity the store
    reports for [M]". *)
Theorem single_filter_query (R1 R2 M : list Trait) (P : Condition) :
  (forall i j, rnd i = rnd j -> i = j) ->
  exists node plan,
    createTreeQueryFilter P (map ATrait M) = inr node /\
    createTreeQuery (map ATrait R1 ++ AFilter node :: map ATrait R2)
      = Returns plan /\
    forall world st,
      fst (executor plan world st) =
      List.filter
        (fun r => existsb (fun m => P r m world) (entitiesWith world M))
        (entitiesWith world (R1 ++ R2)).
Proof.
  intros Hinj.
  destruct (pair_plan R1 R2 M (queryFilter P) Hinj) as (a & b & Hab & Hplan).
  do 2 eexists.
  split; [apply createTreeQueryFilter_leaf|].
  split; [exact Hplan|].
  intros world st. apply pair_execute. exact Hab.
Qed.

Lemma sibling_build (R1 R2 R3 M1 M2 : list Trait) (f1 f2 : QueryFilter) :
  (forall i j, rnd i = rnd j -> i = j) ->
  exists a b1 b2 d,
    a <> b1 /\ a <> b2 /\ b1 <> b2 /\
    buildQueryRecursive 4
      (map ATrait R1 ++ AFilter (FilterNode M1 f1 []) ::
       map ATrait R2 ++ AFilter (FilterNode M2 f2 []) :: map ATrait R3)
      false None initialBuildState =
    Some (mkBuildState d
            [mkWipQuery a (map ATrait (R1 ++ R2 ++ R3));
             mkWipQuery b1 (map ATrait M1); mkWipQuery b2 (map ATrait M2)]
            [(f1, mkQueryTuple 0 1); (f2, mkQueryTuple 0 2)] [1; 2; 0] []).
Proof.
  intros Hinj.
  assert (Hne : forall i j, i <> j -> rnd i <> rnd j).
  { intros i j Hij E. apply Hij, Hinj, E. }
  rewrite buildQueryRecursive_unfold.
  unfold enter. cbn [genId alloc initialBuildState setChildQueryObjects draws heap filterWithTuple finalQueries childQueryObjects length app].
  rewrite forEachNode_app, forEachNode_root_traits.
  cbn [fst snd forEachNode].
  cbv beta iota zeta delta [genId alloc pushFinalQueries pushFilterWithTuple setChildQueryObjects draws heap filterWithTuple finalQueries childQueryObjects components childQueries nodeFilter].
  cbn [length app Nat.ltb Nat.leb orb].
  rewrite forEachNode_app, forEachNode_root_traits.
  cbn [fst snd forEachNode].
  cbv beta iota zeta delta [genId alloc pushFinalQueries pushFilterWithTuple setChildQueryObjects draws heap filterWithTuple finalQueries childQueryObjects components childQueries nodeFilter].
  cbn [length app Nat.ltb Nat.leb orb].
  rewrite forEachNode_root_traits.
  cbn [fst snd]. rewrite !map_app, <- app_assoc.
  match goal with |- context [registerParent 0 (length ?q)] =>
    assert (Hlen : (0 <? length q) = true)
      by (apply Nat.ltb_lt; rewrite length_app; simpl; lia);
    unfold registerParent; cbn [heap deref nth wq_components]; rewrite Hlen;
    clear Hlen
  end.
  generalize (map ATrait R1 ++ map ATrait R2 ++ map ATrait R3). intros Rc.
  destruct Rc as [|x Rc]; simpl;
    do 4 eexists;
    (split; [|split; [|split; [|reflexivity]]]); apply Hne; lia.
Qed.

Lemma sibling_plan (R1 R2 R3 M1 M2 : list Trait) (f1 f2 : QueryFilter) :
  (forall i j, rnd i = rnd j -> i = j) ->
  exists a b1 b2,
    a <> b1 /\ a <> b2 /\ b1 <> b2 /\
    createTreeQuery
      (map ATrait R1 ++ AFilter (FilterNode M1 f1 []) ::
       map ATrait R2 ++ AFilter (FilterNode M2 f2 []) :: map ATrait R3) =
    Returns
      (mkPlan [mkEvalEdge f2 a b2; mkEvalEdge f1 a b1] a
         [mkEvalNode a (Some (cacheQuery (map ATrait (R1 ++ R2 ++ R3))))
            [mkEvalEdge f1 a b1; mkEvalEdge f2 a b2];
          mkEvalNode b1 (Some (cacheQuery (map ATrait M1))) [];
          mkEvalNode b2 (Some (cacheQuery (map ATrait M2))) []]).
Proof.
  intros Hinj.
  destruct (sibling_build R1 R2 R3 M1 M2 f1 f2 Hinj)
    as (a & b1 & b2 & d & H1 & H2 & H3 & Hbuild).
  exists a, b1, b2. repeat (split; [assumption|]).
  unfold createTreeQuery.
  set (spec := map ATrait R1 ++ _ :: _) in *.
  assert (Hlen : (length spec =? 0) = false).
  { apply Nat.eqb_neq. subst spec. rewrite length_app. simpl. lia. }
  assert (Hfuel : buildFuel spec = 4).
  { unfold buildFuel. subst spec. rewrite queryDepth_app, queryDepth_traits.
    change (queryDepth (AFilter (FilterNode M1 f1 []) ::
                        map ATrait R2 ++ AFilter (FilterNode M2 f2 []) ::
                        map ATrait R3))
      with (Nat.max (nodeDepth (FilterNode M1 f1 []))
              (queryDepth (map ATrait R2 ++ AFilter (FilterNode M2 f2 []) ::
                           map ATrait R3))).
    rewrite queryDepth_app, queryDepth_traits.
    change (queryDepth (AFilter (FilterNode M2 f2 []) :: map ATrait R3))
      with (Nat.max (nodeDepth (FilterNode M2 f2 []))
              (queryDepth (map ATrait R3))).
    rewrite queryDepth_traits. reflexivity. }
  rewrite Hlen, Hfuel, Hbuild.
  cbn [filterWithTuple heap finalQueries].
  decide_ids. compute_ids. reflexivity.
Qed.

Lemma sibling_execute (P1 P2 : Condition) a b1 b2 hR h1 h2 world st :
  a <> b1 -> a <> b2 -> b1 <> b2 ->
  let e1 := mkEvalEdge (queryFilter P1) a b1 in
  let e2 := mkEvalEdge (queryFilter P2) a b2 in
  let plan := mkPlan [e2; e1] a
                [mkEvalNode a hR [e1; e2]; mkEvalNode b1 h1 [];
                 mkEvalNode b2 h2 []] in
  fst (executor plan world st) =
  List.filter
    (fun r => existsb (fun m => P1 r m world) (worldQuery world h1))
    (List.filter
       (fun r => existsb (fun m => P2 r m world) (worldQuery world h2))
       (worldQuery world hR)).
Proof.
  intros H1 H2 H3 e1 e2 plan. decide_ids.
  unfold executor.
  set (st0 := mkEvalState (updateList st) (fun _ => false) []).
  set (Rc := worldQuery world hR).
  set (M1c := worldQuery world h1). set (M2c := worldQuery world h2).
  assert (Hb1 : nodeQuery plan b1 = h1).
  { unfold nodeQuery. compute_ids. reflexivity. }
  assert (Hb2 : nodeQuery plan b2 = h2).
  { unfold nodeQuery. compute_ids. reflexivity. }
  assert (Ha : nodeQuery plan a = hR).
  { unfold nodeQuery. compute_ids. reflexivity. }
  cbn [edgesFlattened plan runEdges].
  unfold evalEdge at 1. unfold narrow.
  rewrite ensured_parent, ensured_child.
  cbn [filter parentNode childNode e2].
  unfold candidateList at 1 2. cbn [queriesComputed st0].
  rewrite Ha, Hb2. fold Rc M2c.
  pose proof (queryFilter_parents P2 Rc M2c world (hasNoChildren plan b2))
    as Hps.
  pose proof (queryFilter_children_nil P2 Rc M2c world (hasNoChildren plan b2))
    as Hcs.
  destruct (queryFilter P2 Rc M2c world (hasNoChildren plan b2)) as [ps cs].
  simpl in Hps, Hcs. rewrite <- Hps.
  set (st2 := ensureComputed plan world b2 (ensureComputed plan world a st0)).
  assert (Hnil : emptyResultsArr st2 = []).
  { subst st2. now rewrite !ensureComputed_empty. }
  assert (Hca : queriesComputed st2 a = true).
  { subst st2. apply ensure_computed_mono, ensure_computed_self. }
  assert (Hcb : queriesComputed st2 b1 = false).
  { subst st2. rewrite !ensureComputed_computed.
    repeat match goal with H : (_ =? _) = false |- _ => rewrite H end.
    reflexivity. }
  destruct ((length ps =? 0) || (length cs =? 0)) eqn:Eempty.
  - simpl. rewrite Hnil.
    assert (ps = []) as ->.
    { apply orb_true_iff in Eempty as [H|H]; apply length_zero_nil in H;
        auto. }
    reflexivity.
  - unfold evalEdge. unfold narrow.
    rewrite ensured_parent, ensured_child.
    cbn [filter parentNode childNode e1].
    unfold candidateList. cbn [queriesComputed updateList].
    rewrite Hca, Hcb, Hb1. fold M1c.
    rewrite setAt_other, setAt_same by congruence.
    pose proof (queryFilter_parents P1 ps M1c world (hasNoChildren plan b1))
      as Hps1.
    pose proof (queryFilter_children_nil P1 ps M1c world
                  (hasNoChildren plan b1)) as Hcs1.
    destruct (queryFilter P1 ps M1c world (hasNoChildren plan b1))
      as [ps1 cs1].
    simpl in Hps1, Hcs1. rewrite <- Hps1.
    destruct ((length ps1 =? 0) || (length cs1 =? 0)) eqn:Eempty1.
    + simpl. rewrite !ensureComputed_empty. simpl. rewrite Hnil.
      apply orb_true_iff in Eempty1 as [H|H]; apply length_zero_nil in H;
        symmetry; auto.
    + simpl. now rewrite setAt_other, setAt_same by congruence.
Qed.

(** X12. Sibling conjunction: root requirements interleaved with two
    filter nodes without nested filters, built from conditions [P1] over
    requirements [M1] and [P2] over requirements [M2].  When the
    [Math.random] draws of the compilation are pairwise distinct, the
    compiled query returns [r] exactly when the store reports [r] for the
    root requirements, [P1] relates [r] to some entity reported for [M1],
    and [P2] relates [r] to some entity reported for [M2]. *)
Theorem sibling_conjunction (R1 R2 R3 M1 M2 : list Trait)
    (P1 P2 : Condition) :
  (forall i j, rnd i = rnd j -> i = j) ->
  exists node1 node2 plan,
    createTreeQueryFilter P1 (map ATrait M1) = inr node1 /\
    createTreeQueryFilter P2 (map ATrait M2) = inr node2 /\
    createTreeQuery
      (map ATrait R1 ++ AFilter node1 :: map ATrait R2 ++
       AFilter node2 :: map ATrait R3) = Returns plan /\
    forall world st r,
      In r (fst (executor plan world st)) <->
      In r (entitiesWith world (R1 ++ R2 ++ R3)) /\
      (exists m, In m (entitiesWith world M1) /\ P1 r m world = true) /\
      (exists m, In m (entitiesWith world M2) /\ P2 r m world = true).
Proof.
  intros Hinj.
  destruct (sibling_plan R1 R2 R3 M1 M2 (queryFilter P1) (queryFilter P2)
              Hinj) as (a & b1 & b2 & H1 & H2 & H3 & Hplan).
  do 3 eexists.
  split; [apply createTreeQueryFilter_leaf|].
  split; [apply createTreeQueryFilter_leaf|].
  split; [exact Hplan|].
  intros world st r.
  rewrite (sibling_execute P1 P2 a b1 b2 _ _ _ world st H1 H2 H3).
  unfold entitiesWith. rewrite !filter_In, !existsb_exists. tauto.
Qed.

(** * The demonstration script *)


(** X13. The query of [main.ts],
    [createTreeQuery(Foo, Bar, NotItself(Foo, Bar))]: when the
    [Math.random] draws of the compilation are pairwise distinct, it
    returns an entity exactly when the store reports it for [Foo, Bar]
    together with some other entity.  So it returns nothing while fewer
    than two distinct entities hold both traits. *)
Theorem main_query (Foo Bar : Trait) :
  (forall i j, rnd i = rnd j -> i = j) ->
  exists node plan,
    createTreeQueryFilter NotItself [ATrait Foo; ATrait Bar] = inr node /\
    createTreeQuery [ATrait Foo; ATrait Bar; AFilter node] = Returns plan /\
    forall world st r,
      In r (fst (executor plan world st)) <->
      In r (entitiesWith world [Foo; Bar]) /\
      exists other, In other (entitiesWith world [Foo; Bar]) /\ other <> r.
Proof.
  intros Hinj.
  destruct (pair_plan [Foo; Bar] [] [Foo; Bar] (queryFilter NotItself) Hinj)
    as (a & b & Hab & Hplan).
  do 2 eexists.
  split; [apply (createTreeQueryFilter_leaf NotItself [Foo; Bar])|].
  split; [exact Hplan|].
  intros world st r.
  rewrite (pair_execute NotItself a b _ _ world st Hab).
  unfold entitiesWith. simpl app.
  rewrite filter_In, existsb_exists. unfold NotItself.
  split.
  - intros (Hr & m & Hm & Hneq). split; [exact Hr|]. exists m.
    split; [exact Hm|]. apply negb_true_iff, Nat.eqb_neq in Hneq. congruence.
  - intros (Hr & m & Hm & Hneq). split; [exact Hr|]. exists m.
    split; [exact Hm|]. apply negb_true_iff, Nat.eqb_neq. congruence.
Qed.

(** * Which filter nodes the builder compiles *)


Lemma compiledBelow_unfold n :
  compiledBelow n = childQueries n ++ continueWith (childQueries n).
Proof.
  pure. destruct n as [t f q]. simpl. f_equal.
  induction q as [|c q IH]; [reflexivity|].
  destruct c as [t' f' [|c' q']]; simpl; [exact IH|reflexivity].
Qed.

Lemma continueWith_pending l :
  continueWith l =
  match pending l with
  | [] => []
  | cs :: _ => cs ++ continueWith cs
  end.
Proof.
  pure. unfold pending. induction l as [|c l IH]; [reflexivity|].
  simpl. destruct (childQueries c) as [|c' q'] eqn:E; simpl; [exact IH|].
  now rewrite compiledBelow_unfold, E.
Qed.

Lemma filtersIn_filters (cs : list QueryFilterNode) :
  filtersIn (map AFilter cs) = cs.
Proof. pure. induction cs; simpl; congruence. Qed.

Lemma forEachNode_records query :
  forall r nextNodeFind st,
    map fst (filterWithTuple (snd (forEachNode query r nextNodeFind st))) =
      map fst (filterWithTuple st) ++ map nodeFilter (filtersIn query) /\
    map fst (childQueryObjects (snd (forEachNode query r nextNodeFind st))) =
      map fst (childQueryObjects st) ++ pending (filtersIn query).
Proof.
  unfold pending.
  induction query as [|a rest IH]; intros r nnf st.
  - simpl. now rewrite !app_nil_r.
  - destruct a as [t|n|elems]; simpl.
    + match goal with |- context [forEachNode rest r nnf ?s] =>
        destruct (IH r nnf s) as [H1 H2] end.
      rewrite H1, H2. split; reflexivity.
    + match goal with |- context [forEachNode rest r ?b ?s] =>
        destruct (IH r b s) as [H1 H2] end.
      rewrite H1, H2. clear H1 H2.
      destruct (0 <? length (childQueries n)); simpl;
        rewrite ?map_app; simpl; rewrite <- ?app_assoc; split; reflexivity.
    + match goal with |- context [forEachNode rest r nnf ?s] =>
        destruct (IH r nnf s) as [H1 H2] end.
      rewrite H1, H2. split; reflexivity.
Qed.

Lemma enter_records query found po st :
  map fst (filterWithTuple (snd (enter query found po st))) =
    map fst (filterWithTuple st) ++ map nodeFilter (filtersIn query) /\
  map fst (childQueryObjects (snd (enter query found po st))) =
    pending (filtersIn query).
Proof.
  unfold enter. destruct po as [r|]; simpl.
  - destruct (forEachNode_records query r false (setChildQueryObjects [] st))
      as [H1 H2].
    destruct (forEachNode query r false _) as [b st1]. simpl in *.
    now rewrite registerParent_tuples, registerParent_children.
  - match goal with |- context [forEachNode query ?r false ?s] =>
      destruct (forEachNode_records query r false s) as [H1 H2];
      destruct (forEachNode query r false s) as [b st1] end.
    simpl in *.
    now rewrite registerParent_tuples, registerParent_children.
Qed.

Lemma buildQueryRecursive_records :
  forall d query, queryDepth query <= d ->
  forall fuel, 2 * d + 2 <= fuel ->
  forall found po st,
    exists st', buildQueryRecursive fuel query found po st = Some st' /\
                childQueryObjects st' = [] /\
                map fst (filterWithTuple st') =
                map fst (filterWithTuple st) ++
                map nodeFilter (compiledNodes query).
Proof.
  induction d as [|d IH]; intros query Hd fuel Hfuel found po st.
  - destruct fuel as [|[|fuel]]; try lia.
    rewrite buildQueryRecursive_unfold, continueChildren_unfold.
    destruct (enter_records query found po st) as [Ht Hc].
    destruct (childQueryObjects (snd (enter query found po st)))
      as [|[cs q] l] eqn:E.
    + simpl. eexists. split; [reflexivity|]. split; [exact E|].
      unfold compiledNodes. rewrite continueWith_pending.
      simpl in Hc. rewrite <- Hc, app_nil_r. exact Ht.
    + exfalso.
      assert (H : In (cs, q) (childQueryObjects (snd (enter query found po st))))
        by (rewrite E; now left).
      apply enter_children_depth in H. lia.
  - destruct fuel as [|[|fuel]]; try lia.
    rewrite buildQueryRecursive_unfold, continueChildren_unfold.
    destruct (enter_records query found po st) as [Ht Hc].
    destruct (childQueryObjects (snd (enter query found po st)))
      as [|[cs q] l] eqn:E.
    + simpl. eexists. split; [reflexivity|]. split; [exact E|].
      unfold compiledNodes. rewrite continueWith_pending.
      simpl in Hc. rewrite <- Hc, app_nil_r. exact Ht.
    + assert (H : In (cs, q) (childQueryObjects (snd (enter query found po st))))
        by (rewrite E; now left).
      apply enter_children_depth in H. simpl nth_error. cbv iota.
      destruct (IH (map AFilter cs) ltac:(lia) fuel ltac:(lia)
                  (fst (enter query found po st)) (Some q)
                  (snd (enter query found po st))) as (st' & Hb & Hc' & Ht').
      rewrite Hb. destruct fuel as [|fuel]; [lia|].
      rewrite continueChildren_unfold, Hc'. simpl.
      eexists. split; [reflexivity|]. split; [exact Hc'|].
      rewrite Ht', Ht, <- app_assoc. f_equal. simpl in Hc.
      unfold compiledNodes.
      rewrite (continueWith_pending (filtersIn query)), <- Hc,
        filtersIn_filters, !map_app.
      reflexivity.
Qed.

(** X14. Which filter nodes get a tuple: at every level all filter nodes
    of the level, and below the level only those under the first filter node
    that has nested filter nodes.  For every specification the builder
    returns, and the filters of its tuples are, in order, the filters of
    [compiledNodes]. *)
Theorem builder_compiles queryTree :
  exists st,
    buildQueryRecursive (buildFuel queryTree) queryTree false None
      initialBuildState = Some st /\
    map fst (filterWithTuple st) = map nodeFilter (compiledNodes queryTree).
Proof.
  destruct (buildQueryRecursive_records (queryDepth queryTree) queryTree
              (le_n _) (buildFuel queryTree) (le_n _) false None
              initialBuildState) as (st & Hb & _ & Ht).
  exists st. split; [exact Hb|exact Ht].
Qed.

Lemma pushChild_edge_in p e0 nodeStore e :
  In e (storeEdges (pushChild p e0 nodeStore)) ->
  In e (storeEdges nodeStore) \/ e = e0.
Proof.
  pure. unfold storeEdges. intros H. apply in_flat_map in H as (n & Hn & He).
  apply pushChild_node in Hn as (n0 & Hn0 & _ & Hch).
  destruct (Hch e He) as [H|[H _]]; [left|now right].
  apply in_flat_map. now exists n0.
Qed.

Lemma addTuple_filters queryById h nodeStore ft e :
  In e (storeEdges (addTuple queryById h nodeStore ft)) ->
  In e (storeEdges nodeStore) \/ filter e = fst ft.
Proof.
  unfold addTuple. destruct ft as [f tuple].
  assert (Happ : forall s i q, storeEdges (s ++ [mkEvalNode i q []]) = storeEdges s).
  { intros s i q. unfold storeEdges. rewrite flat_map_app. simpl.
    now rewrite app_nil_r. }
  destruct (getNode nodeStore _); destruct (getNode _ _); intros H;
    try (apply pushChild_edge_in in H as [H| ->]; [|now right]);
    rewrite ?Happ in H; now left.
Qed.

Lemma tuples_filters queryById h tuples :
  forall nodeStore e,
    In e (storeEdges (fold_left (addTuple queryById h) tuples nodeStore)) ->
    In e (storeEdges nodeStore) \/ In (filter e) (map fst tuples).
Proof.
  induction tuples as [|ft rest IH]; intros nodeStore e H; simpl in *;
    [now left|].
  apply IH in H as [H|H]; [|right; now right].
  apply addTuple_filters in H as [H|H]; [now left|right; left; now symmetry].
Qed.

Lemma createTreeQuery_nodes queryTree plan :
  createTreeQuery queryTree = Returns plan ->
  exists st,
    buildQueryRecursive (buildFuel queryTree) queryTree false None
      initialBuildState = Some st /\
    nodes plan =
    fold_left
      (addTuple (registerQueries (heap st) (finalQueries st)) (heap st))
      (filterWithTuple st) [].
Proof.
  unfold createTreeQuery.
  destruct (length queryTree =? 0); [discriminate|].
  destruct (buildQueryRecursive _ _ _ _ _) as [st|]; [|discriminate].
  destruct (filterWithTuple st) as [|[f0 tuple0] tuples] eqn:Et; [discriminate|].
  destruct (getNode _ _); [|discriminate].
  destruct (flattenLoop _ _ _ _); [|discriminate].
  intros H. inversion H; subst plan; clear H.
  exists st. split; [reflexivity|]. cbn [nodes]. now rewrite Et.
Qed.

(** X15. Every edge of a compiled plan carries the filter of one of the
    filter nodes in [compiledNodes] of the specification; so when these
    were all made by filter constructors, so were the filters of the plan. *)
Theorem plan_filters_from_specification queryTree plan :
  createTreeQuery queryTree = Returns plan ->
  forall e, In e (edgesFlattened plan) ->
    exists n, In n (compiledNodes queryTree) /\ filter e = nodeFilter n.
Proof.
  intros H e He.
  pose proof (tree_edges _ (createTreeQuery_treeShaped _ _ H) e He) as Hs.
  destruct (createTreeQuery_nodes _ _ H) as (st & Hb & Hnodes).
  destruct (buildQueryRecursive_records (queryDepth queryTree) queryTree
              (le_n _) (buildFuel queryTree) (le_n _) false None
              initialBuildState) as (st' & Hb' & _ & Ht).
  rewrite Hb in Hb'. inversion Hb'; subst st'; clear Hb'. simpl in Ht.
  rewrite Hnodes in Hs.
  apply tuples_filters in Hs as [[]|Hs].
  rewrite Ht in Hs. apply in_map_iff in Hs as (n & Hn & Hin).
  exists n. split; [exact Hin|now symmetry].
Qed.

(** * The builder's references and ids *)


Lemma growing_bound root l n :
  growing root l n ->
  root < n /\
  forall ft, In ft l -> childRef ft < n /\ parent (snd ft) < n.
Proof.
  pure. induction 1 as [n Hr|l n f p c m G [IHr IHl] Hp Hn Hc].
  - split; [exact Hr|intros ft []].
  - split; [lia|]. intros ft Hin.
    apply in_app_iff in Hin as [Hin|[<-|[]]].
    + destruct (IHl ft Hin). lia.
    + unfold childRef. simpl. split; [lia|].
      destruct Hp as [->|Hp]; [lia|].
      apply in_map_iff in Hp as (ft' & <- & Hft').
      destruct (IHl ft' Hft'). lia.
Qed.

Lemma growing_weaken root l n :
  growing root l n -> forall m, n <= m -> growing root l m.
Proof.
  pure. induction 1 as [n Hr|l n f p c m G IH Hp Hn Hc]; intros m' Hm.
  - constructor. lia.
  - apply (growing_snoc root l n f p c m' G Hp Hn). lia.
Qed.

Lemma growing_first root l n :
  growing root l n ->
  forall ft l', l = ft :: l' -> parent (snd ft) = root.
Proof.
  pure. induction 1 as [n Hr|l n f p c m G IH Hp Hn Hc]; intros ft l' E.
  - discriminate.
  - destruct l as [|a l0]; simpl in E; inversion E; subst.
    + simpl. destruct Hp as [->|[]]. reflexivity.
    + apply (IH ft l0). reflexivity.
Qed.

Lemma modify_length r f (h : list WipQuery) :
  length (modify r f h) = length h.
Proof.
  pure. revert r. induction h as [|o h IH]; intros [|r]; simpl; auto.
Qed.

Lemma modify_same_ids r f (h : list WipQuery) :
  (forall o, wq_id (f o) = wq_id o) ->
  map wq_id (modify r f h) = map wq_id h.
Proof.
  pure. intros Hf. revert r.
  induction h as [|o h IH]; intros [|r]; simpl; auto.
  - now rewrite Hf.
  - now rewrite IH.
Qed.

Lemma modify_new_id d (h : list WipQuery) :
  forall r ks,
    map wq_id h = map rnd ks -> NoDup ks -> Forall (fun k => k < d) ks ->
    exists ks',
      map wq_id (modify r (fun o => mkWipQuery (rnd d) (wq_components o)) h)
      = map rnd ks' /\
      NoDup ks' /\ Forall (fun k => k < S d) ks' /\
      forall k, In k ks' -> k = d \/ In k ks.
Proof.
  induction h as [|o h IH]; intros r ks E N F.
  - exists ks.
    assert (F' : Forall (fun k => k < S d) ks)
      by (eapply Forall_impl; [|exact F]; simpl; intros; lia).
    destruct r; simpl; repeat split; auto.
  - destruct ks as [|k ks]; [discriminate|].
    simpl in E. inversion E as [[E1 E2]].
    inversion N as [|? ? Nk N']; subst.
    inversion F as [|? ? Fk F']; subst.
    destruct r as [|r]; simpl.
    + exists (d :: ks). simpl. split; [now rewrite E2|].
      split.
      * constructor; [|exact N']. intros Hd.
        rewrite Forall_forall in F'. specialize (F' d Hd). lia.
      * split.
        -- constructor; [lia|]. eapply Forall_impl; [|exact F'].
           simpl. intros; lia.
        -- intros x [<-|Hx]; auto.
    + destruct (IH r ks E2 N' F') as (ks' & E' & N2 & F2 & Hsub).
      exists (k :: ks'). simpl. split; [now rewrite E1, E'|].
      split.
      * constructor; [|exact N2]. intros Hk.
        destruct (Hsub k Hk) as [->|Hin]; [lia|contradiction].
      * split.
        -- constructor; [lia|exact F2].
        -- intros x [<-|Hx]; auto. destruct (Hsub x Hx); auto.
Qed.

Lemma built_setChildQueryObjects root st :
  built root st -> built root (setChildQueryObjects [] st).
Proof.
  pure. intros [B1 B2 B3 B4 B5]. split; simpl; auto. intros cs q [].
Qed.

(** One filter node of the loop. *)
Lemma built_filter_step root st r f comps final' pending' :
  built root st ->
  r = root \/ In r (map childRef (filterWithTuple st)) ->
  (forall x, In x final' <-> In x (finalQueries st) \/ x = length (heap st)) ->
  (forall cs q, In (cs, q) pending' ->
                In (cs, q) (childQueryObjects st) \/ q = length (heap st)) ->
  built root
    (mkBuildState (S (draws st))
       (heap st ++ [mkWipQuery (rnd (draws st)) comps])
       (filterWithTuple st ++ [(f, mkQueryTuple r (length (heap st)))])
       final' pending').
Proof.
  intros [(ks & E & N & F) B2 B3 B4 B5] Hr Hfinal Hpending.
  split; simpl.
  - exists (ks ++ [draws st]). rewrite !map_app, E. simpl.
    split; [reflexivity|]. split.
    + apply NoDup_rev in N. rewrite <- (rev_involutive (ks ++ _)).
      apply NoDup_rev. rewrite rev_app_distr. simpl.
      constructor; [|exact N]. rewrite <- in_rev. intros Hd.
      rewrite Forall_forall in F. specialize (F _ Hd). lia.
    + apply Forall_app. split.
      * eapply Forall_impl; [|exact F]. simpl. intros; lia.
      * constructor; [lia|constructor].
  - rewrite length_app. simpl.
    apply (growing_snoc root _ (length (heap st)) f r (length (heap st)) _
             B2 Hr); lia.
  - intros cs q Hin. rewrite map_app, in_app_iff.
    destruct (Hpending cs q Hin) as [Hold| ->].
    + left. exact (B3 cs q Hold).
    + right. now left.
  - intros ft Hin. apply Hfinal.
    apply in_app_iff in Hin as [Hin|[<-|[]]].
    + left. exact (B4 ft Hin).
    + right. reflexivity.
  - intros x Hx. rewrite length_app. simpl.
    apply Hfinal in Hx as [Hx| ->]; [|lia].
    specialize (B5 x Hx). lia.
Qed.

Lemma built_push_component root st r a :
  built root st ->
  built root
    (setHeap
       (modify r (fun o => mkWipQuery (wq_id o) (wq_components o ++ [a]))
          (heap st)) st).
Proof.
  intros [B1 B2 B3 B4 B5]. split; simpl; auto.
  - rewrite modify_same_ids by reflexivity. exact B1.
  - now rewrite modify_length.
  - intros x Hx. rewrite modify_length. exact (B5 x Hx).
Qed.

Lemma forEachNode_built root query :
  forall r nextNodeFind st,
    built root st ->
    r = root \/ In r (map childRef (filterWithTuple st)) ->
    built root (snd (forEachNode query r nextNodeFind st)) /\
    incl (finalQueries st)
      (finalQueries (snd (forEachNode query r nextNodeFind st))).
Proof.
  induction query as [|a rest IH]; intros r nnf st B Hr.
  - simpl. split; [exact B|apply incl_refl].
  - destruct a as [t|n|elems]; simpl.
    + match goal with |- context [forEachNode rest r nnf ?s] =>
        destruct (IH r nnf s) as (B' & Hincl) end;
        [now apply built_push_component|exact Hr|].
      split; [exact B'|exact Hincl].
    + match goal with |- context [forEachNode rest r ?b ?s] =>
        destruct (IH r b s) as (B' & Hincl) end.
      * destruct (0 <? length (childQueries n));
          unfold pushFilterWithTuple, setChildQueryObjects, pushFinalQueries;
          simpl; apply built_filter_step; auto.
        -- intros x. rewrite in_app_iff. simpl.
           split; [intros [H|[H|[]]]; auto|intros [H|H]; auto].
        -- intros cs q Hin. apply in_app_iff in Hin as [Hin|[Hin|[]]];
             [now left|]. inversion Hin. right. reflexivity.
        -- intros x. rewrite in_app_iff. simpl.
           split; [intros [H|[H|[]]]; auto|intros [H|H]; auto].
      * destruct Hr as [->|Hr]; [now left|right].
        destruct (0 <? length (childQueries n)); simpl;
          rewrite map_app, in_app_iff; now left.
      * split; [exact B'|].
        intros x Hx. apply Hincl.
        destruct (0 <? length (childQueries n)); simpl;
          apply in_app_iff; now left.
    + match goal with |- context [forEachNode rest r nnf ?s] =>
        destruct (IH r nnf s) as (B' & Hincl) end;
        [now apply built_push_component|exact Hr|].
      split; [exact B'|exact Hincl].
Qed.

Lemma registerParent_built root r queryLen found passed st :
  built root st -> r < length (heap st) ->
  built root (registerParent r queryLen found passed st) /\
  incl (finalQueries st)
    (finalQueries (registerParent r queryLen found passed st)).
Proof.
  intros B Hr. unfold registerParent.
  destruct ((length (wq_components (deref (heap st) r)) =? 0) &&
            (0 <? queryLen) && negb found).
  - simpl. destruct B as [(ks & E & N & F) B2 B3 B4 B5].
    destruct (modify_new_id (draws st) (heap st) r ks E N F)
      as (ks' & E' & N' & F' & _).
    split.
    + split; simpl.
      * exists ks'. auto.
      * now rewrite modify_length.
      * exact B3.
      * intros ft Hin. apply in_app_iff. left. exact (B4 ft Hin).
      * intros x Hx. rewrite modify_length.
        apply in_app_iff in Hx as [Hx|[<-|[]]]; [exact (B5 x Hx)|exact Hr].
    + intros x Hx. apply in_app_iff. now left.
  - destruct ((0 <? length (wq_components (deref (heap st) r))) &&
              negb passed).
    + split.
      * destruct B as [B1 B2 B3 B4 B5]. split; simpl; auto.
        -- intros ft Hin. apply in_app_iff. left. exact (B4 ft Hin).
        -- intros x Hx.
           apply in_app_iff in Hx as [Hx|[<-|[]]]; [exact (B5 x Hx)|exact Hr].
      * intros x Hx. simpl. apply in_app_iff. now left.
    + split; [exact B|apply incl_refl].
Qed.

Lemma forEachNode_heap_grows query :
  forall r nextNodeFind st,
    length (heap st) <=
    length (heap (snd (forEachNode query r nextNodeFind st))).
Proof.
  pure. induction query as [|a rest IH]; intros r nnf st; [apply le_n|].
  destruct a as [t|n|elems]; simpl.
  - match goal with |- context [forEachNode rest r nnf ?s] =>
      specialize (IH r nnf s) end.
    simpl in IH. now rewrite modify_length in IH.
  - match goal with |- context [forEachNode rest r ?b ?s] =>
      specialize (IH r b s) end.
    destruct (0 <? length (childQueries n)); simpl in IH;
      rewrite length_app in IH; simpl in IH; lia.
  - match goal with |- context [forEachNode rest r nnf ?s] =>
      specialize (IH r nnf s) end.
    simpl in IH. now rewrite modify_length in IH.
Qed.

(** A recursive call, whose parent object is the child of a tuple. *)
Lemma enter_built root query found r st :
  built root st ->
  In r (map childRef (filterWithTuple st)) ->
  built root (snd (enter query found (Some r) st)) /\
  incl (finalQueries st) (finalQueries (snd (enter query found (Some r) st))).
Proof.
  intros B Hr. unfold enter.
  destruct (forEachNode_built root query r false (setChildQueryObjects [] st)
              (built_setChildQueryObjects root st B) (or_intror Hr))
    as (B1 & I1).
  pose proof (forEachNode_heap_grows query r false
                (setChildQueryObjects [] st)) as Hg.
  assert (Hlt : r < length (heap st)).
  { destruct (growing_bound _ _ _ (built_tuples _ _ B)) as (_ & Hl).
    apply in_map_iff in Hr as (ft & <- & Hft). now destruct (Hl ft Hft). }
  destruct (forEachNode query r false _) as [b st1]. simpl in *.
  destruct (registerParent_built root r (length query) found true st1 B1)
    as (B2 & I2); [lia|].
  split; [exact B2|]. intros x Hx. apply I2, I1. exact Hx.
Qed.

(** The outermost call: the root object is the first one allocated, and
    it is entered in [finalQueries]. *)
Lemma enter_built_root query :
  query <> [] ->
  built 0 (snd (enter query false None initialBuildState)) /\
  In 0 (finalQueries (snd (enter query false None initialBuildState))).
Proof.
  intros Hq. unfold enter. simpl.
  set (st0 := mkBuildState 1 [mkWipQuery (rnd 0) []] [] [] []).
  assert (B0 : built 0 st0).
  { split; simpl.
    - exists [0]. split; [reflexivity|]. split.
      + constructor; [intros []|constructor].
      + constructor; [lia|constructor].
    - constructor. lia.
    - intros cs q [].
    - intros ft [].
    - intros r []. }
  destruct (forEachNode_built 0 query 0 false st0 B0 (or_introl eq_refl))
    as (B1 & I1).
  pose proof (forEachNode_heap_grows query 0 false st0) as Hg.
  destruct (forEachNode query 0 false st0) as [b st1]. simpl in *.
  destruct (registerParent_built 0 0 (length query) false false st1 B1)
    as (B2 & I2); [lia|].
  split; [exact B2|].
  unfold registerParent.
  assert (Hlen : (0 <? length query) = true).
  { destruct query; [contradiction|reflexivity]. }
  rewrite Hlen.
  destruct (length (wq_components (deref (heap st1) 0))) as [|k]; simpl.
  - apply in_app_iff. right. now left.
  - apply in_app_iff. right. now left.
Qed.

Lemma build_built root fuel :
  (forall query found r st st',
     built root st -> In r (map childRef (filterWithTuple st)) ->
     buildQueryRecursive fuel query found (Some r) st = Some st' ->
     built root st' /\ incl (finalQueries st) (finalQueries st')) /\
  (forall nextNodeFind idx st st',
     built root st ->
     continueChildren fuel nextNodeFind idx st = Some st' ->
     built root st' /\ incl (finalQueries st) (finalQueries st')).
Proof.
  induction fuel as [|fuel [IHb IHc]].
  - split; intros; discriminate.
  - split.
    + intros query found r st st' B Hr H.
      rewrite buildQueryRecursive_unfold in H.
      destruct (enter_built root query found r st B Hr) as (B1 & I1).
      destruct (IHc _ _ _ _ B1 H) as (B2 & I2).
      split; [exact B2|]. intros x Hx. apply I2, I1, Hx.
    + intros nnf idx st st' B H. rewrite continueChildren_unfold in H.
      destruct (nth_error (childQueryObjects st) idx) as [[cs q]|] eqn:En.
      * destruct (buildQueryRecursive fuel _ _ _ _) as [st1|] eqn:E;
          [|discriminate].
        apply nth_error_In in En.
        destruct (IHb _ _ _ _ _ B (built_pending _ _ B cs q En) E)
          as (B1 & I1).
        destruct (IHc _ _ _ _ B1 H) as (B2 & I2).
        split; [exact B2|]. intros x Hx. apply I2, I1, Hx.
      * inversion H; subst. split; [exact B|apply incl_refl].
Qed.

(** What holds of the builder's state when [createTreeQuery] reads it. *)
Lemma buildQueryRecursive_built queryTree st :
  queryTree <> [] ->
  buildQueryRecursive (buildFuel queryTree) queryTree false None
    initialBuildState = Some st ->
  built 0 st /\ In 0 (finalQueries st).
Proof.
  intros Hq H. unfold buildFuel in H.
  replace (2 * queryDepth queryTree + 2)
    with (S (S (2 * queryDepth queryTree))) in H by lia.
  rewrite buildQueryRecursive_unfold in H.
  destruct (enter_built_root queryTree Hq) as (B1 & I1).
  destruct (proj2 (build_built 0 _) _ _ _ _ B1 H) as (B2 & I2).
  split; [exact B2|]. apply I2, I1.
Qed.

(** * From tuples to edges *)

Lemma distinct_ids (h : list WipQuery) r c :
  NoDup (map wq_id h) -> r < length h -> c < length h ->
  wq_id (deref h r) = wq_id (deref h c) -> r = c.
Proof.
  pure. intros N Hr Hc E. unfold deref in E.
  rewrite <- !(map_nth wq_id) in E.
  apply (proj1 (NoDup_nth (map wq_id h) (wq_id (mkWipQuery 0 []))) N);
    rewrite ?length_map; auto.
Qed.

Lemma storeEdges_app nodeStore i q :
  storeEdges (nodeStore ++ [mkEvalNode i q []]) = storeEdges nodeStore.
Proof.
  pure. unfold storeEdges. rewrite flat_map_app. simpl. now rewrite app_nil_r.
Qed.

(** With distinct ids the tuple loop makes one edge per tuple. *)
Lemma tuples_edges queryById (h : list WipQuery) root :
  NoDup (map wq_id h) ->
  forall l n,
    growing root l n -> n <= length h ->
    (forall i, In i (storeIds (fold_left (addTuple queryById h) l [])) ->
               exists r, r < n /\ i = wq_id (deref h r)) /\
    Permutation (storeEdges (fold_left (addTuple queryById h) l []))
      (map (edgeOf h) l).
Proof.
  pure. intros N l n G. induction G as [n Hr|l n f p c m G IH Hp Hn Hc];
    intros Hm.
  - simpl. split; [intros i []|constructor].
  - destruct IH as (Hids & Hperm); [lia|].
    rewrite fold_left_app. simpl fold_left.
    set (store := fold_left (addTuple queryById h) l []) in *.
    assert (W : wellFormed store)
      by apply wellFormed_tuples, wellFormed_nil.
    assert (Hpn : p < n).
    { destruct (growing_bound _ _ _ G) as (Hroot & Hl).
      destruct Hp as [->|Hp]; [exact Hroot|].
      apply in_map_iff in Hp as (ft & <- & Hft). now destruct (Hl ft Hft). }
    unfold addTuple. simpl parent. simpl child.
    set (pid := wq_id (deref h p)). set (cid := wq_id (deref h c)).
    set (store1 := match getNode store pid with
                   | Some _ => store
                   | None => store ++ [mkEvalNode pid (queryById pid) []]
                   end).
    assert (Hids1 : forall i, In i (storeIds store1) ->
                              exists r, r < n /\ i = wq_id (deref h r)).
    { intros i Hi. subst store1. destruct (getNode store pid).
      - exact (Hids i Hi).
      - unfold storeIds in Hi. rewrite map_app, in_app_iff in Hi.
        destruct Hi as [Hi|[<-|[]]]; [exact (Hids i Hi)|].
        exists p. split; [exact Hpn|reflexivity]. }
    assert (Hp1 : In pid (storeIds store1)).
    { subst store1. destruct (getNode store pid) as [n0|] eqn:Eg.
      - apply getNode_some in Eg as (Hin & <-).
        unfold storeIds. now apply in_map.
      - unfold storeIds. rewrite map_app, in_app_iff. right. now left. }
    assert (W1 : wellFormed store1).
    { subst store1. destruct (getNode store pid) eqn:Eg; [exact W|].
      apply wellFormed_append; [exact W|]. now apply getNode_none. }
    assert (E1 : storeEdges store1 = storeEdges store).
    { subst store1. destruct (getNode store pid); [reflexivity|].
      apply storeEdges_app. }
    assert (Hc1 : ~ In cid (storeIds store1)).
    { intros Hin. destruct (Hids1 _ Hin) as (r & Hrn & Hr').
      assert (c = r); [|lia].
      apply (distinct_ids h); auto; lia. }
    apply getNode_none in Hc1 as Eg. rewrite Eg. split.
    + intros i Hi. rewrite pushChild_ids in Hi.
      unfold storeIds in Hi. rewrite map_app, in_app_iff in Hi.
      destruct Hi as [Hi|[<-|[]]].
      * destruct (Hids1 i Hi) as (r & Hrn & ->). exists r. split; [lia|auto].
      * exists c. split; [exact Hc|reflexivity].
    + rewrite map_app. simpl map.
      eapply Permutation_trans; [|apply Permutation_cons_append].
      eapply Permutation_trans.
      * apply pushChild_edges.
        -- apply (wf_ids _ (wellFormed_append _ cid (queryById cid) W1 Hc1)).
        -- unfold storeIds. rewrite map_app, in_app_iff. now left.
      * rewrite storeEdges_app, E1. now constructor.
Qed.

(** * The traversal reaches every edge of the store *)

(** What [createTreeQuery] returns, in terms of the builder's final state. *)
Lemma createTreeQuery_parts queryTree plan :
  createTreeQuery queryTree = Returns plan ->
  exists st f0 tuple0 tuples,
    queryTree <> [] /\
    buildQueryRecursive (buildFuel queryTree) queryTree false None
      initialBuildState = Some st /\
    filterWithTuple st = (f0, tuple0) :: tuples /\
    rootNode plan = wq_id (deref (heap st) (parent tuple0)) /\
    nodes plan =
    fold_left
      (addTuple (registerQueries (heap st) (finalQueries st)) (heap st))
      (filterWithTuple st) [].
Proof.
  unfold createTreeQuery.
  destruct queryTree as [|a rest]; [discriminate|].
  set (queryTree := a :: rest).
  change (length queryTree =? 0) with false. cbv iota.
  destruct (buildQueryRecursive _ _ _ _ _) as [st|]; [|discriminate].
  destruct (filterWithTuple st) as [|[f0 tuple0] tuples] eqn:Et; [discriminate|].
  destruct (getNode _ _); [|discriminate].
  destruct (flattenLoop _ _ _ _); [|discriminate].
  intros H. inversion H; subst plan; clear H.
  exists st, f0, tuple0, tuples.
  split; [discriminate|]. split; [reflexivity|]. split; [exact Et|].
  split; [reflexivity|]. cbn [nodes]. now rewrite Et.
Qed.

Lemma edge_in_childrenOf nodeStore e :
  wellFormed nodeStore -> In e (storeEdges nodeStore) ->
  In e (childrenOf nodeStore (parentNode e)).
Proof.
  pure. intros W He. unfold storeEdges in He.
  apply in_flat_map in He as (m & Hm & Hem).
  destruct (wf_edges _ W m e Hm Hem) as (Hp & _).
  unfold childrenOf.
  destruct (getNode nodeStore (parentNode e)) as [m'|] eqn:Eg.
  - apply getNode_some in Eg as (Hm' & Hid).
    assert (m' = m).
    { apply (NoDup_map_inj _ _ nodeId nodeStore); auto.
      - exact (wf_ids _ W).
      - congruence. }
    now subst.
  - apply getNode_none in Eg. exfalso. apply Eg. rewrite Hp.
    unfold storeIds. now apply in_map.
Qed.

(** The stack traversal records every edge below a node it pops. *)
Lemma flattenLoop_complete nodeStore root :
  wellFormed nodeStore ->
  forall fuel nodeStack seen acc result,
    (forall e, In e (storeEdges nodeStore) -> In (parentNode e) seen ->
               In e acc) ->
    (forall e, In e acc ->
               In (childNode e) seen \/ In (childNode e) nodeStack) ->
    In root seen \/ In root nodeStack ->
    flattenLoop fuel nodeStore nodeStack acc = Some result ->
    exists seen',
      (forall e, In e (storeEdges nodeStore) -> In (parentNode e) seen' ->
                 In e result) /\
      (forall e, In e result -> In (childNode e) seen') /\
      In root seen'.
Proof.
  pure. intros W.
  induction fuel as [|fuel IH]; intros stack seen acc result H1 H2 H3 H;
    [discriminate|].
  simpl in H. destruct stack as [|n rest].
  - inversion H; subst. exists seen. split; [exact H1|]. split.
    + intros e He. destruct (H2 e He) as [Hs|[]]. exact Hs.
    + destruct H3 as [Hs|[]]. exact Hs.
  - apply (IH _ (n :: seen)) in H; [exact H| | |].
    + intros e He [Hp|Hp]; apply in_app_iff.
      * right. subst n. now apply edge_in_childrenOf.
      * left. now apply H1.
    + intros e He. apply in_app_iff in He as [He|He].
      * destruct (H2 e He) as [Hs|[Hs|Hs]].
        -- left. now right.
        -- left. now left.
        -- right. apply in_app_iff. now right.
      * right. apply in_app_iff. left. rewrite <- in_rev. now apply in_map.
    + destruct H3 as [Hs|[Hs|Hs]].
      * left. now right.
      * left. now left.
      * right. apply in_app_iff. now right.
Qed.

Lemma NoDup_map_of_inj (A B : Type) (f : A -> B) (l : list A) :
  (forall x y, f x = f y -> x = y) -> NoDup l -> NoDup (map f l).
Proof.
  pure. intros Hf N. induction N as [|x l Hx N IH]; simpl; constructor; auto.
  intros Hin. apply in_map_iff in Hin as (y & E & Hy).
  apply Hf in E. subst. contradiction.
Qed.

(** Every tuple's edge is reached from the root: its parent object is the
    root object or the child object of an earlier tuple. *)
Lemma growing_reached (h : list WipQuery) root (seen : list Id)
    (store result : list EvalEdge) :
  (forall e, In e store -> In (parentNode e) seen -> In e result) ->
  (forall e, In e result -> In (childNode e) seen) ->
  In (wq_id (deref h root)) seen ->
  forall l n,
    growing root l n ->
    (forall ft, In ft l -> In (edgeOf h ft) store) ->
    forall ft, In ft l -> In (edgeOf h ft) result.
Proof.
  pure. intros H1 H2 H3 l n G.
  induction G as [n Hr|l n f p c m G IH Hp Hn Hc]; intros Hstore ft Hin.
  - destruct Hin.
  - assert (IH' : forall ft, In ft l -> In (edgeOf h ft) result).
    { apply IH. intros ft' Hft'. apply Hstore, in_app_iff. now left. }
    apply in_app_iff in Hin as [Hin|[<-|[]]]; [now apply IH'|].
    apply H1.
    + apply Hstore, in_app_iff. right. now left.
    + simpl. destruct Hp as [->|Hp]; [exact H3|].
      apply in_map_iff in Hp as (ft' & <- & Hft').
      exact (H2 _ (IH' ft' Hft')).
Qed.

(** With distinct draws the edges of the plan are the tuples of the
    builder, each with the ids its two objects have in the end. *)
Lemma createTreeQuery_edges queryTree plan :
  (forall i j, rnd i = rnd j -> i = j) ->
  createTreeQuery queryTree = Returns plan ->
  exists st,
    buildQueryRecursive (buildFuel queryTree) queryTree false None
      initialBuildState = Some st /\
    built 0 st /\
    NoDup (map wq_id (heap st)) /\
    rootNode plan = wq_id (deref (heap st) 0) /\
    Permutation (edgesFlattened plan)
      (map (edgeOf (heap st)) (filterWithTuple st)).
Proof.
  intros Hinj H.
  pose proof (createTreeQuery_treeShaped _ _ H) as T.
  destruct (createTreeQuery_returns _ _ H)
    as (W & Hroot & recorded & Hf & HE).
  destruct (createTreeQuery_parts _ _ H)
    as (st & f0 & tuple0 & tuples & Hq & Hb & Et & Hr & Hn).
  destruct (buildQueryRecursive_built _ _ Hq Hb) as (B & _).
  assert (N : NoDup (map wq_id (heap st))).
  { destruct (built_ids _ _ B) as (ks & -> & Nk & _).
    now apply NoDup_map_of_inj. }
  pose proof (built_tuples _ _ B) as G.
  assert (Hr0 : rootNode plan = wq_id (deref (heap st) 0)).
  { rewrite Hr. pose proof (growing_first _ _ _ G _ _ Et) as E0.
    simpl in E0. now rewrite E0. }
  destruct (tuples_edges (registerQueries (heap st) (finalQueries st))
              (heap st) 0 N _ _ G (le_n _)) as (_ & Hperm).
  rewrite <- Hn in Hperm.
  exists st. split; [exact Hb|]. split; [exact B|]. split; [exact N|].
  split; [exact Hr0|].
  destruct (flattenLoop_complete _ (rootNode plan) W
              (S (length (nodes plan))) [rootNode plan] [] [] recorded)
    as (seen & H1 & H2 & H3);
    [intros e _ []|intros e []|right; now left|exact Hf|].
  eapply Permutation_trans; [|exact Hperm].
  apply NoDup_Permutation.
  - exact (NoDup_map_inv _ _ (tree_children _ T)).
  - exact (NoDup_map_inv _ _ (wf_children _ W)).
  - intros e. split; [apply (tree_edges _ T)|].
    intros He. rewrite HE. apply -> in_rev.
    pose proof (Permutation_in _ Hperm He) as Hin.
    apply in_map_iff in Hin as (ft & <- & Hft).
    apply (growing_reached (heap st) 0 seen (storeEdges (nodes plan))
             recorded H1 H2) with (l := filterWithTuple st)
                                  (n := length (heap st)); auto.
    + now rewrite <- Hr0.
    + intros ft' Hft'. apply (Permutation_in _ (Permutation_sym Hperm)).
      now apply in_map.
Qed.

(** X16. With pairwise distinct [Math.random] draws no tuple of the
    builder is lost on the way to the plan: the filters on the edges of the
    compiled plan are, up to their order, the filters of the filter nodes
    in [compiledNodes] of the specification, one edge per node. *)
Theorem plan_has_edge_per_compiled_node queryTree plan :
  (forall i j, rnd i = rnd j -> i = j) ->
  createTreeQuery queryTree = Returns plan ->
  Permutation (map filter (edgesFlattened plan))
    (map nodeFilter (compiledNodes queryTree)).
Proof.
  intros Hinj H.
  destruct (createTreeQuery_edges _ _ Hinj H) as (st & Hb & _ & _ & _ & Hperm).
  destruct (buildQueryRecursive_records (queryDepth queryTree) queryTree
              (le_n _) (buildFuel queryTree) (le_n _) false None
              initialBuildState) as (st' & Hb' & _ & Hrec).
  rewrite Hb in Hb'. inversion Hb'; subst st'; clear Hb'.
  simpl in Hrec. rewrite <- Hrec.
  apply (Permutation_map filter) in Hperm.
  rewrite map_map in Hperm. exact Hperm.
Qed.

(** * Every edge of the plan is in the flattened list *)

Lemma reached_incl nodeStore nodeStore' root i :
  (forall e, In e (storeEdges nodeStore) -> In e (storeEdges nodeStore')) ->
  reached nodeStore root i -> reached nodeStore' root i.
Proof.
  pure. intros Hsub H. induction H as [|e He _ IH].
  - constructor.
  - apply reached_step; auto.
Qed.

(** The tuple loop hangs every node it stores below the root node: the
    parent object of a tuple is the root object or the child object of an
    earlier tuple, whatever ids they carry. *)
Lemma tuples_reached queryById (h : list WipQuery) root :
  forall l n,
    growing root l n ->
    (l <> [] ->
     In (wq_id (deref h root))
        (storeIds (fold_left (addTuple queryById h) l []))) /\
    (forall ft, In ft l ->
       In (wq_id (deref h (childRef ft)))
          (storeIds (fold_left (addTuple queryById h) l []))) /\
    (forall i, In i (storeIds (fold_left (addTuple queryById h) l [])) ->
       reached (fold_left (addTuple queryById h) l []) (wq_id (deref h root)) i).
Proof.
  pure. intros l n G. induction G as [n Hr|l n f p c m G IH Hp Hn Hc].
  - simpl. split; [congruence|]. split; [intros ft []|intros i []].
  - destruct IH as (IH1 & IH2 & IH3).
    rewrite fold_left_app. simpl fold_left.
    set (store := fold_left (addTuple queryById h) l []) in *.
    set (rootId := wq_id (deref h root)) in *.
    assert (W : wellFormed store)
      by apply wellFormed_tuples, wellFormed_nil.
    unfold addTuple. simpl parent. simpl child.
    set (pid := wq_id (deref h p)). set (cid := wq_id (deref h c)).
    set (store1 := match getNode store pid with
                   | Some _ => store
                   | None => store ++ [mkEvalNode pid (queryById pid) []]
                   end).
    assert (W1 : wellFormed store1).
    { subst store1. destruct (getNode store pid) eqn:Eg; [exact W|].
      apply wellFormed_append; [exact W|]. now apply getNode_none. }
    assert (E1 : storeEdges store1 = storeEdges store).
    { subst store1. destruct (getNode store pid); [reflexivity|].
      apply storeEdges_app. }
    assert (Hsub1 : forall i, In i (storeIds store) -> In i (storeIds store1)).
    { intros i Hi. subst store1. destruct (getNode store pid); [exact Hi|].
      unfold storeIds. rewrite map_app, in_app_iff. now left. }
    assert (Hp1 : In pid (storeIds store1)).
    { subst store1. destruct (getNode store pid) as [n0|] eqn:Eg.
      - apply getNode_some in Eg as (Hin & <-).
        unfold storeIds. now apply in_map.
      - unfold storeIds. rewrite map_app, in_app_iff. right. now left. }
    assert (Hpid : In pid (storeIds store) \/ (l = [] /\ pid = rootId)).
    { destruct Hp as [->|Hp].
      - destruct l as [|x l']; [right; now split|].
        left. apply IH1. discriminate.
      - left. apply in_map_iff in Hp as (ft & <- & Hft). now apply IH2. }
    assert (Hroot1 : In rootId (storeIds store1)).
    { destruct Hpid as [Hin|[_ <-]]; [|exact Hp1].
      destruct l as [|x l']; [destruct Hin|].
      apply Hsub1, IH1. discriminate. }
    assert (Hreach1 : forall i, In i (storeIds store1) ->
                                reached store1 rootId i).
    { intros i Hi.
      assert (Hold : In i (storeIds store) -> reached store1 rootId i).
      { intros Hin. apply (reached_incl store); [|now apply IH3].
        intros e He. now rewrite E1. }
      subst store1. destruct (getNode store pid) eqn:Eg; [now apply Hold|].
      unfold storeIds in Hi. rewrite map_app, in_app_iff in Hi.
      destruct Hi as [Hi|[<-|[]]]; [now apply Hold|]. simpl.
      destruct Hpid as [Hin|[_ ->]]; [|constructor].
      apply getNode_none in Eg. contradiction. }
    destruct (getNode store1 cid) as [n1|] eqn:Ec.
    + split; [intros _; exact Hroot1|]. split; [|exact Hreach1].
      intros ft Hft. apply in_app_iff in Hft as [Hft|[<-|[]]].
      * apply Hsub1. now apply IH2.
      * change (In cid (storeIds store1)).
        apply getNode_some in Ec as (Hin & <-).
        unfold storeIds. now apply in_map.
    + apply getNode_none in Ec.
      set (e := mkEvalEdge f pid cid).
      set (store2 := pushChild pid e
                       (store1 ++ [mkEvalNode cid (queryById cid) []])).
      assert (Hids2 : storeIds store2 = storeIds store1 ++ [cid]).
      { subst store2. rewrite pushChild_ids. unfold storeIds.
        now rewrite map_app. }
      assert (Hedges2 : forall x, In x (storeEdges store2) <->
                                  x = e \/ In x (storeEdges store1)).
      { intros x.
        assert (P : Permutation (storeEdges store2) (e :: storeEdges store1)).
        { subst store2. eapply Permutation_trans.
          - apply pushChild_edges.
            + exact (wf_ids _ (wellFormed_append _ cid (queryById cid) W1 Ec)).
            + unfold storeIds. rewrite map_app, in_app_iff. now left.
          - now rewrite storeEdges_app. }
        split.
        - intros Hx. apply (Permutation_in _ P) in Hx as [Hx|Hx]; auto.
        - intros Hx. apply (Permutation_in _ (Permutation_sym P)).
          destruct Hx as [->|Hx]; [now left|now right]. }
      assert (Hold2 : forall i, In i (storeIds store1) ->
                                reached store2 rootId i).
      { intros i Hi. apply (reached_incl store1); [|now apply Hreach1].
        intros x Hx. apply Hedges2. now right. }
      split; [|split].
      * intros _. rewrite Hids2. apply in_app_iff. left. exact Hroot1.
      * intros ft Hft. rewrite Hids2. apply in_app_iff.
        apply in_app_iff in Hft as [Hft|[<-|[]]].
        -- left. apply Hsub1. now apply IH2.
        -- right. now left.
      * intros i Hi. rewrite Hids2 in Hi.
        apply in_app_iff in Hi as [Hi|[<-|[]]]; [now apply Hold2|].
        apply (reached_step store2 rootId e).
        -- apply Hedges2. now left.
        -- simpl. now apply Hold2.
Qed.

(** The list of a compiled plan holds every edge of the plan's nodes, with
    no assumption on the ids. *)
Lemma plan_edges_complete queryTree plan :
  createTreeQuery queryTree = Returns plan ->
  forall e, In e (storeEdges (nodes plan)) -> In e (edgesFlattened plan).
Proof.
  intros H e He.
  destruct (createTreeQuery_returns _ _ H)
    as (W & Hhd & recorded & Hf & HE).
  destruct (createTreeQuery_parts _ _ H)
    as (st & f0 & tuple0 & tuples & Hq & Hb & Et & Hr & Hn).
  destruct (buildQueryRecursive_built _ _ Hq Hb) as (B & _).
  pose proof (built_tuples _ _ B) as G.
  assert (Hr0 : rootNode plan = wq_id (deref (heap st) 0)).
  { rewrite Hr. pose proof (growing_first _ _ _ G _ _ Et) as E0.
    simpl in E0. now rewrite E0. }
  destruct (tuples_reached (registerQueries (heap st) (finalQueries st))
              (heap st) 0 _ _ G) as (_ & _ & Hreach).
  rewrite <- Hn, <- Hr0 in Hreach.
  destruct (flattenLoop_complete _ (rootNode plan) W
              (S (length (nodes plan))) [rootNode plan] [] [] recorded)
    as (seen & H1 & H2 & H3);
    [intros x _ []|intros x []|right; now left|exact Hf|].
  assert (Hseen : forall i, reached (nodes plan) (rootNode plan) i ->
                            In i seen).
  { intros i Hi. induction Hi as [|x Hx _ IH]; [exact H3|].
    apply H2, H1; auto. }
  rewrite HE. apply -> in_rev. apply H1; [exact He|].
  apply Hseen, Hreach.
  unfold storeEdges in He. apply in_flat_map in He as (m & Hm & Hem).
  destruct (wf_edges _ W m e Hm Hem) as (-> & _).
  unfold storeIds. now apply in_map.
Qed.

Lemma above_incl (E E' : list EvalEdge) e1 e2 :
  (forall e, In e E -> In e E') -> above E e1 e2 -> above E' e1 e2.
Proof.
  pure. intros Hsub H. induction H as [e1 e2 H1 H2 Hc|e1 e2 e3 _ IH1 _ IH2].
  - apply above_next; auto.
  - now apply above_trans with e2.
Qed.

(** C4. The edge list of a compiled plan is the reversal of the list
    recorded by the stack traversal from the root node.  It holds every
    edge of the plan (every entry of the [children] of a node of the plan)
    exactly once and nothing else, and it is bottom-up: whenever an edge
    [e1] of the plan lies above an edge [e2] of the plan on a path, [e2]
    comes first in the list and [e1] later. *)
Theorem edgesFlattened_bottom_up queryTree plan :
  createTreeQuery queryTree = Returns plan ->
  (exists recorded,
     flattenLoop (S (length (nodes plan))) (nodes plan) [rootNode plan] []
     = Some recorded /\
     edgesFlattened plan = rev recorded) /\
  NoDup (edgesFlattened plan) /\
  (forall e, In e (storeEdges (nodes plan)) <-> In e (edgesFlattened plan)) /\
  forall e1 e2,
    above (storeEdges (nodes plan)) e1 e2 ->
    exists l1 l2 l3, edgesFlattened plan = l1 ++ e2 :: l2 ++ e1 :: l3.
Proof.
  intros H.
  destruct (edgesFlattened_ordered _ _ H) as (Hrec & Hnodup & Horder).
  pose proof (createTreeQuery_treeShaped _ _ H) as T.
  split; [exact Hrec|]. split; [exact Hnodup|]. split.
  - intros e. split; [apply (plan_edges_complete _ _ H)|apply (tree_edges _ T)].
  - intros e1 e2 Habove. apply Horder.
    apply (above_incl (storeEdges (nodes plan))); [|exact Habove].
    apply (plan_edges_complete _ _ H).
Qed.

(** * Ids that coincide, and the queries of the nodes *)

Lemma addTuple_collide queryById (h : list WipQuery) nodeStore ft :
  wq_id (deref h (parent (snd ft))) = wq_id (deref h (child (snd ft))) ->
  storeEdges (addTuple queryById h nodeStore ft) = storeEdges nodeStore.
Proof.
  pure. destruct ft as [f [p c]]. simpl. intros E. rewrite <- E.
  set (pid := wq_id (deref h p)).
  destruct (getNode nodeStore pid) as [n0|] eqn:Eg.
  - now rewrite Eg.
  - assert (Hin : In pid (storeIds (nodeStore ++
                                      [mkEvalNode pid (queryById pid) []]))).
    { unfold storeIds. rewrite map_app, in_app_iff. right. now left. }
    destruct (getNode_in _ _ Hin) as (n1 & ->). apply storeEdges_app.
Qed.

Lemma tuples_collide queryById (h : list WipQuery) l :
  (forall ft, In ft l ->
     wq_id (deref h (parent (snd ft))) = wq_id (deref h (child (snd ft)))) ->
  forall nodeStore,
    storeEdges (fold_left (addTuple queryById h) l nodeStore) =
    storeEdges nodeStore.
Proof.
  pure. induction l as [|ft l IH]; intros Hl nodeStore; [reflexivity|].
  simpl. rewrite IH.
  - apply addTuple_collide, Hl. now left.
  - intros ft' Hft'. apply Hl. now right.
Qed.

(** X17. [genId] does not keep the ids apart: [prevIds] is never added
    to, so equal draws give equal ids.  When all draws of a compilation
    coincide, every tuple finds its child node already stored, the plan has
    no edge, and the compiled query returns the empty list on every
    world. *)
Theorem colliding_ids_lose_filters queryTree plan :
  (forall i j, rnd i = rnd j) ->
  createTreeQuery queryTree = Returns plan ->
  edgesFlattened plan = [] /\
  forall world worlds,
    fst (executor plan world (history plan worlds)) = [].
Proof.
  intros Hsame H.
  pose proof (createTreeQuery_treeShaped _ _ H) as T.
  destruct (createTreeQuery_parts _ _ H)
    as (st & f0 & tuple0 & tuples & Hq & Hb & Et & Hr & Hn).
  destruct (buildQueryRecursive_built _ _ Hq Hb) as (B & _).
  assert (Hid : forall r, r < length (heap st) ->
                          wq_id (deref (heap st) r) = rnd 0).
  { intros r Hlt. destruct (built_ids _ _ B) as (ks & E & _).
    unfold deref. rewrite <- (map_nth wq_id).
    assert (Hin : In (nth r (map wq_id (heap st))
                        (wq_id (mkWipQuery 0 []))) (map wq_id (heap st)))
      by (apply nth_In; now rewrite length_map).
    rewrite E in Hin at 2. apply in_map_iff in Hin as (k & <- & _).
    apply Hsame. }
  assert (Hedges : storeEdges (nodes plan) = []).
  { rewrite Hn. rewrite tuples_collide; [reflexivity|].
    intros ft Hft.
    destruct (growing_bound _ _ _ (built_tuples _ _ B)) as (_ & Hl).
    destruct (Hl ft Hft) as (Hc & Hp). unfold childRef in Hc.
    now rewrite !Hid. }
  assert (HE : edgesFlattened plan = []).
  { destruct (edgesFlattened plan) as [|e E] eqn:Ee; [reflexivity|].
    pose proof (tree_edges _ T e) as Hin. rewrite Ee, Hedges in Hin.
    destruct Hin. now left. }
  split; [exact HE|].
  intros world worlds. unfold executor. rewrite HE. simpl.
  apply history_untouched_root. rewrite HE. intros [].
Qed.

Lemma growing_parent root l n :
  growing root l n ->
  forall ft, In ft l ->
    parent (snd ft) = root \/ In (parent (snd ft)) (map childRef l).
Proof.
  pure. induction 1 as [n Hr|l n f p c m G IH Hp Hn Hc]; intros ft Hin.
  - destruct Hin.
  - rewrite map_app, in_app_iff in *.
    destruct Hin as [Hin|[<-|[]]].
    + destruct (IH ft Hin); auto.
    + simpl. destruct Hp; auto.
Qed.

Lemma registerQueries_some (h : list WipQuery) final :
  forall (m : Id -> option QueryHash) i,
    (exists hash, m i = Some hash) \/
    In i (map (fun r => wq_id (deref h r)) final) ->
    exists hash,
      fold_left
        (fun m r => setAt m (wq_id (deref h r))
                      (Some (cacheQuery (wq_components (deref h r)))))
        final m i = Some hash.
Proof.
  induction final as [|r final IH]; intros m i Hi; simpl.
  - destruct Hi as [Hi|[]]. exact Hi.
  - apply IH. unfold setAt at 1.
    destruct (Nat.eqb i (wq_id (deref h r))) eqn:E.
    + left. eexists. reflexivity.
    + destruct Hi as [Hi|[Hi|Hi]]; [now left| |now right].
      apply Nat.eqb_neq in E. congruence.
Qed.

Lemma addTuple_queries queryById (h : list WipQuery) nodeStore ft :
  (forall n, In n nodeStore -> exists hash, query n = Some hash) ->
  (exists hash, queryById (wq_id (deref h (parent (snd ft)))) = Some hash) ->
  (exists hash, queryById (wq_id (deref h (child (snd ft)))) = Some hash) ->
  forall n, In n (addTuple queryById h nodeStore ft) ->
            exists hash, query n = Some hash.
Proof.
  pure. destruct ft as [f [p c]]. simpl. intros Hs Hp Hc.
  set (pid := wq_id (deref h p)) in *. set (cid := wq_id (deref h c)) in *.
  set (store1 := match getNode nodeStore pid with
                 | Some _ => nodeStore
                 | None => nodeStore ++ [mkEvalNode pid (queryById pid) []]
                 end).
  assert (H1 : forall n, In n store1 -> exists hash, query n = Some hash).
  { intros n Hn. subst store1. destruct (getNode nodeStore pid); auto.
    apply in_app_iff in Hn as [Hn|[<-|[]]]; auto. }
  destruct (getNode store1 cid); [exact H1|].
  intros n Hn. unfold pushChild in Hn.
  apply in_map_iff in Hn as (n0 & <- & Hn0).
  assert (H0 : exists hash, query n0 = Some hash).
  { apply in_app_iff in Hn0 as [Hn0|[<-|[]]]; auto. }
  destruct (Nat.eqb (nodeId n0) pid); auto.
Qed.

Lemma tuples_queries queryById (h : list WipQuery) l :
  (forall ft, In ft l ->
     (exists hash, queryById (wq_id (deref h (parent (snd ft)))) = Some hash) /\
     (exists hash, queryById (wq_id (deref h (child (snd ft)))) = Some hash)) ->
  forall nodeStore,
    (forall n, In n nodeStore -> exists hash, query n = Some hash) ->
    forall n, In n (fold_left (addTuple queryById h) l nodeStore) ->
              exists hash, query n = Some hash.
Proof.
  pure. induction l as [|ft l IH]; intros Hl nodeStore Hs; [exact Hs|].
  simpl. apply IH.
  - intros ft' Hft'. apply Hl. now right.
  - apply addTuple_queries; [exact Hs| |]; apply Hl; now left.
Qed.

(** X18. The lookups [queryById.get(id)!] of the tuple loop never yield
    [undefined]: every node of a compiled plan holds a query hash, so the
    executor hands a hash to [world.query] for both ends of every edge. *)
Theorem plan_nodes_have_queries queryTree plan :
  createTreeQuery queryTree = Returns plan ->
  (forall n, In n (nodes plan) -> exists hash, query n = Some hash) /\
  (forall e, In e (edgesFlattened plan) ->
     (exists hash, nodeQuery plan (parentNode e) = Some hash) /\
     (exists hash, nodeQuery plan (childNode e) = Some hash)).
Proof.
  intros H.
  pose proof (createTreeQuery_treeShaped _ _ H) as T.
  destruct (createTreeQuery_returns _ _ H) as (W & _).
  destruct (createTreeQuery_parts _ _ H)
    as (st & f0 & tuple0 & tuples & Hq & Hb & Et & Hr & Hn).
  destruct (buildQueryRecursive_built _ _ Hq Hb) as (B & Hroot).
  assert (Hfinal : forall r, In r (finalQueries st) ->
            exists hash, registerQueries (heap st) (finalQueries st)
                           (wq_id (deref (heap st) r)) = Some hash).
  { intros r Hin. apply registerQueries_some. right.
    apply (in_map (fun r => wq_id (deref (heap st) r))), Hin. }
  assert (Hnodes : forall n, In n (nodes plan) ->
                             exists hash, query n = Some hash).
  { rewrite Hn. apply tuples_queries; [|intros n []].
    intros ft Hft. split; apply Hfinal.
    - destruct (growing_parent _ _ _ (built_tuples _ _ B) ft Hft)
        as [->|Hp]; [exact Hroot|].
      apply in_map_iff in Hp as (ft' & <- & Hft').
      exact (built_final _ _ B ft' Hft').
    - exact (built_final _ _ B ft Hft). }
  split; [exact Hnodes|].
  assert (Hid : forall i, In i (storeIds (nodes plan)) ->
                          exists hash, nodeQuery plan i = Some hash).
  { intros i Hi. unfold nodeQuery.
    destruct (getNode_in _ _ Hi) as (n & Eg). rewrite Eg.
    apply Hnodes. now apply getNode_some in Eg. }
  intros e He. apply (tree_edges _ T) in He.
  split; apply Hid.
  - unfold storeEdges in He. apply in_flat_map in He as (m & Hm & Hem).
    destruct (wf_edges _ W m e Hm Hem) as (-> & _).
    unfold storeIds. now apply in_map.
  - now apply storeEdges_child_in.
Qed.

(** * The builder's final state, exactly *)


Lemma modify_same_components r f (h : list WipQuery) :
  (forall o, wq_components (f o) = wq_components o) ->
  map wq_components (modify r f h) = map wq_components h.
Proof.
  pure. intros Hf. revert r.
  induction h as [|o h IH]; intros [|r]; simpl; auto.
  - now rewrite Hf.
  - now rewrite IH.
Qed.

Lemma forEachNode_exact query :
  forall p nextNodeFind st,
    filterWithTuple (snd (forEachNode query p nextNodeFind st)) =
      filterWithTuple st ++
      levelTuples p (length (heap st)) (filtersIn query) /\
    childQueryObjects (snd (forEachNode query p nextNodeFind st)) =
      childQueryObjects st ++
      levelPending (length (heap st)) (filtersIn query).
Proof.
  pure. induction query as [|a rest IH]; intros p nnf st.
  - simpl. now rewrite !app_nil_r.
  - destruct a as [t|n|elems]; simpl.
    + match goal with |- context [forEachNode rest p nnf ?s] =>
        destruct (IH p nnf s) as [H1 H2] end.
      rewrite H1, H2. simpl. now rewrite modify_length.
    + match goal with |- context [forEachNode rest p ?b ?s] =>
        destruct (IH p b s) as [H1 H2] end.
      rewrite H1, H2. clear H1 H2.
      destruct (0 <? length (childQueries n)); simpl;
        rewrite length_app; simpl; rewrite Nat.add_1_r, <- ?app_assoc;
        split; reflexivity.
    + match goal with |- context [forEachNode rest p nnf ?s] =>
        destruct (IH p nnf s) as [H1 H2] end.
      rewrite H1, H2. simpl. now rewrite modify_length.
Qed.

Lemma forEachNode_filters_heap l :
  forall p nextNodeFind st,
    map wq_components
      (heap (snd (forEachNode (map AFilter l) p nextNodeFind st))) =
    map wq_components (heap st) ++ levelObjects l.
Proof.
  pure. induction l as [|c l IH]; intros p nnf st.
  - simpl. now rewrite app_nil_r.
  - simpl.
    match goal with |- context [forEachNode (map AFilter l) p ?b ?s] =>
      rewrite (IH p b s) end.
    destruct (0 <? length (childQueries c)); simpl;
      rewrite map_app, <- app_assoc; reflexivity.
Qed.

Lemma forEachNode_root_heap query :
  forall nextNodeFind st o h',
    heap st = o :: h' ->
    map wq_components (heap (snd (forEachNode query 0 nextNodeFind st))) =
    (wq_components o ++ plainIn query) ::
    map wq_components h' ++ levelObjects (filtersIn query).
Proof.
  pure. induction query as [|a rest IH]; intros nnf st o h' E.
  - simpl. now rewrite E, !app_nil_r.
  - destruct a as [t|n|elems]; simpl.
    + match goal with |- context [forEachNode rest 0 nnf ?s] =>
        rewrite (IH nnf s (mkWipQuery (wq_id o) (wq_components o ++ [ATrait t]))
                   h') end.
      * simpl. now rewrite <- app_assoc.
      * simpl. now rewrite E.
    + match goal with |- context [forEachNode rest 0 ?b ?s] =>
        rewrite (IH b s o
                   (h' ++ [mkWipQuery (rnd (draws st))
                             (map ATrait (components n))])) end.
      * rewrite map_app, <- app_assoc. reflexivity.
      * destruct (0 <? length (childQueries n)); simpl; now rewrite E.
    + match goal with |- context [forEachNode rest 0 nnf ?s] =>
        rewrite (IH nnf s
                   (mkWipQuery (wq_id o) (wq_components o ++ [AArray elems]))
                   h') end.
      * simpl. now rewrite <- app_assoc.
      * simpl. now rewrite E.
Qed.

Lemma registerParent_components r len found passed st :
  map wq_components (heap (registerParent r len found passed st)) =
  map wq_components (heap st).
Proof.
  pure. unfold registerParent.
  destruct (_ && negb found); simpl.
  - now apply modify_same_components.
  - destruct (_ && negb passed); reflexivity.
Qed.

(** A recursive call on child queries, up to its [for ... of]. *)
Lemma enter_sub_exact l found p st :
  filterWithTuple (snd (enter (map AFilter l) found (Some p) st)) =
    filterWithTuple st ++ levelTuples p (length (heap st)) l /\
  childQueryObjects (snd (enter (map AFilter l) found (Some p) st)) =
    levelPending (length (heap st)) l /\
  map wq_components (heap (snd (enter (map AFilter l) found (Some p) st))) =
    map wq_components (heap st) ++ levelObjects l.
Proof.
  pure. unfold enter.
  destruct (forEachNode_exact (map AFilter l) p false
              (setChildQueryObjects [] st)) as [H1 H2].
  pose proof (forEachNode_filters_heap l p false
                (setChildQueryObjects [] st)) as H3.
  destruct (forEachNode (map AFilter l) p false _) as [b st1].
  simpl in *. rewrite filtersIn_filters in H1, H2.
  now rewrite registerParent_tuples, registerParent_children,
    registerParent_components.
Qed.

(** The outermost call, up to its [for ... of]. *)
Lemma enter_top_exact query :
  filterWithTuple (snd (enter query false None initialBuildState)) =
    levelTuples 0 1 (filtersIn query) /\
  childQueryObjects (snd (enter query false None initialBuildState)) =
    levelPending 1 (filtersIn query) /\
  map wq_components (heap (snd (enter query false None initialBuildState))) =
    plainIn query :: levelObjects (filtersIn query).
Proof.
  pure. unfold enter. simpl.
  set (st0 := mkBuildState 1 [mkWipQuery (rnd 0) []] [] [] []).
  destruct (forEachNode_exact query 0 false st0) as [H1 H2].
  pose proof (forEachNode_root_heap query false st0 (mkWipQuery (rnd 0) []) []
                eq_refl) as H3.
  destruct (forEachNode query 0 false st0) as [b st1].
  simpl in *.
  now rewrite registerParent_tuples, registerParent_children,
    registerParent_components.
Qed.

Lemma levelComps_of_map (h : list WipQuery) l :
  forall before after base,
    length before = base ->
    map wq_components h = before ++ levelObjects l ++ after ->
    levelComps (compsOf h) base l.
Proof.
  pure. induction l as [|c l IH]; intros before after base Hb E; simpl;
    [exact I|].
  subst base. split.
  - unfold compsOf, deref.
    rewrite <- (map_nth wq_components), E. simpl. now rewrite nth_middle.
  - apply (IH (before ++ [map ATrait (components c)]) after).
    + rewrite length_app. simpl. lia.
    + rewrite E. simpl. now rewrite <- app_assoc.
Qed.

Lemma levelPending_depth base l cs q :
  In (cs, q) (levelPending base l) ->
  queryDepth (map AFilter cs) < queryDepth (map AFilter l).
Proof.
  pure. revert base. induction l as [|c l IH]; intros base H; [destruct H|].
  simpl in H. change (queryDepth (map AFilter (c :: l)))
    with (Nat.max (nodeDepth c) (queryDepth (map AFilter l))).
  destruct (0 <? length (childQueries c)).
  - destruct H as [H|H].
    + inversion H; subst. rewrite (nodeDepth_children c). lia.
    + apply IH in H. lia.
  - apply IH in H. lia.
Qed.

(** The recursive calls, exactly. *)
Lemma buildQueryRecursive_exact :
  forall d l, queryDepth (map AFilter l) <= d ->
  forall fuel, 2 * d + 2 <= fuel ->
  forall found p st,
    exists st',
      buildQueryRecursive fuel (map AFilter l) found (Some p) st = Some st' /\
      childQueryObjects st' = [] /\
      filterWithTuple st' =
        filterWithTuple st ++ spineTuples d p (length (heap st)) l /\
      (exists after,
         map wq_components (heap st') =
         map wq_components (heap st) ++ levelObjects l ++ after) /\
      spineComps (compsOf (heap st')) d (length (heap st)) l.
Proof.
  induction d as [|d IH]; intros l Hd fuel Hfuel found p st.
  - destruct fuel as [|[|fuel]]; try lia.
    rewrite buildQueryRecursive_unfold, continueChildren_unfold.
    destruct (enter_sub_exact l found p st) as (Ht & Hc & Hh).
    rewrite Hc.
    destruct (levelPending (length (heap st)) l) as [|[cs q] rest] eqn:E.
    + simpl. eexists. split; [reflexivity|]. split; [exact Hc|].
      split; [now rewrite Ht, app_nil_r|].
      split; [exists []; now rewrite app_nil_r|].
      split; [|exact I].
      apply (levelComps_of_map _ l (map wq_components (heap st)) []);
        [apply length_map|now rewrite app_nil_r].
    + exfalso.
      assert (H : In (cs, q) (levelPending (length (heap st)) l))
        by (rewrite E; now left).
      apply levelPending_depth in H. lia.
  - destruct fuel as [|[|fuel]]; try lia.
    rewrite buildQueryRecursive_unfold, continueChildren_unfold.
    destruct (enter_sub_exact l found p st) as (Ht & Hc & Hh).
    rewrite Hc.
    destruct (levelPending (length (heap st)) l) as [|[cs q] rest] eqn:E.
    + simpl. eexists. split; [reflexivity|]. split; [exact Hc|].
      split; [now rewrite Ht, E, app_nil_r|].
      split; [exists []; now rewrite app_nil_r|].
      split; [|now rewrite E].
      apply (levelComps_of_map _ l (map wq_components (heap st)) []);
        [apply length_map|now rewrite app_nil_r].
    + assert (H : In (cs, q) (levelPending (length (heap st)) l))
        by (rewrite E; now left).
      apply levelPending_depth in H. simpl nth_error. cbv iota.
      destruct (IH cs ltac:(lia) fuel ltac:(lia)
                  (fst (enter (map AFilter l) found (Some p) st)) q
                  (snd (enter (map AFilter l) found (Some p) st)))
        as (st' & Hb & Hc' & Ht' & (after & Hh') & Hs').
      rewrite Hb. destruct fuel as [|fuel]; [lia|].
      rewrite continueChildren_unfold, Hc'. simpl nth_error. cbv iota.
      assert (Hlen : length (heap (snd (enter (map AFilter l) found (Some p) st)))
                     = length (heap st) + length l).
      { rewrite <- (length_map wq_components), Hh, length_app.
        unfold levelObjects. now rewrite !length_map. }
      eexists. split; [reflexivity|]. split; [exact Hc'|].
      split; [|split].
      * rewrite Ht', Ht, <- app_assoc, Hlen. cbn [spineTuples].
        now rewrite E.
      * exists (levelObjects cs ++ after).
        rewrite Hh', Hh, <- app_assoc. reflexivity.
      * split.
        -- apply (levelComps_of_map _ l (map wq_components (heap st))
                    (levelObjects cs ++ after)); [apply length_map|].
           rewrite Hh', Hh, <- app_assoc. reflexivity.
        -- rewrite E. rewrite Hlen in Hs'. exact Hs'.
Qed.

(** The builder's final state for a specification. *)
Lemma buildQueryRecursive_final queryTree st :
  buildQueryRecursive (buildFuel queryTree) queryTree false None
    initialBuildState = Some st ->
  filterWithTuple st =
    spineTuples (queryDepth queryTree) 0 1 (filtersIn queryTree) /\
  compsOf (heap st) 0 = plainIn queryTree /\
  spineComps (compsOf (heap st)) (queryDepth queryTree) 1
    (filtersIn queryTree).
Proof.
  intros H. unfold buildFuel in H.
  replace (2 * queryDepth queryTree + 2)
    with (S (S (2 * queryDepth queryTree))) in H by lia.
  rewrite buildQueryRecursive_unfold, continueChildren_unfold in H.
  destruct (enter_top_exact queryTree) as (Ht & Hc & Hh).
  rewrite Hc in H.
  destruct (levelPending 1 (filtersIn queryTree)) as [|[cs q] rest] eqn:E.
  - simpl in H. inversion H; subst st; clear H.
    split; [|split].
    + rewrite Ht. destruct (queryDepth queryTree); simpl; rewrite ?E;
        now rewrite app_nil_r.
    + unfold compsOf, deref.
      rewrite <- (map_nth wq_components), Hh. reflexivity.
    + assert (Hl : levelComps
                     (compsOf (heap (snd (enter queryTree false None
                                            initialBuildState))))
                     1 (filtersIn queryTree)).
      { apply (levelComps_of_map _ (filtersIn queryTree)
                 [plainIn queryTree] []); [reflexivity|].
        rewrite Hh, app_nil_r. reflexivity. }
      destruct (queryDepth queryTree); (split; [exact Hl|]);
        [exact I|now rewrite E].
  - assert (Hin : In (cs, q)
                    (childQueryObjects
                       (snd (enter queryTree false None initialBuildState))))
      by (rewrite Hc; now left).
    apply enter_children_depth in Hin.
    destruct (queryDepth queryTree) as [|d] eqn:Ed; [lia|].
    simpl nth_error in H. cbv iota in H.
    destruct (buildQueryRecursive_exact d cs ltac:(lia) (2 * S d) ltac:(lia)
                (fst (enter queryTree false None initialBuildState)) q
                (snd (enter queryTree false None initialBuildState)))
      as (st' & Hb & Hc' & Ht' & (after & Hh') & Hs').
    rewrite Hb in H.
    replace (2 * S d) with (S (S (2 * d))) in H by lia.
    rewrite continueChildren_unfold, Hc' in H. simpl in H.
    inversion H; subst st'; clear H.
    assert (Hlen : length (heap (snd (enter queryTree false None
                                        initialBuildState)))
                   = 1 + length (filtersIn queryTree)).
    { rewrite <- (length_map wq_components), Hh. simpl.
      unfold levelObjects. now rewrite !length_map. }
    split; [|split; [|split]].
    + rewrite Ht', Ht, Hlen. simpl. now rewrite E.
    + unfold compsOf, deref.
      rewrite <- (map_nth wq_components), Hh', Hh. reflexivity.
    + apply (levelComps_of_map _ (filtersIn queryTree) [plainIn queryTree]
               (levelObjects cs ++ after)); [reflexivity|].
      rewrite Hh', Hh. reflexivity.
    + rewrite E. rewrite Hlen in Hs'. exact Hs'.
Qed.

(** * What a specification asks for *)


Lemma holdsBelow_unfold world condOf n x :
  holdsBelow world condOf n x =
  holdsLevel world condOf (childQueries n) true x.
Proof.
  pure. destruct n as [t f q]. simpl.
  match goal with |- ?level true = _ =>
    enough (H : forall first,
              level first = holdsLevel world condOf q first x) by apply H
  end.
  induction q as [|c q IH]; intros first; [reflexivity|].
  simpl. now rewrite IH.
Qed.

Lemma conditionOf_queryFilter condition p c world :
  conditionOf (queryFilter condition) p c world = condition p c world.
Proof.
  pure. unfold conditionOf. rewrite queryFilter_parents. simpl.
  destruct (condition p c world); reflexivity.
Qed.

Lemma scanChildren_ext condition condition' world skip p children :
  (forall c, condition p c world = condition' p c world) ->
  forall some children2,
    scanChildren condition world skip p children some children2 =
    scanChildren condition' world skip p children some children2.
Proof.
  pure. intros E. induction children as [|c children IH];
    intros some children2; [reflexivity|].
  simpl. rewrite E. destruct (condition' p c world); [|apply IH].
  destruct skip; [reflexivity|apply IH].
Qed.

Lemma queryFilter_ext condition condition' world :
  (forall p c, condition p c world = condition' p c world) ->
  forall parents children skip,
    queryFilter condition parents children world skip =
    queryFilter condition' parents children world skip.
Proof.
  pure. intros E parents children skip. unfold queryFilter.
  generalize (@nil Entity) at 1 3. generalize (@nil Entity).
  induction parents as [|p parents IH]; intros children2 parents2;
    [reflexivity|].
  simpl. rewrite (scanChildren_ext condition condition' world skip p children
                    (E p)).
  destruct (scanChildren condition' world skip p children false children2).
  apply IH.
Qed.

Lemma levelPending_refs base l cs q :
  In (cs, q) (levelPending base l) -> base <= q < base + length l.
Proof.
  pure. revert base. induction l as [|c l IH]; intros base H; [destruct H|].
  simpl in H. simpl length.
  destruct (0 <? length (childQueries c)).
  - destruct H as [H|H]; [inversion H; lia|]. apply IH in H. lia.
  - apply IH in H. lia.
Qed.

Lemma levelPending_pending base l :
  map fst (levelPending base l) = pending l.
Proof.
  pure. unfold pending. revert base.
  induction l as [|c l IH]; intros base; [reflexivity|].
  simpl. destruct (0 <? length (childQueries c)); simpl; now rewrite IH.
Qed.

Lemma levelTuples_in p base l ft :
  In ft (levelTuples p base l) <->
  exists j c, nth_error l j = Some c /\
              ft = (nodeFilter c, mkQueryTuple p (base + j)).
Proof.
  pure. revert base. induction l as [|c l IH]; intros base; simpl.
  - split; [intros []|]. intros ([|j] & c & H & _); discriminate.
  - rewrite IH. split.
    + intros [<-|(j & c' & Hj & ->)].
      * exists 0, c. rewrite Nat.add_0_r. auto.
      * exists (S j), c'. rewrite Nat.add_succ_r. auto.
    + intros ([|j] & c' & Hj & ->); simpl in Hj.
      * inversion Hj; subst. left. now rewrite Nat.add_0_r.
      * right. exists j, c'. rewrite Nat.add_succ_r. auto.
Qed.

Lemma levelComps_nth comps base l j c :
  levelComps comps base l -> nth_error l j = Some c ->
  comps (base + j) = map ATrait (components c).
Proof.
  pure. revert base j. induction l as [|c' l IH]; intros base [|j] H Hj;
    try discriminate; simpl in *.
  - inversion Hj; subst. rewrite Nat.add_0_r. tauto.
  - rewrite Nat.add_succ_r. apply (IH (S base) j); tauto.
Qed.

Lemma spineTuples_parents d :
  forall q base cs ft,
    In ft (spineTuples d q base cs) ->
    parent (snd ft) = q \/ base <= parent (snd ft).
Proof.
  pure. induction d as [|d IH]; intros q base cs ft H; simpl in H;
    apply in_app_iff in H as [H|H].
  - left. apply levelTuples_in in H as (j & c & _ & ->). reflexivity.
  - destruct H.
  - left. apply levelTuples_in in H as (j & c & _ & ->). reflexivity.
  - destruct (levelPending base cs) as [|[cs' q'] rest] eqn:E; [destruct H|].
    assert (Hq : In (cs', q') (levelPending base cs)) by (rewrite E; now left).
    apply levelPending_refs in Hq.
    apply IH in H as [H|H]; right; lia.
Qed.

Lemma queryDepth_zero l : queryDepth (map AFilter l) <= 0 -> l = [].
Proof.
  pure. destruct l as [|c l]; [reflexivity|].
  change (queryDepth (map AFilter (c :: l)))
    with (Nat.max (nodeDepth c) (queryDepth (map AFilter l))).
  rewrite (nodeDepth_children c). lia.
Qed.

Section Denotation.

Variable world : World.
Variable condOf : QueryFilterNode -> Condition.
Variable tuples : list (QueryFilter * QueryTuple).
Variable comps : Ref -> list Arg.

(** [Sat r x]: the entity [x] satisfies the node made of the object [r]. *)
Variable Sat : Ref -> Entity -> Prop.

Hypothesis Sat_unfold :
  forall r, r = 0 \/ In r (map childRef tuples) ->
  forall x,
    Sat r x <->
    In x (worldQuery world (Some (cacheQuery (comps r)))) /\
    forall ft, In ft tuples -> parent (snd ft) = r ->
      exists y, Sat (child (snd ft)) y /\
                conditionOf (fst ft) x y world = true.

(** One level: the tuples under one parent object against the filter
    nodes they were made of.  [q] is the entry the level leaves first in
    [childQueryObjects], if any. *)
Lemma level_holds x p (q : option (list QueryFilterNode * Ref)) :
  forall l b first,
    (forall c, In c l -> nodeFilter c = queryFilter (condOf c)) ->
    (forall j c, nth_error l j = Some c ->
       forall y, Sat (b + j) y <->
         In y (entitiesWith world (components c)) /\
         forall cs, q = Some (cs, b + j) ->
                    holdsLevel world condOf cs true y) ->
    (first = true -> hd_error (levelPending b l) = q) ->
    (first = false -> exists cs r, q = Some (cs, r) /\ r < b) ->
    (forall ft, In ft (levelTuples p b l) ->
       exists y, Sat (child (snd ft)) y /\
                 conditionOf (fst ft) x y world = true) <->
    holdsLevel world condOf l first x.
Proof using Type.
  clear Sat_unfold.
  induction l as [|c l IH]; intros b first Hconds Hsat Hfirst Hlater.
  - simpl. split; [auto|intros _ ft []].
  - assert (Hnested :
      forall y, (forall cs, q = Some (cs, b) ->
                            holdsLevel world condOf cs true y) <->
                (first && (0 <? length (childQueries c)) = true ->
                 holdsBelow world condOf c y)).
    { intros y. rewrite holdsBelow_unfold.
      destruct first.
      - specialize (Hfirst eq_refl). simpl in Hfirst.
        destruct (0 <? length (childQueries c)) eqn:Ek; simpl.
        + simpl in Hfirst. subst q. split.
          * intros Hq _. now apply Hq.
          * intros Hh cs E. inversion E; subst. now apply Hh.
        + split; [intros _ Hf; discriminate|].
          intros _ cs E. exfalso. rewrite E in Hfirst.
          destruct (levelPending (S b) l) as [|[cs' r] rest] eqn:Ep;
            [discriminate|].
          inversion Hfirst; subst.
          assert (Hin : In (cs, b) (levelPending (S b) l))
            by (rewrite Ep; now left).
          apply levelPending_refs in Hin. lia.
      - destruct (Hlater eq_refl) as (cs' & r & -> & Hr). simpl. split.
        + intros _ Hf. discriminate.
        + intros _ cs E. inversion E. lia. }
    assert (Htail :
      (forall ft, In ft (levelTuples p (S b) l) ->
         exists y, Sat (child (snd ft)) y /\
                   conditionOf (fst ft) x y world = true) <->
      holdsLevel world condOf l
        (first && negb (0 <? length (childQueries c))) x).
    { apply IH.
      - intros c' Hc'. apply Hconds. now right.
      - intros j c' Hj y. replace (S b + j) with (b + S j) by lia.
        now apply Hsat.
      - intros Hf. apply andb_true_iff in Hf as [-> Hk].
        apply negb_true_iff in Hk. specialize (Hfirst eq_refl).
        simpl in Hfirst. now rewrite Hk in Hfirst.
      - intros Hf. apply andb_false_iff in Hf as [->|Hk].
        + destruct (Hlater eq_refl) as (cs' & r & -> & Hr).
          exists cs', r. split; [reflexivity|lia].
        + apply negb_false_iff in Hk. destruct first.
          * specialize (Hfirst eq_refl). simpl in Hfirst.
            rewrite Hk in Hfirst. simpl in Hfirst.
            exists (childQueries c), b. split; [now symmetry|lia].
          * destruct (Hlater eq_refl) as (cs' & r & -> & Hr).
            exists cs', r. split; [reflexivity|lia]. }
    pose proof (Hsat 0 c eq_refl) as Hhead. rewrite Nat.add_0_r in Hhead.
    simpl. rewrite <- Htail. split.
    + intros Hall. split.
      * destruct (Hall _ (or_introl eq_refl)) as (y & Hy & Hc). simpl in *.
        apply Hhead in Hy as [Hy Hq]. exists y. split; [exact Hy|].
        split.
        -- rewrite (Hconds c (or_introl eq_refl)) in Hc.
           now rewrite conditionOf_queryFilter in Hc.
        -- now apply Hnested.
      * intros ft Hft. apply Hall. now right.
    + intros [(y & Hy & Hc & Hq) Hrest] ft [<-|Hft]; [|now apply Hrest].
      exists y. simpl. split.
      * apply Hhead. split; [exact Hy|]. now apply Hnested.
      * rewrite (Hconds c (or_introl eq_refl)).
        now rewrite conditionOf_queryFilter.
Qed.

(** All levels from one parent object on. *)
Lemma spine_holds :
  forall d l, queryDepth (map AFilter l) <= d ->
  forall before p base,
    tuples = before ++ spineTuples d p base l ->
    (forall ft, In ft before -> parent (snd ft) < p) ->
    p < base ->
    spineComps comps d base l ->
    (forall c, In c (l ++ continueWith l) ->
               nodeFilter c = queryFilter (condOf c)) ->
    forall x,
      (forall ft, In ft tuples -> parent (snd ft) = p ->
         exists y, Sat (child (snd ft)) y /\
                   conditionOf (fst ft) x y world = true) <->
      holdsLevel world condOf l true x.
Proof using Sat_unfold.
  induction d as [|d IH];
    intros l Hd before p base HT Hbefore Hp Hcomps Hconds x.
  - apply queryDepth_zero in Hd. subst l. simpl in HT.
    rewrite app_nil_r in HT. subst before. simpl. split; [auto|].
    intros _ ft Hft E. specialize (Hbefore ft Hft). lia.
  - cbn [spineTuples] in HT. destruct Hcomps as [Hlevel Hbelow].
    set (rest := match levelPending base l with
                 | [] => []
                 | (cs, q) :: _ => spineTuples d q (base + length l) cs
                 end) in *.
    assert (Hrest : forall ft, In ft rest ->
              (exists cs q more, levelPending base l = (cs, q) :: more /\
                                 parent (snd ft) = q) \/
              base + length l <= parent (snd ft)).
    { intros ft Hft. subst rest.
      destruct (levelPending base l) as [|[cs q] more]; [destruct Hft|].
      apply spineTuples_parents in Hft as [Hft|Hft]; [left|now right].
      exists cs, q, more. auto. }
    assert (Hhead : forall cs q more,
              levelPending base l = (cs, q) :: more ->
              base <= q < base + length l).
    { intros cs q more E. apply (levelPending_refs base l cs q).
      rewrite E. now left. }
    assert (Hparent : forall ft, In ft tuples -> parent (snd ft) = p ->
                                 In ft (levelTuples p base l)).
    { intros ft Hft E. rewrite HT in Hft.
      apply in_app_iff in Hft as [Hft|Hft];
        [specialize (Hbefore ft Hft); lia|].
      apply in_app_iff in Hft as [Hft|Hft]; [exact Hft|].
      exfalso. destruct (Hrest ft Hft) as [(cs & q & more & Eq & Hq)|Hq].
      - apply Hhead in Eq. lia.
      - lia. }
    assert (Hlevel_in : forall ft, In ft (levelTuples p base l) ->
                                   In ft tuples /\ parent (snd ft) = p).
    { intros ft Hft. split.
      - rewrite HT. apply in_app_iff. right. apply in_app_iff. now left.
      - apply levelTuples_in in Hft as (j & c & _ & ->). reflexivity. }
    transitivity
      (forall ft, In ft (levelTuples p base l) ->
         exists y, Sat (child (snd ft)) y /\
                   conditionOf (fst ft) x y world = true).
    { split.
      - intros Hall ft Hft. destruct (Hlevel_in ft Hft). now apply Hall.
      - intros Hall ft Hft E. apply Hall. now apply Hparent. }
    apply (level_holds x p (hd_error (levelPending base l))).
    + intros c Hc. apply Hconds, in_app_iff. now left.
    + intros j c Hj y.
      assert (Hjlen : j < length l)
        by (apply nth_error_Some; rewrite Hj; discriminate).
      assert (Hchild : In (base + j) (map childRef tuples)).
      { apply in_map_iff. exists (nodeFilter c, mkQueryTuple p (base + j)).
        split; [reflexivity|]. apply Hlevel_in, levelTuples_in.
        exists j, c. auto. }
      rewrite (Sat_unfold (base + j) (or_intror Hchild) y).
      rewrite (levelComps_nth comps base l j c Hlevel Hj).
      apply and_iff_compat_l.
      destruct (levelPending base l) as [|[cs q] more] eqn:Ep.
      * simpl. split; [intros _ cs E; discriminate|].
        intros _ ft Hft E. exfalso. rewrite HT in Hft.
        apply in_app_iff in Hft as [Hft|Hft];
          [specialize (Hbefore ft Hft); lia|].
        apply in_app_iff in Hft as [Hft|Hft]; [|destruct Hft].
        apply levelTuples_in in Hft as (j' & c' & _ & ->). simpl in E. lia.
      * pose proof (Hhead cs q more eq_refl) as Hq. simpl hd_error.
        destruct (Nat.eq_dec q (base + j)) as [Eq|Nq].
        -- subst q.
           assert (Hsub : holdsLevel world condOf cs true y <->
                          forall ft, In ft tuples ->
                            parent (snd ft) = base + j ->
                            exists y', Sat (child (snd ft)) y' /\
                              conditionOf (fst ft) y y' world = true).
           { symmetry.
             apply (IH cs) with (before := before ++ levelTuples p base l)
                                (base := base + length l).
             - assert (Hin : In (cs, base + j) (levelPending base l))
                 by (rewrite Ep; now left).
               apply levelPending_depth in Hin. lia.
             - rewrite HT, <- app_assoc. reflexivity.
             - intros ft Hft. apply in_app_iff in Hft as [Hft|Hft].
               + specialize (Hbefore ft Hft). lia.
               + apply levelTuples_in in Hft as (j' & c' & _ & ->).
                 simpl. lia.
             - lia.
             - exact Hbelow.
             - intros c' Hc'. apply Hconds. apply in_app_iff. right.
               rewrite continueWith_pending,
                 <- (levelPending_pending base l), Ep.
               exact Hc'. }
           split.
           ++ intros Hall cs' E. inversion E; subst. now apply Hsub.
           ++ intros Hall. apply Hsub. now apply Hall.
        -- split; [intros _ cs' E; inversion E; lia|].
           intros _ ft Hft E. exfalso. rewrite HT in Hft.
           apply in_app_iff in Hft as [Hft|Hft];
             [specialize (Hbefore ft Hft); lia|].
           apply in_app_iff in Hft as [Hft|Hft].
           ++ apply levelTuples_in in Hft as (j' & c' & _ & ->).
              simpl in E. lia.
           ++ destruct (Hrest ft Hft)
                as [(cs' & q' & more' & Eq & Hq')|Hq'].
              ** inversion Eq; subst. lia.
              ** lia.
    + intros _. reflexivity.
    + discriminate.
Qed.

End Denotation.

(** * The queries of the nodes, and the semantics of a compiled query *)

Lemma registerQueries_fold (h : list WipQuery) r :
  NoDup (map wq_id h) -> r < length h ->
  forall final (m : Id -> option QueryHash),
    (forall r', In r' final -> r' < length h) ->
    m (wq_id (deref h r)) = Some (cacheQuery (wq_components (deref h r))) \/
    In r final ->
    fold_left
      (fun m r => setAt m (wq_id (deref h r))
                    (Some (cacheQuery (wq_components (deref h r)))))
      final m (wq_id (deref h r))
    = Some (cacheQuery (wq_components (deref h r))).
Proof.
  intros N Hr. induction final as [|r0 final IH]; intros m Hb Hm; simpl.
  - destruct Hm as [Hm|[]]. exact Hm.
  - apply IH; [intros r' Hr'; apply Hb; now right|].
    destruct (Nat.eq_dec r r0) as [<-|Hne].
    + left. apply setAt_same.
    + destruct Hm as [Hm|[Hm|Hm]]; [|congruence|now right].
      left. rewrite setAt_other; [exact Hm|].
      intros E. apply Hne. apply (distinct_ids h); auto.
      apply Hb. now left.
Qed.

Lemma addTuple_node_queries queryById (h : list WipQuery) nodeStore ft :
  (forall n, In n nodeStore -> query n = queryById (nodeId n)) ->
  forall n, In n (addTuple queryById h nodeStore ft) ->
            query n = queryById (nodeId n).
Proof.
  pure. destruct ft as [f [p c]]. simpl. intros Hs.
  set (pid := wq_id (deref h p)). set (cid := wq_id (deref h c)).
  set (store1 := match getNode nodeStore pid with
                 | Some _ => nodeStore
                 | None => nodeStore ++ [mkEvalNode pid (queryById pid) []]
                 end).
  assert (H1 : forall n, In n store1 -> query n = queryById (nodeId n)).
  { intros n Hn. subst store1. destruct (getNode nodeStore pid); auto.
    apply in_app_iff in Hn as [Hn|[<-|[]]]; auto. }
  destruct (getNode store1 cid); [exact H1|].
  intros n Hn. unfold pushChild in Hn.
  apply in_map_iff in Hn as (n0 & <- & Hn0).
  assert (H0 : query n0 = queryById (nodeId n0)).
  { apply in_app_iff in Hn0 as [Hn0|[<-|[]]]; auto. }
  destruct (Nat.eqb (nodeId n0) pid); auto.
Qed.

Lemma tuples_node_queries queryById (h : list WipQuery) l :
  forall nodeStore,
    (forall n, In n nodeStore -> query n = queryById (nodeId n)) ->
    forall n, In n (fold_left (addTuple queryById h) l nodeStore) ->
              query n = queryById (nodeId n).
Proof.
  pure. induction l as [|ft l IH]; intros nodeStore Hs; [exact Hs|].
  simpl. apply IH. now apply addTuple_node_queries.
Qed.

(** With distinct draws the node made of a query object carries the hash
    of that object's components. *)
Lemma createTreeQuery_node_queries queryTree plan st :
  (forall i j, rnd i = rnd j -> i = j) ->
  createTreeQuery queryTree = Returns plan ->
  buildQueryRecursive (buildFuel queryTree) queryTree false None
    initialBuildState = Some st ->
  forall r, r = 0 \/ In r (map childRef (filterWithTuple st)) ->
    nodeQuery plan (wq_id (deref (heap st) r)) =
    Some (cacheQuery (compsOf (heap st) r)).
Proof.
  intros Hinj H Hb r Hr.
  pose proof (createTreeQuery_treeShaped _ _ H) as T.
  destruct (createTreeQuery_returns _ _ H) as (W & Hhd & _).
  destruct (createTreeQuery_parts _ _ H)
    as (st' & f0 & tuple0 & tuples & Hq & Hb' & Et & _ & Hn).
  rewrite Hb in Hb'. inversion Hb'; subst st'; clear Hb'.
  destruct (createTreeQuery_edges _ _ Hinj H)
    as (st' & Hb' & B & N & Hroot & Hperm).
  rewrite Hb in Hb'. inversion Hb'; subst st'; clear Hb'.
  destruct (buildQueryRecursive_built _ _ Hq Hb) as (_ & Hfinal0).
  assert (Hfinal : In r (finalQueries st)).
  { destruct Hr as [->|Hr]; [exact Hfinal0|].
    apply in_map_iff in Hr as (ft & <- & Hft).
    exact (built_final _ _ B ft Hft). }
  assert (Hin : In (wq_id (deref (heap st) r)) (storeIds (nodes plan))).
  { destruct Hr as [->|Hr].
    - rewrite <- Hroot. destruct (storeIds (nodes plan)); inversion Hhd.
      now left.
    - apply in_map_iff in Hr as (ft & <- & Hft).
      apply (storeEdges_child_in _ (edgeOf (heap st) ft) W).
      apply (tree_edges _ T).
      apply (Permutation_in _ (Permutation_sym Hperm)). now apply in_map. }
  unfold nodeQuery. destruct (getNode_in _ _ Hin) as (n & Eg). rewrite Eg.
  apply getNode_some in Eg as (Hn_in & Hid).
  rewrite Hn in Hn_in.
  rewrite (tuples_node_queries _ _ _ [] (fun n H => match H with end) n Hn_in).
  rewrite Hid. unfold registerQueries, compsOf.
  apply registerQueries_fold; auto.
  - exact (built_final_bound _ _ B r Hfinal).
  - exact (built_final_bound _ _ B).
Qed.

(** The call of a compiled query with at least one edge returns the
    entities that satisfy the root node, when every filter of the plan acts
    on this world as the filter made of [condOf]. *)
Lemma executor_satisfies queryTree plan (condOf : EvalEdge -> Condition)
    world st r :
  createTreeQuery queryTree = Returns plan ->
  edgesFlattened plan <> [] ->
  (forall e, In e (edgesFlattened plan) ->
     forall parents children skip,
       filter e parents children world skip =
       queryFilter (condOf e) parents children world skip) ->
  In r (fst (executor plan world st)) <->
  satisfies plan world condOf (rootNode plan) r.
Proof.
  intros H Hne Hconds.
  pose proof (createTreeQuery_treeShaped _ _ H) as T.
  unfold executor.
  apply (runEdges_semantics plan world condOf T Hconds
           (edgesFlattened plan) []).
  - reflexivity.
  - exact (tree_order _ T).
  - reflexivity.
  - intros e [].
  - intros n _ x. unfold candidateList. simpl. split.
    + intros Hx. split; [exact Hx|]. intros e [].
    + now intros [Hx _].
  - exact Hne.
Qed.

(** With distinct draws a compiled plan has edges, and each of them
    carries the filter of a compiled filter node. *)
Lemma plan_edges_compiled queryTree plan :
  (forall i j, rnd i = rnd j -> i = j) ->
  createTreeQuery queryTree = Returns plan ->
  edgesFlattened plan <> [] /\
  forall e, In e (edgesFlattened plan) ->
    exists n, In n (compiledNodes queryTree) /\ filter e = nodeFilter n.
Proof.
  intros Hinj H.
  destruct (createTreeQuery_edges _ _ Hinj H)
    as (st & Hb & B & N & Hroot & Hperm).
  destruct (buildQueryRecursive_records (queryDepth queryTree) queryTree
              (le_n _) (buildFuel queryTree) (le_n _) false None
              initialBuildState) as (st' & Hb' & _ & Hrec).
  rewrite Hb in Hb'. inversion Hb'; subst st'; clear Hb'.
  simpl in Hrec. split.
  - intros E. rewrite E in Hperm. apply Permutation_nil in Hperm.
    destruct (createTreeQuery_parts _ _ H)
      as (st' & f0 & tuple0 & tuples & _ & Hb' & Et & _).
    rewrite Hb in Hb'. inversion Hb'; subst st'.
    rewrite Et in Hperm. discriminate.
  - intros e He. apply (Permutation_in _ Hperm) in He.
    apply in_map_iff in He as (ft & <- & Hft). simpl.
    assert (Hin : In (fst ft) (map nodeFilter (compiledNodes queryTree)))
      by (rewrite <- Hrec; now apply in_map).
    apply in_map_iff in Hin as (n & <- & Hn). exists n. auto.
Qed.

(** The filters of a plan made of constructor-made filter nodes act as the
    filters made of the conditions read off them. *)
Lemma plan_edges_conditions queryTree plan
    (condOf : QueryFilterNode -> Condition) world :
  (forall i j, rnd i = rnd j -> i = j) ->
  createTreeQuery queryTree = Returns plan ->
  (forall n, In n (compiledNodes queryTree) ->
             nodeFilter n = queryFilter (condOf n)) ->
  forall e, In e (edgesFlattened plan) ->
    forall parents children skip,
      filter e parents children world skip =
      queryFilter (conditionOf (filter e)) parents children world skip.
Proof.
  intros Hinj H Hconds e He parents children skip.
  destruct (plan_edges_compiled _ _ Hinj H) as (_ & Hall).
  destruct (Hall e He) as (n & Hn & ->).
  rewrite (Hconds n Hn). apply queryFilter_ext.
  intros p c. now rewrite conditionOf_queryFilter.
Qed.

(** What the root node of a compiled plan stands for. *)
Lemma plan_denotes queryTree plan
    (condOf : QueryFilterNode -> Condition) world r :
  (forall i j, rnd i = rnd j -> i = j) ->
  createTreeQuery queryTree = Returns plan ->
  (forall n, In n (compiledNodes queryTree) ->
             nodeFilter n = queryFilter (condOf n)) ->
  satisfies plan world (fun e => conditionOf (filter e)) (rootNode plan) r <->
  In r (worldQuery world (Some (cacheQuery (plainIn queryTree)))) /\
  holdsLevel world condOf (filtersIn queryTree) true r.
Proof.
  intros Hinj H Hconds.
  destruct (createTreeQuery_edges _ _ Hinj H)
    as (st & Hb & B & N & Hroot & Hperm).
  destruct (buildQueryRecursive_final _ _ Hb) as (HT & Hc0 & Hcomps).
  set (condE := fun e : EvalEdge => conditionOf (filter e)).
  assert (Hedge : forall e, In e (edgesFlattened plan) <->
                            exists ft, In ft (filterWithTuple st) /\
                                       e = edgeOf (heap st) ft).
  { intros e. split.
    - intros He. apply (Permutation_in _ Hperm) in He.
      apply in_map_iff in He as (ft & <- & Hft). exists ft. auto.
    - intros (ft & Hft & ->).
      apply (Permutation_in _ (Permutation_sym Hperm)). now apply in_map. }
  rewrite Hroot.
  set (Sat := fun (ref : Ref) (y : Entity) =>
                satisfies plan world condE (wq_id (deref (heap st) ref)) y).
  assert (Hbound : forall ft, In ft (filterWithTuple st) ->
                     childRef ft < length (heap st) /\
                     parent (snd ft) < length (heap st))
    by apply (growing_bound _ _ _ (built_tuples _ _ B)).
  assert (Hunfold :
    forall ref, ref = 0 \/ In ref (map childRef (filterWithTuple st)) ->
    forall x,
      Sat ref x <->
      In x (worldQuery world (Some (cacheQuery (compsOf (heap st) ref)))) /\
      forall ft, In ft (filterWithTuple st) -> parent (snd ft) = ref ->
        exists y, Sat (child (snd ft)) y /\
                  conditionOf (fst ft) x y world = true).
  { intros ref Href x. unfold Sat.
    pose proof (createTreeQuery_node_queries _ _ _ Hinj H Hb ref Href) as Hq.
    assert (Hlt : ref < length (heap st)).
    { destruct Href as [->|Href].
      - now destruct (growing_bound _ _ _ (built_tuples _ _ B)).
      - apply in_map_iff in Href as (ft & <- & Hft).
        now destruct (Hbound ft Hft). }
    split.
    - intros Hs. inversion Hs as [n x' H1 H2]; subst.
      rewrite Hq in H1. split; [exact H1|].
      intros ft Hft Ep.
      destruct (H2 (edgeOf (heap st) ft)) as (y & Hy & Hc).
      + apply Hedge. exists ft. auto.
      + simpl. now rewrite Ep.
      + exists y. split; [exact Hy|exact Hc].
    - intros [H1 H2]. constructor; [now rewrite Hq|].
      intros e He Ep. apply Hedge in He as (ft & Hft & ->).
      simpl in Ep.
      assert (Eref : parent (snd ft) = ref).
      { apply (distinct_ids (heap st)); auto. now destruct (Hbound ft Hft). }
      destruct (H2 ft Hft Eref) as (y & Hy & Hc).
      exists y. split; [exact Hy|exact Hc]. }
  change (satisfies plan world condE (wq_id (deref (heap st) 0)) r)
    with (Sat 0 r).
  rewrite (Hunfold 0 (or_introl eq_refl) r), Hc0.
  apply and_iff_compat_l.
  apply (spine_holds world condOf (filterWithTuple st) (compsOf (heap st))
           Sat Hunfold (queryDepth queryTree) (filtersIn queryTree))
    with (before := []) (base := 1).
  - clear. unfold queryDepth.
    induction queryTree as [|a q IH]; [apply le_n|].
    destruct a; simpl; lia.
  - exact HT.
  - intros ft [].
  - lia.
  - exact Hcomps.
  - exact Hconds.
Qed.

(** X19. What a compiled query computes, for every specification.  With
    pairwise distinct [Math.random] draws and filter nodes made by filter
    constructors, the query function returns, on any world and from any
    state of the closure, exactly the entities that the store reports for
    the plain elements of the specification and that meet its filter nodes
    in the sense of [holdsLevel]: all filter nodes of the top level, and
    below a level only the child queries of its first filter node with
    child queries. *)
Theorem createTreeQuery_semantics queryTree plan
    (condOf : QueryFilterNode -> Condition) :
  (forall i j, rnd i = rnd j -> i = j) ->
  createTreeQuery queryTree = Returns plan ->
  (forall n, In n (compiledNodes queryTree) ->
             nodeFilter n = queryFilter (condOf n)) ->
  forall world st r,
    In r (fst (executor plan world st)) <->
    In r (worldQuery world (Some (cacheQuery (plainIn queryTree)))) /\
    holdsLevel world condOf (filtersIn queryTree) true r.
Proof.
  intros Hinj H Hconds world st r.
  destruct (plan_edges_compiled _ _ Hinj H) as (Hne & _).
  rewrite (executor_satisfies queryTree plan
             (fun e => conditionOf (filter e)) world st r H Hne
             (plan_edges_conditions _ _ condOf world Hinj H Hconds)).
  now apply plan_denotes.
Qed.

(** * Specifications the builder compiles in full *)


Lemma meetsBelow_unfold world condOf n x :
  meetsBelow world condOf n x = meetsLevel world condOf (childQueries n) x.
Proof.
  pure. destruct n as [t f q]. simpl.
  induction q as [|c q IH]; [reflexivity|].
  simpl. now rewrite IH.
Qed.

Lemma singleSpine_unfold n :
  singleSpine n = singleSpineLevel (childQueries n) true.
Proof.
  pure. destruct n as [t f q]. simpl.
  match goal with |- ?level true = _ =>
    enough (H : forall free, level free = singleSpineLevel q free) by apply H
  end.
  induction q as [|c q IH]; intros free; [reflexivity|].
  simpl. now rewrite IH.
Qed.

(** On such specifications what the builder compiles is the nested
    existential reading. *)
Lemma holdsLevel_meetsLevel world condOf :
  forall d l, queryDepth (map AFilter l) <= d ->
  forall first x,
    singleSpineLevel l first = true ->
    (holdsLevel world condOf l first x <-> meetsLevel world condOf l x).
Proof.
  pure. induction d as [|d IH]; intros l Hd.
  - apply queryDepth_zero in Hd. subst l. intros first x _. reflexivity.
  - induction l as [|c l IHl]; intros first x Hs; [reflexivity|].
    change (queryDepth (map AFilter (c :: l)))
      with (Nat.max (nodeDepth c) (queryDepth (map AFilter l))) in Hd.
    rewrite (nodeDepth_children c) in Hd.
    simpl in Hs. apply andb_true_iff in Hs as [Hc Hl].
    simpl. rewrite (IHl ltac:(lia) _ x Hl).
    apply and_iff_compat_r.
    assert (Hy : forall y,
              (first && (0 <? length (childQueries c)) = true ->
               holdsBelow world condOf c y) <->
              meetsBelow world condOf c y).
    { intros y. rewrite holdsBelow_unfold, meetsBelow_unfold.
      destruct (0 <? length (childQueries c)) eqn:Ek.
      - apply andb_true_iff in Hc as [-> Hc]. simpl.
        rewrite singleSpine_unfold in Hc.
        rewrite (IH (childQueries c) ltac:(lia) true y Hc). tauto.
      - apply Nat.ltb_ge in Ek.
        destruct (childQueries c); [|simpl in Ek; lia].
        rewrite andb_false_r. simpl. split; [auto|intros _ Hf; discriminate]. }
    split; intros (y & H1 & H2 & H3); exists y;
      (split; [exact H1|split; [exact H2|now apply Hy]]).
Qed.

(** X20. Specifications in which, at every level the builder reaches, at
    most one filter node has child queries are compiled in full: with
    pairwise distinct draws and constructor-made filter nodes the query
    function returns exactly the entities that the store reports for the
    plain elements and that meet every filter node at every depth, in the
    nested existential reading. *)
Theorem createTreeQuery_single_spine queryTree plan
    (condOf : QueryFilterNode -> Condition) :
  (forall i j, rnd i = rnd j -> i = j) ->
  createTreeQuery queryTree = Returns plan ->
  (forall n, In n (compiledNodes queryTree) ->
             nodeFilter n = queryFilter (condOf n)) ->
  singleSpineLevel (filtersIn queryTree) true = true ->
  forall world st r,
    In r (fst (executor plan world st)) <->
    In r (worldQuery world (Some (cacheQuery (plainIn queryTree)))) /\
    meetsLevel world condOf (filtersIn queryTree) r.
Proof.
  intros Hinj H Hconds Hspine world st r.
  destruct (plan_edges_compiled _ _ Hinj H) as (Hne & _).
  rewrite (executor_satisfies queryTree plan
             (fun e => conditionOf (filter e)) world st r H Hne
             (plan_edges_conditions _ _ condOf world Hinj H Hconds)).
  rewrite (plan_denotes queryTree plan condOf world r Hinj H Hconds).
  apply and_iff_compat_l.
  now apply (holdsLevel_meetsLevel world condOf
               (queryDepth (map AFilter (filtersIn queryTree)))).
Qed.


(** * The result as a list *)

(** The list a compiled query returns is the store's answer for the plain
    elements, filtered. *)
Lemma executor_exact queryTree plan
    (condOf : QueryFilterNode -> Condition) :
  (forall i j, rnd i = rnd j -> i = j) ->
  createTreeQuery queryTree = Returns plan ->
  (forall n, In n (compiledNodes queryTree) ->
             nodeFilter n = queryFilter (condOf n)) ->
  forall world st,
    exists keep,
      fst (executor plan world st) =
      List.filter keep
        (worldQuery world (Some (cacheQuery (plainIn queryTree)))) /\
      forall x,
        In x (worldQuery world (Some (cacheQuery (plainIn queryTree)))) ->
        (keep x = true <->
         holdsLevel world condOf (filtersIn queryTree) true x).
Proof.
  intros Hinj H Hconds world st.
  pose proof (createTreeQuery_treeShaped _ _ H) as T.
  destruct (plan_edges_compiled _ _ Hinj H) as (Hne & Hall).
  destruct (createTreeQuery_edges _ _ Hinj H)
    as (st' & Hb & B & N & Hroot & Hperm).
  destruct (buildQueryRecursive_final _ _ Hb) as (_ & Hc0 & _).
  pose proof (createTreeQuery_node_queries _ _ _ Hinj H Hb 0
                (or_introl eq_refl)) as Hq.
  rewrite <- Hroot, Hc0 in Hq.
  assert (Hform : exists keep,
            fst (executor plan world st) =
            List.filter keep
              (worldQuery world (nodeQuery plan (rootNode plan)))).
  { unfold executor. apply runEdges_root_filter.
    - apply Forall_forall. intros e He.
      destruct (Hall e He) as (n & Hn & E).
      exists (condOf n). rewrite E. now apply Hconds.
    - exact (tree_root _ T).
    - reflexivity.
    - simpl. discriminate.
    - left.
      destruct (last_edge_from_root plan T _ (tree_order _ T)
                  (fun e He => He) Hne) as (e & He & Er).
      unfold endpoints. apply in_flat_map. exists e.
      split; [exact He|]. left. exact Er. }
  destruct Hform as (keep & Hk). rewrite Hq in Hk.
  exists keep. split; [exact Hk|].
  intros x Hx.
  pose proof (executor_satisfies queryTree plan
                (fun e => conditionOf (filter e)) world st x H Hne
                (plan_edges_conditions _ _ condOf world Hinj H Hconds))
    as Hex.
  rewrite (plan_denotes queryTree plan condOf world x Hinj H Hconds) in Hex.
  rewrite Hk, filter_In in Hex. tauto.
Qed.

(** * Raw lists at the top level *)

(** With a [cacheQuery] that never throws the two models of
    [createTreeQuery] are one. *)
Lemma registerQueriesOn_total (h : list WipQuery) final :
  forall queryById,
    registerQueriesOn (fun l => inr (cacheQuery l)) h final queryById =
    inr (fold_left
           (fun m r => setAt m (wq_id (deref h r))
                         (Some (cacheQuery (wq_components (deref h r)))))
           final queryById).
Proof.
  induction final as [|r final IH]; intros queryById; [reflexivity|].
  simpl. apply IH.
Qed.

Lemma createTreeQueryOn_total queryTree :
  createTreeQueryOn (fun l => inr (cacheQuery l)) queryTree =
  createTreeQuery queryTree.
Proof.
  unfold createTreeQueryOn, createTreeQuery.
  destruct (length queryTree =? 0); [reflexivity|].
  destruct (buildQueryRecursive _ _ _ _ _) as [st|]; [|reflexivity].
  now rewrite registerQueriesOn_total.
Qed.







End TreeQuery.

(** * The ids do not matter *)

Section Independence.

Variables World Trait QueryHash : Type.
Variable cacheQuery : list (Arg World Trait) -> QueryHash.
Variable worldQuery : World -> option QueryHash -> list Entity.

(** X21. The ids serve to tell the nodes apart and for nothing else: two
    compilations of one specification, with any two sequences of pairwise
    distinct [Math.random] draws, give query functions that return the
    same list on every world, whatever calls were made before.  The
    filter nodes are taken to be made by filter constructors. *)
Theorem result_independent_of_ids (rnd1 rnd2 : nat -> Id)
    (queryTree : list (Arg World Trait)) (plan1 plan2 : Plan World QueryHash)
    (condOf : QueryFilterNode World Trait -> Condition World) :
  (forall i j, rnd1 i = rnd1 j -> i = j) ->
  (forall i j, rnd2 i = rnd2 j -> i = j) ->
  createTreeQuery rnd1 cacheQuery queryTree = Returns plan1 ->
  createTreeQuery rnd2 cacheQuery queryTree = Returns plan2 ->
  (forall n, In n (compiledNodes World Trait queryTree) ->
             nodeFilter n = queryFilter (condOf n)) ->
  forall world st1 st2,
    fst (executor worldQuery plan1 world st1) =
    fst (executor worldQuery plan2 world st2).
Proof.
  intros H1 H2 Hp1 Hp2 Hconds world st1 st2.
  destruct (executor_exact World Trait QueryHash rnd1 cacheQuery worldQuery
              queryTree plan1 condOf H1 Hp1 Hconds world st1)
    as (keep1 & E1 & K1).
  destruct (executor_exact World Trait QueryHash rnd2 cacheQuery worldQuery
              queryTree plan2 condOf H2 Hp2 Hconds world st2)
    as (keep2 & E2 & K2).
  rewrite E1, E2. apply filter_ext_in. intros x Hx.
  specialize (K1 x Hx). specialize (K2 x Hx).
  destruct (keep1 x), (keep2 x); try reflexivity.
  - symmetry. apply K2, K1. reflexivity.
  - apply K1, K2. reflexivity.
Qed.

End Independence.


(** * A small world to run the model on *)

Module Example.

(** Entities with their traits, and parent-of links. *)
Record ToyWorld := mkToyWorld {
  traitsOf : list (Entity * list nat);
  links : list (Entity * Entity)
}.

(** The hash of a query is the list of its traits. *)
Definition toyCacheQuery (components : list (Arg ToyWorld nat)) : list nat :=
  traitsIn components.

Definition toyQuery (world : ToyWorld) (hash : option (list nat))
  : list Entity :=
  match hash with
  | None => []
  | Some ts =>
      map fst
        (List.filter
           (fun et => forallb (fun t => existsb (Nat.eqb t) (snd et)) ts)
           (traitsOf world))
  end.

Definition isParentOf : Condition ToyWorld :=
  fun p c world =>
    existsb (fun l => Nat.eqb (fst l) p && Nat.eqb (snd l) c) (links world).

(** [HasChild(traits..., nested...)]. *)
Definition HasChild (traits : list nat)
    (nested : list (QueryFilterNode ToyWorld nat))
  : QueryFilterNode ToyWorld nat :=
  FilterNode traits (queryFilter isParentOf) nested.

Definition counter : nat -> Id := fun n => n.

Definition compile := createTreeQuery counter toyCacheQuery.
Definition run := executor toyQuery.

(** Traits A..E are 1..5.  Entity 11 (A) is parent of 12 (B) and 14 (D);
    12 is parent of 13 (C).  Nothing has E. *)
Definition family : ToyWorld :=
  mkToyWorld [(11, [1]); (12, [2]); (13, [3]); (14, [4])]
             [(11, 12); (12, 13); (11, 14)].

Definition emptyWorld : ToyWorld := mkToyWorld [] [].

(** [createTreeQuery(A, HasChild(B, HasChild(C)))]. *)
Definition chainSpec : list (Arg ToyWorld nat) :=
  [ATrait ToyWorld 1; AFilter (HasChild [2] [HasChild [3] []])].

Definition chainLeafEdge : EvalEdge ToyWorld :=
  mkEvalEdge (queryFilter isParentOf) 1 2.
Definition chainRootEdge : EvalEdge ToyWorld :=
  mkEvalEdge (queryFilter isParentOf) 0 1.

Definition chainPlan : Plan ToyWorld (list nat) :=
  mkPlan [chainLeafEdge; chainRootEdge] 0
    [mkEvalNode 0 (Some [1]) [chainRootEdge];
     mkEvalNode 1 (Some [2]) [chainLeafEdge];
     mkEvalNode 2 (Some [3]) []].

(** [createTreeQuery(A, HasChild(B, HasChild(C)), HasChild(D, HasChild(E)))]. *)
Definition siblingSpec : list (Arg ToyWorld nat) :=
  [ATrait ToyWorld 1;
   AFilter (HasChild [2] [HasChild [3] []]);
   AFilter (HasChild [4] [HasChild [5] []])].

Definition siblingPlan : Plan ToyWorld (list nat) :=
  let e01 := mkEvalEdge (queryFilter isParentOf) 0 1 in
  let e02 := mkEvalEdge (queryFilter isParentOf) 0 2 in
  let e13 := mkEvalEdge (queryFilter isParentOf) 1 3 in
  mkPlan [e13; e02; e01] 0
    [mkEvalNode 0 (Some [1]) [e01; e02];
     mkEvalNode 1 (Some [2]) [e13];
     mkEvalNode 2 (Some [4]) [];
     mkEvalNode 3 (Some [3]) []].


Example chainSpec_compiles : compile chainSpec = Returns chainPlan.
Proof. vm_compute. reflexivity. Qed.

Example chain_on_family :
  fst (run chainPlan family initialEvalState) = [11].
Proof. vm_compute. reflexivity. Qed.

(** The compiled sibling query has no edge below the D node (id 2), and
    it answers [11] although no entity has trait E, so that entity 14 has
    no child with E. *)
Example sibling_on_family :
  compile siblingSpec = Returns siblingPlan /\
  fst (run siblingPlan family initialEvalState) = [11] /\
  toyQuery family (Some [5]) = [].
Proof. split; [vm_compute; reflexivity|]. split; vm_compute; reflexivity. Qed.

Lemma createTreeQuery_specification_errors_witness :
  compile [ATrait ToyWorld 1; ATrait ToyWorld 2]
  = Throws ToyWorld (list nat) (ThrowError msgNoFilter).
Proof.
  apply (proj2 (createTreeQuery_specification_errors ToyWorld nat (list nat)
                  counter toyCacheQuery)).
  - discriminate.
  - intros n [H|[H|[]]]; discriminate.
Defined.

Lemma chain_composition_witness :
  exists leaf mid plan,
    createTreeQueryFilter isParentOf (map (@ATrait ToyWorld nat) [3]) = inr leaf /\
    createTreeQueryFilter isParentOf
      (map (@ATrait ToyWorld nat) [2] ++ AFilter leaf :: map (@ATrait ToyWorld nat) [])
      = inr mid /\
    compile (map (@ATrait ToyWorld nat) [1] ++ AFilter mid :: map (@ATrait ToyWorld nat) [])
      = Returns plan /\
    forall world st r,
      In r (fst (run plan world st)) <->
      In r (entitiesWith toyCacheQuery toyQuery world ([1] ++ [])) /\
      exists m, In m (entitiesWith toyCacheQuery toyQuery world ([2] ++ [])) /\
                isParentOf r m world = true /\
                exists l, In l (entitiesWith toyCacheQuery toyQuery world [3]) /\
                          isParentOf m l world = true.
Proof.
  apply (chain_composition ToyWorld nat (list nat) counter toyCacheQuery
           toyQuery
           [1] [] [2] [] [3] isParentOf isParentOf).
  intros i j H. exact H.
Defined.

Lemma edgesFlattened_bottom_up_witness :
  (exists recorded,
     flattenLoop (S (length (nodes siblingPlan))) (nodes siblingPlan)
       [rootNode siblingPlan] [] = Some recorded /\
     edgesFlattened siblingPlan = rev recorded) /\
  NoDup (edgesFlattened siblingPlan) /\
  (forall e, In e (storeEdges (nodes siblingPlan)) <->
             In e (edgesFlattened siblingPlan)) /\
  forall e1 e2,
    above (storeEdges (nodes siblingPlan)) e1 e2 ->
    exists l1 l2 l3, edgesFlattened siblingPlan = l1 ++ e2 :: l2 ++ e1 :: l3.
Proof.
  apply (edgesFlattened_bottom_up ToyWorld nat (list nat) counter
           toyCacheQuery siblingSpec siblingPlan).
  vm_compute. reflexivity.
Defined.

(** On the empty world the leaf edge already yields nothing: the call
    returns at the first edge and the root edge is never evaluated. *)
Lemma executor_early_exit_witness :
  let st1 := mkEvalState (updateList initialEvalState) (fun _ => false) [] in
  let st2 := ensureComputed toyQuery chainPlan emptyWorld 2
               (ensureComputed toyQuery chainPlan emptyWorld 1 st1) in
  run chainPlan emptyWorld initialEvalState = ([], st2) /\
  evalEdge toyQuery chainPlan emptyWorld chainLeafEdge st1 = Return [] st2.
Proof.
  apply (executor_early_exit ToyWorld (list nat) toyQuery chainPlan
           emptyWorld initialEvalState
           [] chainLeafEdge [chainRootEdge]).
  - reflexivity.
  - reflexivity.
  - left. vm_compute. reflexivity.
Defined.

(** ** The further properties, on the chain query *)

Lemma compiled_plan_is_tree_witness :
  NoDup (map (@childNode ToyWorld) (edgesFlattened chainPlan)) /\
  forall e, In e (edgesFlattened chainPlan) ->
    childNode e <> rootNode chainPlan /\
    parentNode e <> childNode e /\
    (parentNode e = rootNode chainPlan \/
     exists e', In e' (edgesFlattened chainPlan) /\
                childNode e' = parentNode e).
Proof.
  apply (compiled_plan_is_tree ToyWorld nat (list nat) counter toyCacheQuery
           chainSpec chainPlan).
  vm_compute. reflexivity.
Defined.

Lemma executor_result_filter_witness :
  exists keep,
    fst (run chainPlan family (history toyQuery chainPlan [emptyWorld])) =
    List.filter keep (toyQuery family (nodeQuery chainPlan (rootNode chainPlan))).
Proof.
  apply (executor_result_filter ToyWorld nat (list nat) counter toyCacheQuery
           toyQuery chainSpec chainPlan).
  - vm_compute. reflexivity.
  - repeat constructor; exists isParentOf; reflexivity.
Defined.

Lemma executor_empty_world_witness :
  fst (run chainPlan emptyWorld (history toyQuery chainPlan [family])) = [].
Proof.
  apply (executor_empty_world ToyWorld (list nat) toyQuery chainPlan
           emptyWorld [family]).
  - repeat constructor; exists isParentOf; reflexivity.
  - intros [ts|]; reflexivity.
Defined.

Lemma executor_semantics_witness :
  In 11 (fst (run chainPlan family initialEvalState)) <->
  satisfies ToyWorld (list nat) toyQuery chainPlan family
    (fun _ => isParentOf) (rootNode chainPlan) 11.
Proof.
  apply (executor_semantics ToyWorld nat (list nat) counter toyCacheQuery
           toyQuery chainSpec chainPlan (fun _ => isParentOf)).
  - vm_compute. reflexivity.
  - discriminate.
  - intros e [He|[He|[]]]; subst e; reflexivity.
Defined.

Lemma single_filter_query_witness :
  exists node plan,
    createTreeQueryFilter isParentOf (map (@ATrait ToyWorld nat) [2])
      = inr node /\
    compile (map (@ATrait ToyWorld nat) [1] ++ AFilter node ::
             map (@ATrait ToyWorld nat) []) = Returns plan /\
    forall world st,
      fst (run plan world st) =
      List.filter
        (fun r => existsb (fun m => isParentOf r m world)
                    (entitiesWith toyCacheQuery toyQuery world [2]))
        (entitiesWith toyCacheQuery toyQuery world ([1] ++ [])).
Proof.
  apply (single_filter_query ToyWorld nat (list nat) counter toyCacheQuery
           toyQuery [1] [] [2] isParentOf).
  intros i j H. exact H.
Defined.

Lemma sibling_conjunction_witness :
  exists node1 node2 plan,
    createTreeQueryFilter isParentOf (map (@ATrait ToyWorld nat) [2])
      = inr node1 /\
    createTreeQueryFilter isParentOf (map (@ATrait ToyWorld nat) [4])
      = inr node2 /\
    compile (map (@ATrait ToyWorld nat) [1] ++ AFilter node1 ::
             map (@ATrait ToyWorld nat) [] ++ AFilter node2 ::
             map (@ATrait ToyWorld nat) []) = Returns plan /\
    forall world st r,
      In r (fst (run plan world st)) <->
      In r (entitiesWith toyCacheQuery toyQuery world ([1] ++ [] ++ [])) /\
      (exists m, In m (entitiesWith toyCacheQuery toyQuery world [2]) /\
                 isParentOf r m world = true) /\
      (exists m, In m (entitiesWith toyCacheQuery toyQuery world [4]) /\
                 isParentOf r m world = true).
Proof.
  apply (sibling_conjunction ToyWorld nat (list nat) counter toyCacheQuery
           toyQuery [1] [] [] [2] [4] isParentOf isParentOf).
  intros i j H. exact H.
Defined.

Lemma main_query_witness :
  exists node plan,
    createTreeQueryFilter (NotItself ToyWorld) [ATrait ToyWorld 1; ATrait ToyWorld 2]
      = inr node /\
    compile [ATrait ToyWorld 1; ATrait ToyWorld 2; AFilter node]
      = Returns plan /\
    forall world st r,
      In r (fst (run plan world st)) <->
      In r (entitiesWith toyCacheQuery toyQuery world [1; 2]) /\
      exists other,
        In other (entitiesWith toyCacheQuery toyQuery world [1; 2]) /\
        other <> r.
Proof.
  apply (main_query ToyWorld nat (list nat) counter toyCacheQuery toyQuery
           1 2).
  intros i j H. exact H.
Defined.

Lemma plan_filters_from_specification_witness :
  exists n, In n (compiledNodes ToyWorld nat chainSpec) /\
            filter chainLeafEdge = nodeFilter n.
Proof.
  apply (plan_filters_from_specification ToyWorld nat (list nat) counter
           toyCacheQuery chainSpec chainPlan).
  - vm_compute. reflexivity.
  - left. reflexivity.
Defined.

Definition collide : nat -> Id := fun _ => 0.

(** What becomes of the chain query when all draws coincide: one node,
    no edge. *)
Definition collidedPlan : Plan ToyWorld (list nat) :=
  mkPlan [] 0 [mkEvalNode 0 (Some [3]) []].

Lemma plan_has_edge_per_compiled_node_witness :
  Permutation (map (@filter ToyWorld) (edgesFlattened chainPlan))
    (map (@nodeFilter ToyWorld nat) (compiledNodes ToyWorld nat chainSpec)).
Proof.
  apply (plan_has_edge_per_compiled_node ToyWorld nat (list nat) counter
           toyCacheQuery chainSpec chainPlan).
  - intros i j H. exact H.
  - vm_compute. reflexivity.
Defined.

Lemma colliding_ids_lose_filters_witness :
  edgesFlattened collidedPlan = [] /\
  forall world worlds,
    fst (run collidedPlan world (history toyQuery collidedPlan worlds)) = [].
Proof.
  apply (colliding_ids_lose_filters ToyWorld nat (list nat) collide
           toyCacheQuery toyQuery chainSpec collidedPlan).
  - intros i j. reflexivity.
  - vm_compute. reflexivity.
Defined.

Lemma plan_nodes_have_queries_witness :
  (forall n, In n (nodes chainPlan) -> exists hash, query n = Some hash) /\
  (forall e, In e (edgesFlattened chainPlan) ->
     (exists hash, nodeQuery chainPlan (parentNode e) = Some hash) /\
     (exists hash, nodeQuery chainPlan (childNode e) = Some hash)).
Proof.
  apply (plan_nodes_have_queries ToyWorld nat (list nat) counter
           toyCacheQuery chainSpec chainPlan).
  vm_compute. reflexivity.
Defined.

(** ** The semantics of compiled queries, on the two specifications *)

Lemma createTreeQuery_semantics_witness :
  In 11 (fst (run siblingPlan family initialEvalState)) <->
  In 11 (toyQuery family (Some (toyCacheQuery (plainIn siblingSpec)))) /\
  holdsLevel toyCacheQuery toyQuery family (fun _ => isParentOf)
    (filtersIn siblingSpec) true 11.
Proof.
  apply (createTreeQuery_semantics ToyWorld nat (list nat) counter
           toyCacheQuery toyQuery siblingSpec siblingPlan
           (fun _ => isParentOf)).
  - intros i j H. exact H.
  - vm_compute. reflexivity.
  - intros n Hn. simpl in Hn.
    destruct Hn as [<-|[<-|[<-|[]]]]; reflexivity.
Defined.

Lemma createTreeQuery_single_spine_witness :
  In 11 (fst (run chainPlan family initialEvalState)) <->
  In 11 (toyQuery family (Some (toyCacheQuery (plainIn chainSpec)))) /\
  meetsLevel toyCacheQuery toyQuery family (fun _ => isParentOf)
    (filtersIn chainSpec) 11.
Proof.
  apply (createTreeQuery_single_spine ToyWorld nat (list nat) counter
           toyCacheQuery toyQuery chainSpec chainPlan
           (fun _ => isParentOf)).
  - intros i j H. exact H.
  - vm_compute. reflexivity.
  - intros n Hn. simpl in Hn.
    destruct Hn as [<-|[<-|[]]]; reflexivity.
  - reflexivity.
Defined.

(** ** Other ids for the chain query *)

Definition shifted : nat -> Id := fun n => n + 5.

Definition shiftedChainPlan : Plan ToyWorld (list nat) :=
  let leaf := mkEvalEdge (queryFilter isParentOf) 6 7 in
  let top := mkEvalEdge (queryFilter isParentOf) 5 6 in
  mkPlan [leaf; top] 5
    [mkEvalNode 5 (Some [1]) [top];
     mkEvalNode 6 (Some [2]) [leaf];
     mkEvalNode 7 (Some [3]) []].

Lemma result_independent_of_ids_witness :
  fst (run chainPlan family initialEvalState) =
  fst (run shiftedChainPlan family initialEvalState).
Proof.
  apply (result_independent_of_ids ToyWorld nat (list nat) toyCacheQuery
           toyQuery counter shifted chainSpec chainPlan shiftedChainPlan
           (fun _ => isParentOf)).
  - intros i j H. exact H.
  - unfold shifted. intros i j H. lia.
  - vm_compute. reflexivity.
  - vm_compute. reflexivity.
  - intros n Hn. simpl in Hn.
    destruct Hn as [<-|[<-|[]]]; reflexivity.
Defined.

(** ** Raw lists at the top level, over two stores *)







(** ** The chain query when a draw repeats *)

(** [Math.random] returning x, y, x: the third draw of the compilation
    repeats the first. *)
Definition repeating : nat -> Id :=
  fun n => match n with 1 => 1 | _ => 0 end.

(** What the chain query compiles to then.  The leaf object carries the
    id of the root object: its hash replaces the root's in [queryById],
    and its tuple finds the child node already stored and adds no edge. *)
Definition repeatedPlan : Plan ToyWorld (list nat) :=
  let e := mkEvalEdge (queryFilter isParentOf) 0 1 in
  mkPlan [e] 0 [mkEvalNode 0 (Some [3]) [e]; mkEvalNode 1 (Some [2]) []].

(** Entity 11 (A) is parent of 12 (B), 12 of 13 (C), and 13 of 12. *)
Definition cycle : ToyWorld :=
  mkToyWorld [(11, [1]); (12, [2]); (13, [3])] [(11, 12); (12, 13); (13, 12)].

(** C2.  The chain [createTreeQuery(A, HasChild(B, HasChild(C)))] compiled
    while the third draw repeats the first: [genId] returns the draw (it
    never adds to [prevIds]), and the compiled query then returns, on every
    world, the entities reported for the leaf requirement C that are
    related to some entity reported for B.  On [cycle] it returns 13,
    which does not hold the root requirement A, and not 11, which holds A
    and has the child 12 with B, whose child 13 has C. *)
Theorem chain_with_repeated_draw :
  createTreeQueryFilter isParentOf [ATrait ToyWorld 3] = inr (HasChild [3] []) /\
  createTreeQueryFilter isParentOf [ATrait ToyWorld 2; AFilter (HasChild [3] [])]
  = inr (HasChild [2] [HasChild [3] []]) /\
  createTreeQuery repeating toyCacheQuery chainSpec = Returns repeatedPlan /\
  (forall world st,
     fst (run repeatedPlan world st) =
     List.filter
       (fun r => existsb (fun m => isParentOf r m world)
                   (entitiesWith toyCacheQuery toyQuery world [2]))
       (entitiesWith toyCacheQuery toyQuery world [3])) /\
  fst (run repeatedPlan cycle initialEvalState) = [13] /\
  ~ In 13 (entitiesWith toyCacheQuery toyQuery cycle [1]) /\
  In 11 (entitiesWith toyCacheQuery toyQuery cycle [1]) /\
  In 12 (entitiesWith toyCacheQuery toyQuery cycle [2]) /\
  isParentOf 11 12 cycle = true /\
  In 13 (entitiesWith toyCacheQuery toyQuery cycle [3]) /\
  isParentOf 12 13 cycle = true.
Proof.
  split; [reflexivity|]. split; [reflexivity|].
  split; [vm_compute; reflexivity|].
  split.
  - intros world st.
    apply (pair_execute ToyWorld (list nat) toyQuery isParentOf 0 1
             (Some [3]) (Some [2]) world st).
    discriminate.
  - split; [vm_compute; reflexivity|].
    split; [intros [H|[]]; discriminate|].
    repeat split; try reflexivity; vm_compute; auto.
Qed.

End Example.
